(** * Sliding-tile puzzle solver: solvability check, state model and A* search

    A shallow embedding of [solver.py].  Python integers are [Z]; a Python
    list of integers is a [list Z]; the grid is a list of rows.  Exceptions
    and non-termination are explicit in the result type [res].  The builtin
    [hash] (on tuples and on [None]) is not part of the program: every
    definition that uses it takes it from the section variables
    [hash_tuple] and [hash_none]. *)

From Stdlib Require Import String Ascii.
From Stdlib Require Import ZArith List Lia Bool Permutation Arith.
From Stdlib Require Import Sorted.
Import ListNotations.
Open Scope string_scope.
Open Scope list_scope.
Open Scope Z_scope.

(** ** Results of Python computations *)

Inductive exn : Type :=
| ValueError | IndexError | KeyError | AttributeError | ZeroDivisionError.

(** [Ret v]: the call returns [v]; [Raise e]: it raises [e];
    [OutOfFuel]: the loop did not finish within the given number of rounds. *)
Inductive res (A : Type) : Type :=
| Ret (a : A)
| Raise (e : exn)
| OutOfFuel.

Arguments Ret {A} a.
Arguments Raise {A} e.
Arguments OutOfFuel {A}.

Definition bind {A B : Type} (m : res A) (k : A -> res B) : res B :=
  match m with
  | Ret a => k a
  | Raise e => Raise e
  | OutOfFuel => OutOfFuel
  end.

Declare Scope res_scope.
Delimit Scope res_scope with res.
Notation "x <- m ;; k" := (bind m (fun x => k))
  (at level 61, m at next level, right associativity) : res_scope.
Notation "' p <- m ;; k" := (bind m (fun x => let p := x in k))
  (at level 61, p pattern, m at next level, right associativity) : res_scope.
Open Scope res_scope.

(** ** Python list primitives *)

Definition len {A : Type} (l : list A) : Z := Z.of_nat (length l).

(** [l[i]]: a negative index counts from the end, out of range raises. *)
Definition py_get (l : list Z) (i : Z) : res Z :=
  if (0 <=? i) && (i <? len l) then Ret (nth (Z.to_nat i) l 0)
  else if (- len l <=? i) && (i <? 0) then Ret (nth (Z.to_nat (len l + i)) l 0)
  else Raise IndexError.

Fixpoint update (l : list Z) (n : nat) (v : Z) : list Z :=
  match l, n with
  | [], _ => []
  | _ :: t, O => v :: t
  | x :: t, S m => x :: update t m v
  end.

(** [l[i] = v] *)
Definition py_set (l : list Z) (i : Z) (v : Z) : res (list Z) :=
  if (0 <=? i) && (i <? len l) then Ret (update l (Z.to_nat i) v)
  else if (- len l <=? i) && (i <? 0) then Ret (update l (Z.to_nat (len l + i)) v)
  else Raise IndexError.

(** [l.remove(x)]: drops the first occurrence, [ValueError] if there is none. *)
Fixpoint list_remove (l : list Z) (x : Z) : res (list Z) :=
  match l with
  | [] => Raise ValueError
  | y :: t => if y =? x then Ret t else (t' <- list_remove t x ;; Ret (y :: t'))
  end.

(** [l.index(x)] *)
Fixpoint list_index (l : list Z) (x : Z) : res Z :=
  match l with
  | [] => Raise ValueError
  | y :: t => if y =? x then Ret 0 else (i <- list_index t x ;; Ret (i + 1))
  end.

(** [l.count(x)] *)
Fixpoint list_count (l : list Z) (x : Z) : Z :=
  match l with
  | [] => 0
  | y :: t => (if y =? x then 1 else 0) + list_count t x
  end.

(** [a % b] and [a // b]: Python's floor division, which is [Z.modulo] and
    [Z.div] except that a zero divisor raises. *)
Definition py_mod (a b : Z) : res Z :=
  if b =? 0 then Raise ZeroDivisionError else Ret (a mod b).

Definition py_div (a b : Z) : res Z :=
  if b =? 0 then Raise ZeroDivisionError else Ret (a / b).

(** ** Solvability check *)

(** [[item for row in puzzle_data for item in row]] *)
Definition flatten (puzzle_data : list (list Z)) : list Z := concat puzzle_data.

(** The two nested [for] loops over [range(len(flat))] and
    [range(i, len(flat))]. *)
Definition count_inversions (flat : list Z) : Z :=
  fold_left
    (fun inversions i =>
       fold_left
         (fun inversions j =>
            if nth j flat 0 <? nth i flat 0 then inversions + 1 else inversions)
         (seq i (length flat - i)) inversions)
    (seq 0 (length flat)) 0.

(** The loop that looks for the row with the blank: rows [i, i+1, ...] are
    [rows]; the result is [-1] when no row holds a [0]. *)
Fixpoint find_blank_row (rows : list (list Z)) (i : Z) : Z :=
  match rows with
  | [] => -1
  | row :: rest => if list_count row 0 >? 0 then i else find_blank_row rest (i + 1)
  end.

(** [puzzle_data[0]] *)
Definition first_row (puzzle_data : list (list Z)) : res (list Z) :=
  match puzzle_data with
  | [] => Raise IndexError
  | row :: _ => Ret row
  end.

Definition is_solvable (puzzle_data : list (list Z)) : res bool :=
  flat <- list_remove (flatten puzzle_data) 0 ;;
  let inversions := count_inversions flat in
  row0 <- first_row puzzle_data ;;
  if len row0 mod 2 =? 1 then Ret (inversions mod 2 =? 0)
  else
    let blankRow := find_blank_row puzzle_data 0 in
    Ret ((inversions + (len puzzle_data - blankRow - 1)) mod 2 =? 0).

(** The inversion count by recursion on the list, for the proofs. *)
Fixpoint smaller_after (x : Z) (l : list Z) : Z :=
  match l with
  | [] => 0
  | y :: t => (if y <? x then 1 else 0) + smaller_after x t
  end.

Fixpoint inversions (l : list Z) : Z :=
  match l with
  | [] => 0
  | x :: t => smaller_after x t + inversions t
  end.

(** ** Valid configurations, as section 6 of the specification has them:
    at least one row, rows of one width that is at least one, and every
    integer of [0 .. height*width-1] exactly once. *)

Definition width_of (puzzle_data : list (list Z)) : nat :=
  length (hd [] puzzle_data).

Definition occurs_once (l : list Z) (k : nat) : bool :=
  list_count l (Z.of_nat k) =? 1.

Definition valid_configuration (puzzle_data : list (list Z)) : bool :=
  (1 <=? length puzzle_data)%nat
  && (1 <=? width_of puzzle_data)%nat
  && forallb (fun row => (length row =? width_of puzzle_data)%nat) puzzle_data
  && forallb (occurs_once (flatten puzzle_data))
       (seq 0 (length (flatten puzzle_data))).

(** ** The decision rule in the words of the specification *)

(** Inversions: pairs [(i, j)] with [i < j] and [value[j] < value[i]]. *)
Definition is_inversion (l : list Z) (ij : nat * nat) : bool :=
  (fst ij <? snd ij)%nat && (nth (snd ij) l 0 <? nth (fst ij) l 0).

Definition inversion_pairs (l : list Z) : list (nat * nat) :=
  filter (is_inversion l)
    (list_prod (seq 0 (length l)) (seq 0 (length l))).

Definition inversion_count (l : list Z) : Z := len (inversion_pairs l).

(** The row-major flattening without the blank. *)
Definition blank_removed (puzzle_data : list (list Z)) : list Z :=
  filter (fun v => negb (v =? 0)) (concat puzzle_data).

(** [r] is the index, from the top, of the row that holds the blank. *)
Definition row_index_of_blank (puzzle_data : list (list Z)) (r : nat) : Prop :=
  exists row, nth_error puzzle_data r = Some row /\ In 0 row.

Definition parity_rule (puzzle_data : list (list Z)) (r : nat) : Prop :=
  let width := len (hd [] puzzle_data) in
  let height := len puzzle_data in
  let inversions := inversion_count (blank_removed puzzle_data) in
  (Z.Odd width -> Z.Even inversions)
  /\ (Z.Even width ->
      let blankRowFromBottom := height - 1 - Z.of_nat r in
      Z.Even (inversions + blankRowFromBottom)).

(** ** Moves and distances in the words of the specification *)

(** Cell [(x, y)] of the grid is index [y*width + x] of the flat sequence. *)
Definition cell (width x y : Z) : Z := y * width + x.

(** The position of the blank in a flat sequence. *)
Fixpoint blank_index (fl : list Z) : option Z :=
  match fl with
  | [] => None
  | v :: t => if v =? 0 then Some 0
              else match blank_index t with
                   | Some i => Some (i + 1)
                   | None => None
                   end
  end.

(** The cell whose tile a move character slides into the blank at [(x, y)]:
    [U] the tile below, [D] the tile above, [L] the tile to the right, [R]
    the tile to the left, each only when that cell is on the grid. *)
Definition moved_cell (width height : Z) (c : string) (x y : Z) : option (Z * Z) :=
  if String.eqb c "U" then (if y <? height - 1 then Some (x, y + 1) else None)
  else if String.eqb c "D" then (if 0 <? y then Some (x, y - 1) else None)
  else if String.eqb c "L" then (if x <? width - 1 then Some (x + 1, y) else None)
  else if String.eqb c "R" then (if 0 <? x then Some (x - 1, y) else None)
  else None.

(** Swapping the blank at index [b] with the tile at index [t]. *)
Definition swap_blank (fl : list Z) (b t : Z) : list Z :=
  update (update fl (Z.to_nat b) (nth (Z.to_nat t) fl 0)) (Z.to_nat t) 0.

Definition apply_move (width height : Z) (c : string) (fl : list Z) : option (list Z) :=
  match blank_index fl with
  | None => None
  | Some b =>
      match moved_cell width height c (b mod width) (b / width) with
      | None => None
      | Some (x, y) => Some (swap_blank fl b (cell width x y))
      end
  end.

Fixpoint apply_moves (width height : Z) (ms : list string) (fl : list Z)
  : option (list Z) :=
  match ms with
  | [] => Some fl
  | m :: rest =>
      match apply_move width height m fl with
      | Some fl' => apply_moves width height rest fl'
      | None => None
      end
  end.

(** The goal [1, 2, ..., n-1, 0] for [n] cells. *)
Definition goal_configuration (n : nat) : list Z :=
  map Z.of_nat (seq 1 (n - 1)) ++ [0].


(** The Manhattan sum of the specification: over the non-blank cells [i],
    the distance from [i] to the goal index [value - 1]. *)
Definition tile_distance (width v i : Z) : Z :=
  Z.abs ((v - 1) mod width - i mod width) + Z.abs ((v - 1) / width - i / width).

(** The blank does not count. *)
Definition cell_cost (width v i : Z) : Z :=
  if v =? 0 then 0 else tile_distance width v i.

Fixpoint manhattan_from (width : Z) (i : Z) (cells : list Z) : Z :=
  match cells with
  | [] => 0
  | v :: rest => cell_cost width v i + manhattan_from width (i + 1) rest
  end.

Definition manhattan (width : Z) (fl : list Z) : Z := manhattan_from width 0 fl.

(** ** Two hash functions for the examples: one that tells any two
    rearrangements of a small configuration apart, one that does not. *)

Definition radix_hash (l : list Z) : Z :=
  fold_right (fun v acc => v + 1 + 1000 * acc) 0 l.

Definition sum_hash (l : list Z) : Z := fold_right Z.add 0 l.

(** ** A configuration for the examples: one move from the goal *)

Definition example_puzzle : list (list Z) := [[1; 2]; [0; 3]].

(** The solved configuration of the same size, and a single row whose
    tiles cannot pass each other. *)
Definition solved_puzzle : list (list Z) := [[1; 2]; [3; 0]].

Definition single_row_puzzle : list (list Z) := [[2; 3; 1; 0]].

(** A valid configuration that fails the parity test: two tiles exchanged
    in the solved one. *)
Definition swapped_puzzle : list (list Z) := [[2; 1]; [3; 0]].

(** The subscripts that [l[i]] accepts: [-len(l) <= i < len(l)]. *)
Definition in_range (l : list Z) (i : Z) : Prop := - len l <= i < len l.

(** ** The state model *)

Record State : Type := mkState {
  flat : list Z;
  moveChar : string;
  _hash : Z;
  _score : Z
}.

(** An open-list entry: [(f, g, i, state, prev)]. *)
Record entry : Type := mkEntry {
  e_f : Z;
  e_g : Z;
  e_i : Z;
  e_state : State;
  e_prev : option State
}.

(** Tuple order on entries.  The counter [i] differs from entry to entry,
    so the comparison never reaches the states. *)
Definition entry_ltb (a b : entry) : bool :=
  (e_f a <? e_f b)
  || ((e_f a =? e_f b)
      && ((e_g a <? e_g b) || ((e_g a =? e_g b) && (e_i a <? e_i b)))).

(** [heapq]: the heap is kept as the list of its items; [heappop] takes
    out the least item in tuple order, which is what the binary heap of the
    library yields. *)
Definition heappush (heap : list entry) (item : entry) : list entry :=
  item :: heap.

Fixpoint heappop (heap : list entry) : option (entry * list entry) :=
  match heap with
  | [] => None
  | e :: rest =>
      match heappop rest with
      | None => Some (e, [])
      | Some (m, rest') =>
          if entry_ltb m e then Some (m, e :: rest') else Some (e, rest)
      end
  end.

(** [make_state]: the score and the hash are not cached yet. *)
Definition make_state (puzzle_data : list (list Z)) : State :=
  {| flat := flatten puzzle_data; moveChar := ""; _hash := 0; _score := -1 |}.

Definition clone (start : State) : State :=
  {| flat := flat start; moveChar := ""; _hash := _hash start;
     _score := _score start |}.

Definition index (x y width : Z) : Z := y * width + x.

Definition from_index (idx width : Z) : res (Z * Z) :=
  x <- py_mod idx width ;;
  y <- py_div idx width ;;
  Ret (x, y).

(** The loop of [State.score] from cell [i] on, [acc] being [self._score]. *)
Fixpoint score_loop (width : Z) (cells : list Z) (i : Z) (acc : Z) : res Z :=
  match cells with
  | [] => Ret acc
  | v :: rest =>
      if v =? 0 then score_loop width rest (i + 1) acc
      else
        let item := v - 1 in
        if width =? 0 then Raise ZeroDivisionError
        else
          let acc := acc + Z.abs (item mod width - i mod width) in
          let acc := acc + Z.abs (item / width - i / width) in
          score_loop width rest (i + 1) acc
  end.

(** [State.score]: the score and the state with its cache filled. *)
Definition score (self : State) (width : Z) : res (Z * State) :=
  if _score self =? -1 then
    v <- score_loop width (flat self) 0 0 ;;
    Ret (v, {| flat := flat self; moveChar := moveChar self;
               _hash := _hash self; _score := v |})
  else Ret (_score self, self).

(** [State.move] *)
Definition move (self : State) (char : string) (x y dx dy width : Z) : res State :=
  let blankIdx := index x y width in
  let x := x + dx in
  let y := y + dy in
  let i := index x y width in
  item <- py_get (flat self) i ;;
  if width =? 0 then Raise ZeroDivisionError
  else
    let sc := _score self in
    let sc := sc - Z.abs ((item - 1) mod width - i mod width) in
    let sc := sc - Z.abs ((item - 1) / width - i / width) in
    let sc := sc + Z.abs ((item - 1) mod width - blankIdx mod width) in
    let sc := sc + Z.abs ((item - 1) / width - blankIdx / width) in
    fl <- py_set (flat self) blankIdx item ;;
    fl <- py_set fl i 0 ;;
    Ret {| flat := fl; moveChar := char; _hash := 0; _score := sc |}.

(** The closed list: a dictionary from states to their predecessors
    ([None] for the start).  A key is found by its hash and [__eq__]. *)
Definition dict : Type := list (State * option State).

(** The state of the search loop. *)
Record loop_state : Type := mkLoop {
  counter : Z;
  closed_list : dict;
  open_list : list entry
}.

(** The loop state [solve] starts the search from. *)
Definition initial_loop (initial_state : State) : loop_state :=
  {| counter := 0; closed_list := [];
     open_list := [ {| e_f := 0; e_g := 0; e_i := 0; e_state := initial_state;
                       e_prev := None |} ] |}.

(** ** The example: the first round of the search on [example_puzzle] *)

Definition example_start : State :=
  {| flat := [1; 2; 0; 3]; moveChar := ""; _hash := 0; _score := 1 |}.

(** The initial state once the loop has looked it up in the closed list. *)
Definition example_active (hash_tuple : list Z -> Z) : State :=
  {| flat := [1; 2; 0; 3]; moveChar := ""; _hash := hash_tuple [1; 2; 0; 3];
     _score := 1 |}.

Definition example_down (hash_tuple : list Z -> Z) : State :=
  {| flat := [0; 2; 1; 3]; moveChar := "D"; _hash := hash_tuple [0; 2; 1; 3];
     _score := 2 |}.

Definition example_left (hash_tuple : list Z -> Z) : State :=
  {| flat := [1; 2; 3; 0]; moveChar := "L"; _hash := hash_tuple [1; 2; 3; 0];
     _score := 0 |}.

(** The loop state after the first round. *)
Definition example_round (hash_tuple : list Z -> Z) : loop_state :=
  {| counter := 2;
     closed_list := [(example_active hash_tuple, None)];
     open_list :=
       [ {| e_f := 1; e_g := 1; e_i := 2; e_state := example_left hash_tuple;
            e_prev := Some (example_active hash_tuple) |};
         {| e_f := 3; e_g := 1; e_i := 1; e_state := example_down hash_tuple;
            e_prev := Some (example_active hash_tuple) |} ] |}.

(** ** A larger example: twenty-five cells and a hash of 63 bits *)









Section Solver.

(** The builtin [hash] on the tuple of a flat sequence and on [None]. *)
Variable hash_tuple : list Z -> Z.
Variable hash_none : Z.

(** [State.__hash__]: the hash and the state with its cache filled. *)
Definition State_hash (self : State) : Z * State :=
  if _hash self =? 0 then
    let h := hash_tuple (flat self) in
    (h, {| flat := flat self; moveChar := moveChar self; _hash := h;
           _score := _score self |})
  else (_hash self, self).

(** [hash(o)] for [o] a state or [None].  The builtin hands on what
    [__hash__] returns, except a [-1], which it turns into [-2], and a
    number beyond the machine word, which it reduces.  What [__hash__]
    returns in a search is a value of [hash] on a tuple, which is neither:
    see [proper_hash]. *)
Definition py_hash (o : option State) : Z :=
  match o with
  | None => hash_none
  | Some s => fst (State_hash s)
  end.

(** The value that [__hash__] returns for [s] is one that the builtin
    [hash] hands on as it is: not [-1], and within the machine word. *)
Definition proper_hash (s : State) : Prop :=
  fst (State_hash s) <> -1 /\ - 2 ^ 63 <= fst (State_hash s) < 2 ^ 63.

(** [State.__eq__] *)
Definition State_eq (self : State) (value : option State) : bool :=
  fst (State_hash self) =? py_hash value.

Definition dict_lookup (d : dict) (key : option State)
  : option (State * option State) :=
  find (fun kv => State_eq (fst kv) key) d.

(** [key in d] *)
Definition dict_contains (d : dict) (key : option State) : bool :=
  match dict_lookup d key with
  | Some _ => true
  | None => false
  end.

(** [d[key]] *)
Definition dict_get (d : dict) (key : option State) : res (option State) :=
  match dict_lookup d key with
  | Some kv => Ret (snd kv)
  | None => Raise KeyError
  end.

(** [d[key] = value] *)
Fixpoint dict_set (d : dict) (key : State) (value : option State) : dict :=
  match d with
  | [] => [(key, value)]
  | (k, v) :: t =>
      if State_eq k (Some key) then (k, value) :: t
      else (k, v) :: dict_set t key value
  end.

(** [state in closed_list], which hashes [state] and so fills its cache. *)
Definition contains (d : dict) (state : State) : bool * State :=
  (dict_contains d (Some state), snd (State_hash state)).

(** The [while] loop of [make_path]. *)
Fixpoint make_path_loop (fuel : nat) (cur : option State) (closed_list : dict)
    (path : list string) : res (list string) :=
  match fuel with
  | O => OutOfFuel
  | S fuel' =>
      if dict_contains closed_list cur then
        match cur with
        | None => Raise AttributeError
        | Some c =>
            next <- dict_get closed_list cur ;;
            make_path_loop fuel' next closed_list (path ++ [moveChar c])
        end
      else Ret path
  end.

(** [make_path].  The loop goes from one entry of the dictionary to the
    next; once it has made more rounds than there are entries it is back at
    an entry it has left before and never ends. *)
Definition make_path (end_ : State) (prev : option State) (closed_list : dict)
  : res (list string) :=
  path <- make_path_loop (S (length closed_list)) prev closed_list [] ;;
  let path := rev path in
  let path := path ++ [moveChar end_] in
  Ret (tl path).

Definition info_for (active prev : State) (width dist i : Z) : res entry :=
  '(h, active) <- score active width ;;
  Ret {| e_f := dist + 1 + h; e_g := dist + 1; e_i := i; e_state := active;
         e_prev := Some prev |}.

(** One of the four blocks of the loop body: clone, move, and push the new
    state unless the closed list has it.  [io] is the counter and the open
    list before the block, the result is the two after it. *)
Definition push_move (width : Z) (closed : dict) (active : State) (dist : Z)
    (char : string) (x y dx dy : Z) (io : Z * list entry)
  : res (Z * list entry) :=
  new <- move (clone active) char x y dx dy width ;;
  let '(seen, new) := contains closed new in
  if seen then Ret io
  else
    let i := fst io + 1 in
    info <- info_for new active width dist i ;;
    Ret (i, heappush (snd io) info).

(** The body of the loop for the popped entry [e]: the next loop state, or
    the value [solve] returns. *)
Definition iteration (width height : Z) (l : loop_state) (e : entry)
    (rest : list entry) : res (loop_state + option (list string)) :=
  let dist := e_g e in
  let prev := e_prev e in
  let '(seen, active) := contains (closed_list l) (e_state e) in
  if seen then
    Ret (inl {| counter := counter l; closed_list := closed_list l;
                open_list := rest |})
  else
    '(h, active) <- score active width ;;
    if h =? 0 then
      path <- make_path active prev (closed_list l) ;;
      Ret (inr (Some path))
    else
      b <- list_index (flat active) 0 ;;
      '(x, y) <- from_index b width ;;
      let closed := closed_list l in
      io <- (if y <? height - 1
             then push_move width closed active dist "U" x y 0 1 (counter l, rest)
             else Ret (counter l, rest)) ;;
      io <- (if y >? 0
             then push_move width closed active dist "D" x y 0 (-1) io
             else Ret io) ;;
      io <- (if x <? width - 1
             then push_move width closed active dist "L" x y 1 0 io
             else Ret io) ;;
      io <- (if x >? 0
             then push_move width closed active dist "R" x y (-1) 0 io
             else Ret io) ;;
      Ret (inl {| counter := fst io;
                  closed_list := dict_set closed active prev;
                  open_list := snd io |}).

(** The [while] loop, at most [fuel] rounds of it. *)
Fixpoint search (fuel : nat) (width height : Z) (l : loop_state)
  : res (option (list string)) :=
  match heappop (open_list l) with
  | None => Ret None
  | Some (e, rest) =>
      match fuel with
      | O => OutOfFuel
      | S fuel' =>
          r <- iteration width height l e rest ;;
          match r with
          | inl l' => search fuel' width height l'
          | inr v => Ret v
          end
      end
  end.

(** [solve]: [None] is Python's [None], the "no solution" result. *)
Definition solve (fuel : nat) (puzzle_data : list (list Z))
  : res (option (list string)) :=
  ok <- is_solvable puzzle_data ;;
  if negb ok then Ret None
  else
    let height := len puzzle_data in
    row0 <- first_row puzzle_data ;;
    let width := len row0 in
    let initial_state := make_state puzzle_data in
    '(h, initial_state) <- score initial_state width ;;
    if h =? 0 then Ret (Some [])
    else search fuel width height (initial_loop initial_state).


(** ** Notions for the proofs *)

(** A step [(dx, dy)] from the cell [(x, y)] that stays on the grid. *)
Definition legal (width height x y dx dy : Z) : Prop :=
  0 <= x + dx < width /\ 0 <= y + dy < height /\ Z.abs dx + Z.abs dy = 1.

(** A flat sequence of a [width] by [height] grid with one blank. *)
Definition grid (width height : Z) (fl : list Z) : Prop :=
  0 < width /\ 0 < height /\ len fl = width * height /\ list_count fl 0 = 1.

(** The state that a block of the loop body pushes for the move [c] that
    leads to the flat sequence [fl]. *)
Definition child_state (width : Z) (c : string) (fl : list Z) : State :=
  {| flat := fl; moveChar := c; _hash := hash_tuple fl;
     _score := manhattan width fl |}.

(** A block of the loop body in terms of [apply_move]. *)
Definition push_child (width height : Z) (closed : dict) (active : State)
    (dist : Z) (io : Z * list entry) (c : string) : Z * list entry :=
  match apply_move width height c (flat active) with
  | None => io
  | Some fl =>
      let new := child_state width c fl in
      if dict_contains closed (Some new) then io
      else (fst io + 1,
            {| e_f := dist + 1 + manhattan width fl; e_g := dist + 1;
               e_i := fst io + 1; e_state := new; e_prev := Some active |}
            :: snd io)
  end.

Definition expand (width height : Z) (closed : dict) (active : State)
    (dist : Z) (io : Z * list entry) : Z * list entry :=
  fold_left (push_child width height closed active dist) ["U"; "D"; "L"; "R"] io.

(** The hash cache of a state is empty or holds the hash of its sequence. *)
Definition hash_ok (s : State) : Prop :=
  _hash s = 0 \/ _hash s = hash_tuple (flat s).

(** The loop states of the search that starts from [initial_state]. *)
Inductive runs (width height : Z) (initial_state : State) : loop_state -> Prop :=
| runs_start : runs width height initial_state (initial_loop initial_state)
| runs_round (l : loop_state) (e : entry) (rest : list entry) (l' : loop_state) :
    runs width height initial_state l ->
    heappop (open_list l) = Some (e, rest) ->
    iteration width height l e rest = Ret (inl l') ->
    runs width height initial_state l'.

(** The loop states of [solve puzzle_data]: the configuration has passed
    the solvability check and is not the solved one. *)
Definition in_solve (puzzle_data : list (list Z)) (l : loop_state) : Prop :=
  exists row0 h0 s0,
    is_solvable puzzle_data = Ret true
    /\ first_row puzzle_data = Ret row0
    /\ score (make_state puzzle_data) (len row0) = Ret (h0, s0)
    /\ (h0 =? 0) = false
    /\ runs (len row0) (len puzzle_data) s0 l.

(** [move] is called on [s] with the arguments [c x y dx dy] in the round
    that the loop makes from [l]: one of the four call sites of the body,
    under its guard. *)
Definition move_call (width height : Z) (l : loop_state) (s : State)
    (c : string) (x y dx dy : Z) : Prop :=
  exists e rest a1 hv active b,
    heappop (open_list l) = Some (e, rest)
    /\ contains (closed_list l) (e_state e) = (false, a1)
    /\ score a1 width = Ret (hv, active)
    /\ (hv =? 0) = false
    /\ list_index (flat active) 0 = Ret b
    /\ from_index b width = Ret (x, y)
    /\ s = clone active
    /\ ((c = "U" /\ dx = 0 /\ dy = 1 /\ (y <? height - 1) = true)
        \/ (c = "D" /\ dx = 0 /\ dy = -1 /\ (y >? 0) = true)
        \/ (c = "L" /\ dx = 1 /\ dy = 0 /\ (x <? width - 1) = true)
        \/ (c = "R" /\ dx = -1 /\ dy = 0 /\ (x >? 0) = true)).

(** The states that a loop state holds: in the entries of the open list,
    as keys and as values of the closed list. *)
Definition opt_list (o : option State) : list State :=
  match o with
  | Some s => [s]
  | None => []
  end.

Definition states_of (l : loop_state) : list State :=
  flat_map (fun e => e_state e :: opt_list (e_prev e)) (open_list l)
  ++ flat_map (fun kv => fst kv :: opt_list (snd kv)) (closed_list l).

(** What holds of every state of a search on a grid that starts from the
    flat sequence [init]. *)
Definition good_state (width height : Z) (init : list Z) (s : State) : Prop :=
  Permutation init (flat s)
  /\ grid width height (flat s)
  /\ _score s = manhattan width (flat s)
  /\ hash_ok s.

(** The first entry of the open list, and the ones [info_for] makes. *)
Definition first_entry (e : entry) : Prop :=
  e_prev e = None /\ e_f e = 0 /\ e_g e = 0 /\ e_i e = 0.

Definition pushed_entry (width : Z) (e : entry) : Prop :=
  e_prev e <> None
  /\ e_f e = e_g e + manhattan width (flat (e_state e))
  /\ 0 < e_i e.

Definition good_entry (width height : Z) (init : list Z) (cnt : Z) (e : entry)
  : Prop :=
  good_state width height init (e_state e)
  /\ (forall p, e_prev e = Some p -> good_state width height init p)
  /\ (exists ms, len ms = e_g e
                 /\ apply_moves width height ms init = Some (flat (e_state e)))
  /\ e_i e <= cnt
  /\ (first_entry e \/ pushed_entry width e).

Definition good_pair (width height : Z) (init : list Z)
    (kv : State * option State) : Prop :=
  good_state width height init (fst kv)
  /\ (forall p, snd kv = Some p -> good_state width height init p).

(** The counter and the open list between two blocks of the loop body. *)
Definition io_inv (width height : Z) (init : list Z) (io : Z * list entry)
  : Prop :=
  0 <= fst io
  /\ Forall (good_entry width height init (fst io)) (snd io)
  /\ NoDup (map e_i (snd io)).

Definition basic_inv (width height : Z) (init : list Z) (l : loop_state) : Prop :=
  0 <= counter l
  /\ Forall (good_entry width height init (counter l)) (open_list l)
  /\ NoDup (map e_i (open_list l))
  /\ Forall (good_pair width height init) (closed_list l).

(** The parity that [is_solvable] tests, on the flat sequence of a grid. *)
Definition parity_even (width height : Z) (fl : list Z) : bool :=
  match blank_index fl with
  | Some b =>
      let inv := inversions (filter (fun v => negb (v =? 0)) fl) in
      if Z.odd width then Z.even inv
      else Z.even (inv + (height - b / width - 1))
  | None => false
  end.

(** ** Notions for the proof of the search *)

(** The builtin hash tells the rearrangements of the initial flat sequence
    apart, and none of them hashes like [None]. *)
Definition collision_free (init : list Z) : Prop :=
  (forall a b, Permutation init a -> Permutation init b ->
               hash_tuple a = hash_tuple b -> a = b)
  /\ (forall a, Permutation init a -> hash_tuple a <> hash_none).

(** The closed list has a key with the flat sequence [fl]. *)
Definition closed_has (closed : dict) (fl : list Z) : Prop :=
  exists kv, In kv closed /\ flat (fst kv) = fl.

(** [trace closed k ms]: following the predecessors of [k] in the closed
    list leads to the start, and [ms] are the moves on the way back. *)
Inductive trace (width height : Z) (init : list Z) (closed : dict)
  : State -> list string -> Prop :=
| trace_start (k : State) :
    In (k, None) closed -> flat k = init ->
    trace width height init closed k []
| trace_move (k p : State) (ms : list string) :
    In (k, Some p) closed ->
    trace width height init closed p ms ->
    apply_move width height (moveChar k) (flat p) = Some (flat k) ->
    trace width height init closed k (ms ++ [moveChar k]).

(** No move sequence from [init] to [fl] is shorter than [g]. *)
Definition optimal (width height : Z) (init fl : list Z) (g : Z) : Prop :=
  forall ms, apply_moves width height ms init = Some fl -> g <= len ms.

Definition closed_ok (width height : Z) (init : list Z) (closed : dict)
    (kv : State * option State) : Prop :=
  manhattan width (flat (fst kv)) <> 0
  /\ exists ms, trace width height init closed (fst kv) ms
                /\ (length ms < length closed)%nat
                /\ optimal width height init (flat (fst kv)) (len ms).

Definition open_ok (width height : Z) (init : list Z) (closed : dict)
    (open : list entry) (e : entry) : Prop :=
  (first_entry e /\ flat (e_state e) = init /\ closed = [] /\ open = [e])
  \/ (pushed_entry width e
      /\ exists p ms,
          e_prev e = Some p
          /\ trace width height init closed p ms
          /\ (length ms < length closed)%nat
          /\ e_g e = len ms + 1
          /\ apply_move width height (moveChar (e_state e)) (flat p)
             = Some (flat (e_state e))).

(** Every neighbour of a closed state is closed or has an entry in the
    open list, one move beyond the closed state at most. *)
Definition frontier_ok (width height : Z) (init : list Z) (closed : dict)
    (open : list entry) (kv : State * option State) : Prop :=
  forall m u,
    apply_move width height m (flat (fst kv)) = Some u ->
    closed_has closed u
    \/ exists e, In e open /\ flat (e_state e) = u /\ pushed_entry width e
                 /\ optimal width height init (flat (fst kv)) (e_g e - 1).

Definition astar_inv (width height : Z) (init : list Z) (l : loop_state)
  : Prop :=
  basic_inv width height init l
  /\ NoDup (map (fun kv => flat (fst kv)) (closed_list l))
  /\ Forall (closed_ok width height init (closed_list l)) (closed_list l)
  /\ Forall (open_ok width height init (closed_list l) (open_list l))
       (open_list l)
  /\ Forall (frontier_ok width height init (closed_list l) (open_list l))
       (closed_list l)
  /\ (closed_has (closed_list l) init
      \/ exists e, open_list l = [e] /\ first_entry e
                   /\ flat (e_state e) = init /\ closed_list l = []).

(** [e] is an entry that the round of [active] pushes. *)
Definition child_entry (width height : Z) (closed : dict) (active : State)
    (dist : Z) (e : entry) : Prop :=
  exists c fl,
    apply_move width height c (flat active) = Some fl
    /\ dict_contains closed (Some (child_state width c fl)) = false
    /\ e_state e = child_state width c fl
    /\ e_prev e = Some active
    /\ e_g e = dist + 1.

(** All lists of [n] elements of [alphabet]: the rearrangements of a flat
    sequence are among those of its length over its elements. *)
Fixpoint words (alphabet : list Z) (n : nat) : list (list Z) :=
  match n with
  | O => [[]]
  | S n' => flat_map (fun t => map (fun a => a :: t) alphabet) (words alphabet n')
  end.

(** Rounds that a search from the loop state [l] can still make. *)
Definition rounds_left (init : list Z) (l : loop_state) : Z :=
  5 * (len (words init (length init)) - len (closed_list l))
  + len (open_list l).

(** ** The loop of [make_path], round by round *)

(** [path_ends closed cur n]: from [cur] the loop of [make_path] makes [n]
    rounds that go on to the next state and then one that ends it, at a
    state that is no key of the closed list or at [None] when it is one
    (which raises). *)
Inductive path_ends (closed : dict) : option State -> nat -> Prop :=
| path_ends_no_key (cur : option State) :
    dict_contains closed cur = false -> path_ends closed cur O
| path_ends_none :
    dict_contains closed None = true -> path_ends closed None O
| path_ends_next (c : State) (next : option State) (n : nat) :
    dict_contains closed (Some c) = true ->
    dict_get closed (Some c) = Ret next ->
    path_ends closed next n ->
    path_ends closed (Some c) (S n).

(** ** Notions for the search with a hash that may collide *)

(** A closed state is not the goal, and its predecessors lead back to the
    start. *)
Definition closed_traced (width height : Z) (init : list Z) (closed : dict)
    (kv : State * option State) : Prop :=
  manhattan width (flat (fst kv)) <> 0
  /\ exists ms, trace width height init closed (fst kv) ms
                /\ (length ms < length closed)%nat.

(** The keys of the closed list have different hashes, every closed state
    and every entry of the open list comes with its way back to the
    start. *)
Definition path_inv (width height : Z) (init : list Z) (l : loop_state)
  : Prop :=
  basic_inv width height init l
  /\ NoDup (map (fun kv => hash_tuple (flat (fst kv))) (closed_list l))
  /\ Forall (closed_traced width height init (closed_list l)) (closed_list l)
  /\ Forall (open_ok width height init (closed_list l) (open_list l))
       (open_list l).

(** What a search may end with when the hash may collide: a move sequence
    to a state of score zero, no solution, or the [AttributeError] of
    [make_path] when a rearrangement hashes like [None]; it is out of fuel
    only when the fuel is no more than the rounds that are left. *)
Definition search_outcome (width height : Z) (init : list Z) (l : loop_state)
    (fuel : nat) (r : res (option (list string))) : Prop :=
  match r with
  | Ret (Some path) =>
      exists fl, apply_moves width height path init = Some fl
                 /\ manhattan width fl = 0
  | Ret None => True
  | Raise e =>
      e = AttributeError
      /\ exists a, Permutation init a /\ hash_tuple a = hash_none
  | OutOfFuel => Z.of_nat fuel <= rounds_left init l
  end.

(** ** Lookups that the hash decides right *)

(** No key of the closed list has the hash of the flat sequence [fl]
    without having that sequence: [state in closed_list], for a state of
    the sequence [fl], is true only if [fl] is closed. *)
Definition lookup_exact (closed : dict) (fl : list Z) : Prop :=
  forall kv, In kv closed ->
             hash_tuple (flat (fst kv)) = hash_tuple fl -> flat (fst kv) = fl.

(** The lookups of the round that the loop makes from [l] are decided
    right: the one of the popped state; when that state is not closed and
    is the goal, the one of [None] at the end of [make_path]; when it is
    not closed and not the goal, the ones of its successors. *)
Definition round_exact (width height : Z) (l : loop_state) : Prop :=
  forall e rest,
    heappop (open_list l) = Some (e, rest) ->
    lookup_exact (closed_list l) (flat (e_state e))
    /\ (dict_contains (closed_list l) (Some (e_state e)) = false ->
        (manhattan width (flat (e_state e)) = 0 ->
         forall kv, In kv (closed_list l) ->
                    hash_tuple (flat (fst kv)) <> hash_none)
        /\ (manhattan width (flat (e_state e)) <> 0 ->
            forall c fl,
              apply_move width height c (flat (e_state e)) = Some fl ->
              lookup_exact (closed_list l) fl)).

(** The run of [solve] on [puzzle_data] meets no collision of the hash:
    every lookup of every round of its loop is decided right. *)
Definition run_exact (puzzle_data : list (list Z)) : Prop :=
  forall l, in_solve puzzle_data l ->
            round_exact (len (hd [] puzzle_data)) (len puzzle_data) l.

(** ** Tactics *)

(** The cases of the tuple order between two entries. *)
Ltac lex_cases a b :=
  destruct (Z.ltb_spec (e_f a) (e_f b)), (Z.eqb_spec (e_f a) (e_f b)),
    (Z.ltb_spec (e_g a) (e_g b)), (Z.eqb_spec (e_g a) (e_g b)),
    (Z.ltb_spec (e_i a) (e_i b)); cbn [orb andb] in *; try discriminate;
    try lia.

(** The paths through a monadic body [H] that do not raise. *)
Ltac step_through H :=
  repeat (match type of H with
          | context [match ?p with pair _ _ => _ end] => destruct p
          | context [bind ?m _] => destruct m; cbn [bind] in H
          | context [if ?c then _ else _] => destruct c
          end; try discriminate).

(** * Properties *)

(** ** Counting inversions *)

Lemma inner_loop_smaller_after (x : Z) (suf pre : list Z) (acc : Z) :
  fold_left
    (fun inversions j =>
       if nth j (pre ++ suf) 0 <? x then inversions + 1 else inversions)
    (seq (length pre) (length suf)) acc
  = acc + smaller_after x suf.
Proof.
  revert pre acc.
  induction suf as [|y t IH]; intros pre acc; simpl.
  - lia.
  - rewrite app_nth2 by lia. rewrite Nat.sub_diag. simpl.
    specialize (IH (pre ++ [y])).
    rewrite <- app_assoc in IH. simpl in IH.
    rewrite length_app in IH. simpl in IH.
    rewrite Nat.add_1_r in IH. rewrite IH.
    destruct (y <? x); lia.
Qed.

Lemma outer_loop_inversions (suf pre : list Z) (acc : Z) :
  fold_left
    (fun inversions i =>
       fold_left
         (fun inversions j =>
            if nth j (pre ++ suf) 0 <? nth i (pre ++ suf) 0
            then inversions + 1 else inversions)
         (seq i (length (pre ++ suf) - i)) inversions)
    (seq (length pre) (length suf)) acc
  = acc + inversions suf.
Proof.
  revert pre acc.
  induction suf as [|x t IH]; intros pre acc.
  - simpl. lia.
  - cbn [length seq fold_left].
    replace (length (pre ++ x :: t) - length pre)%nat with (length (x :: t))
      by (rewrite length_app; lia).
    rewrite inner_loop_smaller_after.
    rewrite app_nth2 by lia. rewrite Nat.sub_diag.
    cbn [nth smaller_after].
    specialize (IH (pre ++ [x]) (acc + smaller_after x t)).
    rewrite <- app_assoc in IH. cbn [app] in IH.
    replace (length (pre ++ [x])) with (S (length pre)) in IH
      by (rewrite length_app; simpl; lia).
    rewrite Z.ltb_irrefl. cbn [inversions]. rewrite Z.add_0_l.
    rewrite IH. lia.
Qed.

Lemma count_inversions_inversions (l : list Z) :
  count_inversions l = inversions l.
Proof.
  unfold count_inversions.
  exact (outer_loop_inversions l [] 0).
Qed.

Lemma filter_prod_length {A B : Type} (f : A * B -> bool) (la : list A) (lb : list B) :
  length (filter f (list_prod la lb))
  = list_sum (map (fun a => length (filter (fun b => f (a, b)) lb)) la).
Proof.
  induction la as [|a la IH]; simpl; [reflexivity|].
  rewrite filter_app, length_app, IH. f_equal.
  clear IH. induction lb as [|b lb IH]; simpl; [reflexivity|].
  destruct (f (a, b)); simpl; rewrite IH; reflexivity.
Qed.

Lemma filter_seq_shift_length (f : nat -> bool) (n s : nat) :
  length (filter f (seq (S s) n))
  = length (filter (fun b => f (S b)) (seq s n)).
Proof.
  revert s. induction n as [|n IH]; intro s; simpl; [reflexivity|].
  destruct (f (S s)); simpl; rewrite IH; reflexivity.
Qed.

Lemma smaller_after_filter (x : Z) (t : list Z) :
  Z.of_nat (length (filter (fun b => nth b t 0 <? x) (seq 0 (length t))))
  = smaller_after x t.
Proof.
  induction t as [|y t IH]; [reflexivity|].
  cbn [length seq filter nth smaller_after].
  rewrite <- IH.
  destruct (y <? x); cbn [length]; rewrite filter_seq_shift_length;
    cbn [nth]; lia.
Qed.

Lemma inversion_count_cons (x : Z) (t : list Z) :
  inversion_count (x :: t) = smaller_after x t + inversion_count t.
Proof.
  unfold inversion_count, inversion_pairs, len.
  rewrite !filter_prod_length.
  cbn [length seq map].
  change (list_sum (?a :: ?l)) with (a + list_sum l)%nat.
  rewrite Nat2Z.inj_add. f_equal.
  - unfold is_inversion at 1. cbn [fst snd]. cbn [Nat.ltb Nat.leb andb filter].
    rewrite filter_seq_shift_length.
    rewrite <- smaller_after_filter. reflexivity.
  - rewrite <- seq_shift, map_map.
    do 2 f_equal. apply map_ext. intro a.
    unfold is_inversion at 1. cbn [fst snd]. cbn [Nat.ltb Nat.leb andb filter].
    rewrite seq_shift, filter_seq_shift_length. reflexivity.
Qed.

Lemma inversion_count_inversions (l : list Z) :
  inversion_count l = inversions l.
Proof.
  induction l as [|x t IH]; [reflexivity|].
  rewrite inversion_count_cons, IH. reflexivity.
Qed.

(** ** Removing the blank, finding its row *)

Lemma list_count_nonneg (l : list Z) (x : Z) : 0 <= list_count l x.
Proof.
  induction l as [|y t IH]; simpl; [lia|]. destruct (y =? x); lia.
Qed.

Lemma list_count_zero_filter (l : list Z) :
  list_count l 0 = 0 -> filter (fun v => negb (v =? 0)) l = l.
Proof.
  induction l as [|y t IH]; simpl; intro H; [reflexivity|].
  pose proof (list_count_nonneg t 0).
  destruct (y =? 0); simpl; [lia|]. rewrite IH by lia. reflexivity.
Qed.

Lemma list_remove_blank (l : list Z) :
  list_count l 0 = 1 ->
  list_remove l 0 = Ret (filter (fun v => negb (v =? 0)) l).
Proof.
  induction l as [|y t IH]; simpl; intro H; [discriminate|].
  destruct (y =? 0); simpl.
  - rewrite list_count_zero_filter by lia. reflexivity.
  - rewrite IH by lia. reflexivity.
Qed.

Lemma list_count_app (a b : list Z) (x : Z) :
  list_count (a ++ b) x = list_count a x + list_count b x.
Proof.
  induction a as [|y t IH]; simpl; [reflexivity|]. rewrite IH. lia.
Qed.

Lemma list_count_In (l : list Z) (x : Z) : In x l <-> 0 < list_count l x.
Proof.
  induction l as [|y t IH]; simpl.
  - split; [tauto | lia].
  - pose proof (list_count_nonneg t x).
    destruct (Z.eqb_spec y x) as [E|E].
    + split; [lia | auto].
    + rewrite IH. split; [intros [H1|H1]; [contradiction | lia] | intro; right; lia].
Qed.

Lemma find_blank_row_unique (p : list (list Z)) (r : nat) (i : Z) :
  list_count (concat p) 0 = 1 ->
  row_index_of_blank p r ->
  find_blank_row p i = i + Z.of_nat r.
Proof.
  revert r i. induction p as [|row rest IH]; intros r i Hc [rw [Hn Hin]].
  - destruct r; discriminate.
  - simpl in Hc. rewrite list_count_app in Hc.
    pose proof (list_count_nonneg row 0).
    pose proof (list_count_nonneg (concat rest) 0).
    simpl. destruct r as [|r]; simpl in Hn.
    + injection Hn as ->. apply list_count_In in Hin.
      destruct (Z.gtb_spec (list_count rw 0) 0); lia.
    + assert (Hr : 0 < list_count (concat rest) 0).
      { apply list_count_In. apply in_concat. exists rw. split; [|exact Hin].
        eapply nth_error_In; eassumption. }
      destruct (Z.gtb_spec (list_count row 0) 0); [lia|].
      rewrite (IH r (i + 1)); [lia | lia | exists rw; auto].
Qed.

(** ** Valid configurations *)

Lemma valid_configuration_facts (p : list (list Z)) :
  valid_configuration p = true ->
  (exists row0 rest, p = row0 :: rest /\ (1 <= length row0)%nat)
  /\ Forall (fun row => length row = width_of p) p
  /\ (forall k, (k < length (flatten p))%nat ->
                list_count (flatten p) (Z.of_nat k) = 1).
Proof.
  unfold valid_configuration. intro H.
  apply andb_prop in H. destruct H as [H H4].
  apply andb_prop in H. destruct H as [H H3].
  apply andb_prop in H. destruct H as [H1 H2].
  apply Nat.leb_le in H1. apply Nat.leb_le in H2.
  split; [|split].
  - destruct p as [|row0 rest]; [simpl in H1; lia|].
    exists row0, rest. split; [reflexivity | exact H2].
  - rewrite forallb_forall in H3. apply Forall_forall. intros row Hin.
    apply Nat.eqb_eq. apply H3. exact Hin.
  - intros k Hk. rewrite forallb_forall in H4.
    apply Z.eqb_eq. apply (H4 k). apply in_seq. lia.
Qed.

Lemma valid_configuration_one_blank (p : list (list Z)) :
  valid_configuration p = true -> list_count (flatten p) 0 = 1.
Proof.
  intro H. destruct (valid_configuration_facts p H) as [[row0 [rest [-> Hw]]] [_ Hc]].
  apply (Hc 0%nat). unfold flatten. simpl. rewrite length_app. lia.
Qed.

Lemma mod2_even (a : Z) : (a mod 2 =? 0) = Z.even a.
Proof. rewrite Zmod_even. destruct (Z.even a); reflexivity. Qed.

Lemma mod2_odd (a : Z) : (a mod 2 =? 1) = Z.odd a.
Proof. rewrite Zmod_odd. destruct (Z.odd a); reflexivity. Qed.

(** What [is_solvable] returns on a configuration with one blank, in row
    [r]: the parity of the inversions, to which an even width adds the
    distance of that row from the bottom. *)
Lemma is_solvable_value (p : list (list Z)) (r : nat) :
  list_count (flatten p) 0 = 1 ->
  row_index_of_blank p r ->
  is_solvable p
  = Ret (if Z.odd (len (hd [] p))
         then Z.even (inversions (blank_removed p))
         else Z.even (inversions (blank_removed p) + (len p - Z.of_nat r - 1))).
Proof.
  intros Hc Hr. unfold is_solvable.
  rewrite (list_remove_blank _ Hc). cbn [bind].
  destruct p as [|row0 rest].
  - destruct Hr as [rw [Hn _]]. destruct r; discriminate.
  - cbn [first_row bind hd]. rewrite mod2_odd, !mod2_even.
    rewrite count_inversions_inversions.
    rewrite (find_blank_row_unique _ r 0 Hc Hr). rewrite Z.add_0_l.
    destruct (Z.odd (len row0)); reflexivity.
Qed.

(** C3: on a valid configuration whose blank is in row [r], [is_solvable]
    returns, and it returns true exactly when the parity rule holds: for an
    odd width the inversion count of the flattening without the blank is
    even, for an even width the inversion count plus
    [height - 1 - r] is even. *)
Theorem is_solvable_parity_rule (puzzle_data : list (list Z)) (r : nat) :
  valid_configuration puzzle_data = true ->
  row_index_of_blank puzzle_data r ->
  exists b, is_solvable puzzle_data = Ret b
            /\ (b = true <-> parity_rule puzzle_data r).
Proof.
  intros Hv Hr.
  rewrite (is_solvable_value _ r (valid_configuration_one_blank _ Hv) Hr).
  eexists. split; [reflexivity|].
  unfold parity_rule. cbv zeta. rewrite inversion_count_inversions.
  set (w := len (hd [] puzzle_data)).
  set (inv := inversions (blank_removed puzzle_data)).
  replace (len puzzle_data - 1 - Z.of_nat r)
    with (len puzzle_data - Z.of_nat r - 1) by lia.
  destruct (Z.odd w) eqn:Ew.
  - rewrite Z.even_spec. split.
    + intro H. split; [intros _; exact H|].
      intro He. apply Z.even_spec in He. rewrite <- Z.negb_odd, Ew in He.
      discriminate.
    + intros [H _]. apply H. apply Z.odd_spec. exact Ew.
  - rewrite Z.even_spec. split.
    + intro H. split; [|intros _; exact H].
      intro Ho. apply Z.odd_spec in Ho. congruence.
    + intros [_ H]. apply H. apply Z.even_spec. rewrite <- Z.negb_odd, Ew.
      reflexivity.
Qed.

(** ** Lists: [update], counting, the blank *)

Lemma update_length (l : list Z) (n : nat) (v : Z) :
  length (update l n v) = length l.
Proof.
  revert n. induction l as [|x t IH]; intros [|n]; simpl; auto.
Qed.

Lemma nth_update_same (l : list Z) (n : nat) (v : Z) :
  (n < length l)%nat -> nth n (update l n v) 0 = v.
Proof.
  revert n. induction l as [|x t IH]; intros [|n]; simpl; intro H;
    try lia; auto. apply IH. lia.
Qed.

Lemma nth_update_other (l : list Z) (n m : nat) (v : Z) :
  n <> m -> nth m (update l n v) 0 = nth m l 0.
Proof.
  revert n m. induction l as [|x t IH]; intros [|n] [|m]; simpl; intro H;
    try congruence; auto.
Qed.

Lemma list_count_update (l : list Z) (n : nat) (v x : Z) :
  (n < length l)%nat ->
  list_count (update l n v) x
  = list_count l x - (if nth n l 0 =? x then 1 else 0) + (if v =? x then 1 else 0).
Proof.
  revert n. induction l as [|y t IH]; intros [|n]; simpl; intro H; try lia.
  rewrite IH by lia. lia.
Qed.

Lemma list_count_count_occ (l : list Z) (x : Z) :
  list_count l x = Z.of_nat (count_occ Z.eq_dec l x).
Proof.
  induction l as [|y t IH]; simpl; [reflexivity|].
  destruct (Z.eqb_spec y x) as [E|E]; destruct (Z.eq_dec y x); try contradiction; lia.
Qed.

Lemma same_counts_Permutation (a b : list Z) :
  (forall x, list_count a x = list_count b x) <-> Permutation a b.
Proof.
  rewrite (Permutation_count_occ Z.eq_dec). split; intros H x; specialize (H x).
  - rewrite !list_count_count_occ in H. lia.
  - rewrite !list_count_count_occ. lia.
Qed.

Lemma swap_blank_length (fl : list Z) (b t : Z) :
  length (swap_blank fl b t) = length fl.
Proof. unfold swap_blank. rewrite !update_length. reflexivity. Qed.

Lemma swap_blank_Permutation (fl : list Z) (b t : Z) :
  0 <= b < len fl -> 0 <= t < len fl -> nth (Z.to_nat b) fl 0 = 0 ->
  Permutation fl (swap_blank fl b t).
Proof.
  unfold len. intros Hb Ht H0. apply same_counts_Permutation. intro x.
  unfold swap_blank.
  rewrite list_count_update by (rewrite update_length; lia).
  rewrite list_count_update by lia.
  rewrite H0.
  destruct (Z.eq_dec b t) as [->|Hbt].
  - rewrite nth_update_same by lia. lia.
  - rewrite nth_update_other by lia. lia.
Qed.

Lemma blank_index_range (fl : list Z) (b : Z) :
  blank_index fl = Some b ->
  0 <= b < len fl /\ nth (Z.to_nat b) fl 0 = 0.
Proof.
  unfold len. revert b. induction fl as [|v t IH]; simpl; intros b H; [discriminate|].
  destruct (Z.eqb_spec v 0) as [E|E].
  - injection H as <-. simpl. split; [lia | exact E].
  - destruct (blank_index t) as [i|]; [|discriminate].
    injection H as <-. destruct (IH i eq_refl) as [Hr Hn].
    split; [lia|].
    replace (Z.to_nat (i + 1)) with (S (Z.to_nat i)) by lia. exact Hn.
Qed.

Lemma list_index_blank_index (fl : list Z) :
  list_index fl 0
  = match blank_index fl with Some b => Ret b | None => Raise ValueError end.
Proof.
  induction fl as [|v t IH]; simpl; [reflexivity|].
  destruct (v =? 0); [reflexivity|].
  rewrite IH. destruct (blank_index t); reflexivity.
Qed.

Lemma blank_index_exists (fl : list Z) :
  0 < list_count fl 0 -> exists b, blank_index fl = Some b.
Proof.
  induction fl as [|v t IH]; simpl; intro H; [lia|].
  destruct (v =? 0); [eauto|].
  destruct IH as [b Hb]; [lia|]. rewrite Hb. eauto.
Qed.

(** With one blank, any cell that holds [0] is the blank's. *)
Lemma one_blank_unique (fl : list Z) (b : Z) (k : nat) :
  list_count fl 0 = 1 -> blank_index fl = Some b ->
  (k < length fl)%nat -> nth k fl 0 = 0 -> k = Z.to_nat b.
Proof.
  revert b k. induction fl as [|v t IH]; simpl; intros b k Hc Hb Hk Hn; [lia|].
  pose proof (list_count_nonneg t 0) as Hnn.
  destruct (Z.eqb_spec v 0) as [E|E].
  - injection Hb as <-. destruct k as [|k]; [reflexivity|].
    exfalso. assert (Hin : In 0 t).
    { rewrite <- Hn. apply nth_In. lia. }
    apply list_count_In in Hin. lia.
  - destruct (blank_index t) as [i|] eqn:Ei; [|discriminate].
    injection Hb as <-. destruct k as [|k]; [contradiction|].
    rewrite (IH i k); [ | lia | reflexivity | lia | exact Hn].
    pose proof (blank_index_range t i Ei). lia.
Qed.

(** ** The heuristic score *)

Lemma tile_distance_nonneg (w v i : Z) : 0 <= tile_distance w v i.
Proof. unfold tile_distance. lia. Qed.

Lemma cell_cost_nonneg (w v i : Z) : 0 <= cell_cost w v i.
Proof.
  unfold cell_cost. pose proof (tile_distance_nonneg w v i).
  destruct (v =? 0); lia.
Qed.

Lemma manhattan_from_nonneg (w : Z) (l : list Z) (i : Z) :
  0 <= manhattan_from w i l.
Proof.
  revert i. induction l as [|v t IH]; intro i; simpl; [lia|].
  pose proof (cell_cost_nonneg w v i). specialize (IH (i + 1)). lia.
Qed.

Lemma manhattan_nonneg (w : Z) (l : list Z) : 0 <= manhattan w l.
Proof. apply manhattan_from_nonneg. Qed.

(** The loop of [score] computes the Manhattan sum of the specification. *)
Lemma score_loop_manhattan (w : Z) (cells : list Z) (i acc : Z) :
  w <> 0 ->
  score_loop w cells i acc = Ret (acc + manhattan_from w i cells).
Proof.
  intro Hw. revert i acc.
  induction cells as [|v t IH]; intros i acc; simpl.
  - f_equal. lia.
  - unfold cell_cost, tile_distance.
    destruct (v =? 0).
    + rewrite IH. f_equal; lia.
    + destruct (Z.eqb_spec w 0) as [E|_]; [contradiction|].
      rewrite IH. f_equal; lia.
Qed.

Lemma manhattan_from_update (w : Z) (l : list Z) (k : nat) (v i : Z) :
  (k < length l)%nat ->
  manhattan_from w i (update l k v)
  = manhattan_from w i l
    - cell_cost w (nth k l 0) (i + Z.of_nat k)
    + cell_cost w v (i + Z.of_nat k).
Proof.
  revert k i. induction l as [|x t IH]; intros [|k] i; simpl; intro H; try lia.
  - rewrite Z.add_0_r. lia.
  - rewrite IH by lia.
    replace (i + 1 + Z.of_nat k) with (i + Z.pos (Pos.of_succ_nat k)) by lia.
    lia.
Qed.

(** Sliding the tile at [t] into the blank at [b] changes only that tile's
    term of the sum. *)
Lemma manhattan_swap_blank (w : Z) (fl : list Z) (b t : Z) :
  0 <= b < len fl -> 0 <= t < len fl -> b <> t ->
  nth (Z.to_nat b) fl 0 = 0 -> nth (Z.to_nat t) fl 0 <> 0 ->
  manhattan w (swap_blank fl b t)
  = manhattan w fl
    - tile_distance w (nth (Z.to_nat t) fl 0) t
    + tile_distance w (nth (Z.to_nat t) fl 0) b.
Proof.
  unfold len, manhattan, swap_blank. intros Hb Ht Hbt H0 Hi.
  rewrite manhattan_from_update by (rewrite update_length; lia).
  rewrite manhattan_from_update by lia.
  rewrite nth_update_other by lia.
  rewrite H0. rewrite !Z.add_0_l, !Z2Nat.id by lia.
  unfold cell_cost. rewrite Z.eqb_refl.
  destruct (Z.eqb_spec (nth (Z.to_nat t) fl 0) 0) as [E|_]; [contradiction|].
  lia.
Qed.

(** ** Geometry of the grid *)

Lemma index_from_index (w b : Z) : w <> 0 -> index (b mod w) (b / w) w = b.
Proof.
  intro Hw. unfold index. pose proof (Z.div_mod b w Hw). lia.
Qed.

Lemma blank_coordinates (w h b : Z) :
  0 < w -> 0 <= b < w * h ->
  0 <= b mod w < w /\ 0 <= b / w < h.
Proof.
  intros Hw Hb. split.
  - apply Z.mod_pos_bound. exact Hw.
  - split.
    + apply Z.div_pos; lia.
    + apply Z.div_lt_upper_bound; lia.
Qed.

Lemma index_div_mod (w x y : Z) :
  0 <= x < w -> index x y w mod w = x /\ index x y w / w = y.
Proof.
  intro Hx. unfold index. split.
  - symmetry. apply (Z.mod_unique _ _ y); lia.
  - symmetry. apply (Z.div_unique _ _ _ x); lia.
Qed.

Lemma legal_index_range (w h x y dx dy : Z) :
  0 < w -> legal w h x y dx dy ->
  0 <= index (x + dx) (y + dy) w < w * h.
Proof.
  unfold legal, index. intros Hw [Hx [Hy _]]. split; nia.
Qed.

Lemma legal_index_other (w h x y dx dy : Z) :
  0 < w -> 0 <= x < w -> legal w h x y dx dy ->
  index x y w <> index (x + dx) (y + dy) w.
Proof.
  unfold legal. intros Hw Hx [Hx' [Hy' Hd]] E.
  destruct (index_div_mod w x y Hx) as [E1 E2].
  destruct (index_div_mod w (x + dx) (y + dy) Hx') as [E3 E4].
  rewrite <- E in E3, E4. lia.
Qed.

(** The tile's term changes by one when it slides to a neighbouring cell. *)
Lemma tile_distance_step (w h v x y dx dy : Z) :
  0 < w -> 0 <= x < w -> legal w h x y dx dy ->
  Z.abs (tile_distance w v (index (x + dx) (y + dy) w)
         - tile_distance w v (index x y w)) <= 1.
Proof.
  unfold legal. intros Hw Hx [Hx' [Hy' Hd]].
  unfold tile_distance.
  destruct (index_div_mod w x y Hx) as [-> ->].
  destruct (index_div_mod w (x + dx) (y + dy) Hx') as [-> ->].
  lia.
Qed.

(** ** [State.move] on a grid *)

Lemma py_get_in_range (l : list Z) (i : Z) :
  0 <= i < len l -> py_get l i = Ret (nth (Z.to_nat i) l 0).
Proof.
  intro H. unfold py_get.
  destruct (Z.leb_spec 0 i); [|lia]. destruct (Z.ltb_spec i (len l)); [|lia].
  reflexivity.
Qed.

Lemma py_set_in_range (l : list Z) (i v : Z) :
  0 <= i < len l -> py_set l i v = Ret (update l (Z.to_nat i) v).
Proof.
  intro H. unfold py_set.
  destruct (Z.leb_spec 0 i); [|lia]. destruct (Z.ltb_spec i (len l)); [|lia].
  reflexivity.
Qed.

Lemma len_update (l : list Z) (n : nat) (v : Z) : len (update l n v) = len l.
Proof. unfold len. rewrite update_length. reflexivity. Qed.

(** The tile next to the blank is a tile. *)
Lemma neighbour_is_tile (w h : Z) (fl : list Z) (b t : Z) :
  grid w h fl -> blank_index fl = Some b -> 0 <= t < w * h -> b <> t ->
  nth (Z.to_nat t) fl 0 <> 0.
Proof.
  intros [Hw [Hh [Hl Hc]]] Hb Ht Hbt E.
  pose proof (blank_index_range fl b Hb) as [Hr _].
  assert (Z.to_nat t = Z.to_nat b).
  { apply (one_blank_unique fl b); auto. unfold len in Hl. lia. }
  lia.
Qed.

Lemma move_legal (w h : Z) (s : State) (c : string) (b dx dy : Z) :
  grid w h (flat s) -> blank_index (flat s) = Some b ->
  legal w h (b mod w) (b / w) dx dy ->
  let t := index (b mod w + dx) (b / w + dy) w in
  let item := nth (Z.to_nat t) (flat s) 0 in
  move s c (b mod w) (b / w) dx dy w
  = Ret {| flat := swap_blank (flat s) b t; moveChar := c; _hash := 0;
           _score := _score s - tile_distance w item t + tile_distance w item b |}.
Proof.
  intros Hg Hb Hl t item.
  pose proof Hg as [Hw [Hh [Hlen Hc]]].
  pose proof (blank_index_range _ _ Hb) as [Hbr Hb0].
  pose proof (legal_index_range w h _ _ dx dy Hw Hl) as Ht. fold t in Ht.
  unfold move.
  rewrite index_from_index by lia. fold t.
  rewrite py_get_in_range by lia. cbn [bind]. fold item.
  destruct (Z.eqb_spec w 0) as [E|_]; [lia|].
  rewrite py_set_in_range by lia. cbn [bind].
  rewrite py_set_in_range by (rewrite len_update; lia). cbn [bind].
  unfold swap_blank, tile_distance. fold item.
  do 2 f_equal. lia.
Qed.

(** The score that [move] leaves is the Manhattan sum of the new sequence
    when the score before was that of the old one. *)
Lemma move_legal_score (w h : Z) (s : State) (b dx dy : Z) :
  grid w h (flat s) -> blank_index (flat s) = Some b ->
  legal w h (b mod w) (b / w) dx dy ->
  let t := index (b mod w + dx) (b / w + dy) w in
  let item := nth (Z.to_nat t) (flat s) 0 in
  manhattan w (swap_blank (flat s) b t)
  = manhattan w (flat s) - tile_distance w item t + tile_distance w item b.
Proof.
  intros Hg Hb Hl t item.
  pose proof Hg as [Hw [Hh [Hlen Hc]]].
  pose proof (blank_index_range _ _ Hb) as [Hbr Hb0].
  pose proof (legal_index_range w h _ _ dx dy Hw Hl) as Ht. fold t in Ht.
  assert (Hbt : b <> t).
  { rewrite <- (index_from_index w b) at 1 by lia.
    apply (legal_index_other w h); auto.
    apply Z.mod_pos_bound; lia. }
  apply manhattan_swap_blank; try lia.
  apply (neighbour_is_tile w h (flat s) b); auto.
Qed.

(** ** The four moves of the specification and the guards of the loop *)

Lemma apply_move_U (w h : Z) (fl : list Z) (b : Z) :
  blank_index fl = Some b ->
  apply_move w h "U" fl
  = if b / w <? h - 1
    then Some (swap_blank fl b (index (b mod w + 0) (b / w + 1) w)) else None.
Proof.
  intro Hb. unfold apply_move. rewrite Hb. unfold moved_cell. cbn [String.eqb Ascii.eqb Bool.eqb].
  destruct (b / w <? h - 1); [|reflexivity].
  unfold cell, index. rewrite Z.add_0_r. reflexivity.
Qed.

Lemma apply_move_D (w h : Z) (fl : list Z) (b : Z) :
  blank_index fl = Some b ->
  apply_move w h "D" fl
  = if b / w >? 0
    then Some (swap_blank fl b (index (b mod w + 0) (b / w + -1) w)) else None.
Proof.
  intro Hb. unfold apply_move. rewrite Hb. unfold moved_cell. cbn [String.eqb Ascii.eqb Bool.eqb].
  rewrite Z.gtb_ltb.
  destruct (0 <? b / w); [|reflexivity].
  unfold cell, index. rewrite Z.add_0_r. reflexivity.
Qed.

Lemma apply_move_L (w h : Z) (fl : list Z) (b : Z) :
  blank_index fl = Some b ->
  apply_move w h "L" fl
  = if b mod w <? w - 1
    then Some (swap_blank fl b (index (b mod w + 1) (b / w + 0) w)) else None.
Proof.
  intro Hb. unfold apply_move. rewrite Hb. unfold moved_cell. cbn [String.eqb Ascii.eqb Bool.eqb].
  destruct (b mod w <? w - 1); [|reflexivity].
  unfold cell, index. rewrite Z.add_0_r. reflexivity.
Qed.

Lemma apply_move_R (w h : Z) (fl : list Z) (b : Z) :
  blank_index fl = Some b ->
  apply_move w h "R" fl
  = if b mod w >? 0
    then Some (swap_blank fl b (index (b mod w + -1) (b / w + 0) w)) else None.
Proof.
  intro Hb. unfold apply_move. rewrite Hb. unfold moved_cell. cbn [String.eqb Ascii.eqb Bool.eqb].
  rewrite Z.gtb_ltb.
  destruct (0 <? b mod w); [|reflexivity].
  unfold cell, index. rewrite Z.add_0_r. reflexivity.
Qed.

Lemma apply_move_char (w h : Z) (c : string) (fl fl' : list Z) :
  apply_move w h c fl = Some fl' ->
  c = "U" \/ c = "D" \/ c = "L" \/ c = "R".
Proof.
  unfold apply_move, moved_cell. intro H.
  destruct (blank_index fl); [|discriminate].
  destruct (String.eqb_spec c "U"); [auto|].
  destruct (String.eqb_spec c "D"); [auto|].
  destruct (String.eqb_spec c "L"); [auto|].
  destruct (String.eqb_spec c "R"); [auto|].
  discriminate.
Qed.

(** Every move of the specification is a legal step of the blank. *)
Lemma apply_move_legal (w h : Z) (c : string) (fl fl' : list Z) :
  grid w h fl -> apply_move w h c fl = Some fl' ->
  exists b dx dy,
    blank_index fl = Some b
    /\ legal w h (b mod w) (b / w) dx dy
    /\ fl' = swap_blank fl b (index (b mod w + dx) (b / w + dy) w).
Proof.
  intros Hg H.
  pose proof Hg as [Hw [Hh [Hlen Hc]]].
  destruct (blank_index_exists fl) as [b Hb]; [lia|].
  pose proof (blank_index_range _ _ Hb) as [Hbr _].
  destruct (blank_coordinates w h b Hw) as [Hx Hy]; [lia|].
  exists b.
  destruct (apply_move_char _ _ _ _ _ H) as [ -> | [ -> | [ -> | -> ] ] ].
  - rewrite (apply_move_U _ _ _ _ Hb) in H.
    destruct (Z.ltb_spec (b / w) (h - 1)); [|discriminate].
    injection H as <-. exists 0, 1. unfold legal. repeat split; auto; lia.
  - rewrite (apply_move_D _ _ _ _ Hb) in H.
    destruct (Z.gtb_spec (b / w) 0); [|discriminate].
    injection H as <-. exists 0, (-1). unfold legal. repeat split; auto; lia.
  - rewrite (apply_move_L _ _ _ _ Hb) in H.
    destruct (Z.ltb_spec (b mod w) (w - 1)); [|discriminate].
    injection H as <-. exists 1, 0. unfold legal. repeat split; auto; lia.
  - rewrite (apply_move_R _ _ _ _ Hb) in H.
    destruct (Z.gtb_spec (b mod w) 0); [|discriminate].
    injection H as <-. exists (-1), 0. unfold legal. repeat split; auto; lia.
Qed.

Lemma swap_blank_grid (w h : Z) (fl : list Z) (b dx dy : Z) :
  grid w h fl -> blank_index fl = Some b ->
  legal w h (b mod w) (b / w) dx dy ->
  Permutation fl (swap_blank fl b (index (b mod w + dx) (b / w + dy) w))
  /\ grid w h (swap_blank fl b (index (b mod w + dx) (b / w + dy) w)).
Proof.
  intros Hg Hb Hl.
  pose proof Hg as [Hw [Hh [Hlen Hc]]].
  pose proof (blank_index_range _ _ Hb) as [Hbr Hb0].
  pose proof (legal_index_range w h _ _ dx dy Hw Hl) as Ht.
  assert (HP : Permutation fl (swap_blank fl b (index (b mod w + dx) (b / w + dy) w))).
  { apply swap_blank_Permutation; auto; lia. }
  split; [exact HP|].
  unfold grid. repeat split; auto.
  - unfold len. rewrite swap_blank_length. exact Hlen.
  - apply same_counts_Permutation with (x := 0) in HP. lia.
Qed.

Lemma apply_move_grid (w h : Z) (c : string) (fl fl' : list Z) :
  grid w h fl -> apply_move w h c fl = Some fl' ->
  Permutation fl fl' /\ grid w h fl'.
Proof.
  intros Hg H.
  destruct (apply_move_legal _ _ _ _ _ Hg H) as [b [dx [dy [Hb [Hl ->]]]]].
  apply swap_blank_grid; auto.
Qed.

(** The heuristic changes by at most one along a move. *)
Lemma apply_move_manhattan (w h : Z) (c : string) (fl fl' : list Z) :
  grid w h fl -> apply_move w h c fl = Some fl' ->
  Z.abs (manhattan w fl' - manhattan w fl) <= 1.
Proof.
  intros Hg H.
  destruct (apply_move_legal _ _ _ _ _ Hg H) as [b [dx [dy [Hb [Hl ->]]]]].
  pose proof Hg as [Hw [Hh [Hlen Hc]]].
  pose proof (blank_index_range _ _ Hb) as [Hbr _].
  destruct (blank_coordinates w h b Hw) as [Hx Hy]; [lia|].
  pose proof (move_legal_score w h (mkState fl "" 0 0) b dx dy Hg Hb Hl) as E.
  cbn [flat] in E. cbv zeta in E. rewrite E.
  pose proof (tile_distance_step w h
                (nth (Z.to_nat (index (b mod w + dx) (b / w + dy) w)) fl 0)
                (b mod w) (b / w) dx dy Hw Hx Hl) as Hs.
  rewrite index_from_index in Hs by lia. lia.
Qed.

(** ** Hashing and the dictionary *)

Lemma State_hash_fst (s : State) :
  hash_ok s -> fst (State_hash s) = hash_tuple (flat s).
Proof.
  unfold hash_ok, State_hash. intros [H|H];
    destruct (Z.eqb_spec (_hash s) 0); simpl; congruence.
Qed.

Lemma State_hash_snd (s : State) :
  hash_ok s ->
  snd (State_hash s)
  = {| flat := flat s; moveChar := moveChar s; _hash := hash_tuple (flat s);
       _score := _score s |}.
Proof.
  unfold hash_ok, State_hash. intros [H|H];
    destruct (Z.eqb_spec (_hash s) 0); simpl; try reflexivity; try congruence.
  destruct s; simpl in *; congruence.
Qed.

Lemma child_state_hash_ok (w : Z) (c : string) (fl : list Z) :
  hash_ok (child_state w c fl).
Proof. right. reflexivity. Qed.

Lemma dict_lookup_hash (d : dict) (k1 k2 : option State) :
  py_hash k1 = py_hash k2 -> dict_lookup d k1 = dict_lookup d k2.
Proof.
  intro H. unfold dict_lookup.
  induction d as [|kv d IH]; simpl; [reflexivity|].
  unfold State_eq at 1 3. rewrite H, IH. reflexivity.
Qed.

Lemma dict_contains_hash (d : dict) (k1 k2 : option State) :
  py_hash k1 = py_hash k2 -> dict_contains d k1 = dict_contains d k2.
Proof.
  intro H. unfold dict_contains. rewrite (dict_lookup_hash d k1 k2 H).
  reflexivity.
Qed.

(** ** The blocks of the loop body *)

Lemma score_cached (s : State) (w : Z) :
  _score s = manhattan w (flat s) -> score s w = Ret (_score s, s).
Proof.
  intro H. unfold score. pose proof (manhattan_nonneg w (flat s)).
  destruct (Z.eqb_spec (_score s) (-1)); [lia | reflexivity].
Qed.

Lemma push_move_legal (w h : Z) (closed : dict) (active : State) (dist : Z)
    (c : string) (b dx dy : Z) (io : Z * list entry) :
  grid w h (flat active) -> blank_index (flat active) = Some b ->
  legal w h (b mod w) (b / w) dx dy ->
  _score active = manhattan w (flat active) ->
  push_move w closed active dist c (b mod w) (b / w) dx dy io
  = Ret (let fl := swap_blank (flat active) b
                     (index (b mod w + dx) (b / w + dy) w) in
         let new := child_state w c fl in
         if dict_contains closed (Some new) then io
         else (fst io + 1,
               {| e_f := dist + 1 + manhattan w fl; e_g := dist + 1;
                  e_i := fst io + 1; e_state := new; e_prev := Some active |}
               :: snd io)).
Proof.
  intros Hg Hb Hl Hs. unfold push_move.
  rewrite (move_legal w h (clone active) c b dx dy Hg Hb Hl).
  cbv zeta. cbn [bind clone flat _score].
  rewrite Hs. rewrite <- (move_legal_score w h active b dx dy Hg Hb Hl).
  set (fl := swap_blank (flat active) b (index (b mod w + dx) (b / w + dy) w)).
  unfold contains.
  rewrite (dict_contains_hash closed _ (Some (child_state w c fl)))
    by (cbn; rewrite (State_hash_fst _ (child_state_hash_ok w c fl)); reflexivity).
  destruct (dict_contains closed (Some (child_state w c fl))); [reflexivity|].
  unfold info_for. cbn [State_hash _hash snd Z.eqb flat moveChar _score].
  fold (child_state w c fl).
  rewrite (score_cached (child_state w c fl) w eq_refl).
  reflexivity.
Qed.

Section Blocks.

Variables (w h : Z) (closed : dict) (active : State) (dist b : Z).
Variable io : Z * list entry.
Hypothesis Hg : grid w h (flat active).
Hypothesis Hb : blank_index (flat active) = Some b.
Hypothesis Hs : _score active = manhattan w (flat active).

Lemma coordinates_of_blank : 0 <= b mod w < w /\ 0 <= b / w < h.
Proof.
  destruct Hg as [Hw [Hh [Hlen Hc]]].
  pose proof (blank_index_range _ _ Hb) as [Hbr _].
  apply blank_coordinates; lia.
Qed.

Lemma block_U :
  (if b / w <? h - 1
   then push_move w closed active dist "U" (b mod w) (b / w) 0 1 io
   else Ret io)
  = Ret (push_child w h closed active dist io "U").
Proof.
  destruct coordinates_of_blank as [Hx Hy].
  unfold push_child. rewrite (apply_move_U _ _ _ _ Hb).
  destruct (Z.ltb_spec (b / w) (h - 1)); [|reflexivity].
  apply (push_move_legal w h); auto. unfold legal. lia.
Qed.

Lemma block_D :
  (if b / w >? 0
   then push_move w closed active dist "D" (b mod w) (b / w) 0 (-1) io
   else Ret io)
  = Ret (push_child w h closed active dist io "D").
Proof.
  destruct coordinates_of_blank as [Hx Hy].
  unfold push_child. rewrite (apply_move_D _ _ _ _ Hb).
  destruct (Z.gtb_spec (b / w) 0); [|reflexivity].
  apply (push_move_legal w h); auto. unfold legal. lia.
Qed.

Lemma block_L :
  (if b mod w <? w - 1
   then push_move w closed active dist "L" (b mod w) (b / w) 1 0 io
   else Ret io)
  = Ret (push_child w h closed active dist io "L").
Proof.
  destruct coordinates_of_blank as [Hx Hy].
  unfold push_child. rewrite (apply_move_L _ _ _ _ Hb).
  destruct (Z.ltb_spec (b mod w) (w - 1)); [|reflexivity].
  apply (push_move_legal w h); auto. unfold legal. lia.
Qed.

Lemma block_R :
  (if b mod w >? 0
   then push_move w closed active dist "R" (b mod w) (b / w) (-1) 0 io
   else Ret io)
  = Ret (push_child w h closed active dist io "R").
Proof.
  destruct coordinates_of_blank as [Hx Hy].
  unfold push_child. rewrite (apply_move_R _ _ _ _ Hb).
  destruct (Z.gtb_spec (b mod w) 0); [|reflexivity].
  apply (push_move_legal w h); auto. unfold legal. lia.
Qed.

End Blocks.

(** ** One round of the loop *)

Lemma from_index_value (b w : Z) :
  w <> 0 -> from_index b w = Ret (b mod w, b / w).
Proof.
  intro Hw. unfold from_index, py_mod, py_div.
  destruct (Z.eqb_spec w 0); [contradiction | reflexivity].
Qed.

(** The round for the popped entry [e], on a grid, with the score of the
    popped state cached: skip a state the closed list has, return the path
    at a goal, or else push the children and close the state. *)
Lemma iteration_value (w h : Z) (l : loop_state) (e : entry) (rest : list entry) :
  grid w h (flat (e_state e)) ->
  _score (e_state e) = manhattan w (flat (e_state e)) ->
  hash_ok (e_state e) ->
  iteration w h l e rest
  = let active := snd (State_hash (e_state e)) in
    if dict_contains (closed_list l) (Some (e_state e)) then
      Ret (inl {| counter := counter l; closed_list := closed_list l;
                  open_list := rest |})
    else if manhattan w (flat (e_state e)) =? 0 then
      path <- make_path active (e_prev e) (closed_list l) ;;
      Ret (inr (Some path))
    else
      let io := expand w h (closed_list l) active (e_g e) (counter l, rest) in
      Ret (inl {| counter := fst io;
                  closed_list := dict_set (closed_list l) active (e_prev e);
                  open_list := snd io |}).
Proof.
  intros Hg Hs Hh. unfold iteration, contains. cbv zeta.
  destruct (dict_contains (closed_list l) (Some (e_state e))); [reflexivity|].
  set (active := snd (State_hash (e_state e))).
  assert (Hfa : flat active = flat (e_state e)).
  { unfold active. rewrite (State_hash_snd _ Hh). reflexivity. }
  assert (Hsa : _score active = manhattan w (flat active)).
  { rewrite Hfa, <- Hs. unfold active. rewrite (State_hash_snd _ Hh). reflexivity. }
  rewrite (score_cached active w Hsa). cbn [bind].
  rewrite Hsa, Hfa.
  destruct (manhattan w (flat (e_state e)) =? 0); [reflexivity|].
  rewrite <- Hfa in Hg.
  pose proof Hg as [Hw [Hh' [Hlen Hc]]].
  destruct (blank_index_exists (flat active)) as [b Hb]; [lia|].
  rewrite <- Hfa.
  rewrite list_index_blank_index, Hb. cbn [bind].
  rewrite from_index_value by lia. cbn [bind].
  rewrite (block_U w h (closed_list l) active (e_g e) b _ Hg Hb Hsa). cbn [bind].
  rewrite (block_D w h (closed_list l) active (e_g e) b _ Hg Hb Hsa). cbn [bind].
  rewrite (block_L w h (closed_list l) active (e_g e) b _ Hg Hb Hsa). cbn [bind].
  rewrite (block_R w h (closed_list l) active (e_g e) b _ Hg Hb Hsa). cbn [bind].
  reflexivity.
Qed.

(** ** The heap *)

Lemma heappop_Permutation (heap : list entry) (e : entry) (rest : list entry) :
  heappop heap = Some (e, rest) -> Permutation heap (e :: rest).
Proof.
  revert e rest. induction heap as [|x t IH]; simpl; intros e rest H; [discriminate|].
  destruct (heappop t) as [[m rest']|] eqn:E.
  - specialize (IH m rest' eq_refl).
    destruct (entry_ltb m x); injection H as <- <-.
    + rewrite perm_swap. apply perm_skip. exact IH.
    + apply Permutation_refl.
  - injection H as <- <-. destruct t; [apply Permutation_refl | simpl in E].
    destruct (heappop t) as [[m rest']|]; [destruct (entry_ltb m e)|]; discriminate.
Qed.

Lemma entry_ltb_irrefl (a : entry) : entry_ltb a a = false.
Proof. unfold entry_ltb. lex_cases a a; reflexivity. Qed.

Lemma entry_ltb_asym (a b : entry) :
  entry_ltb a b = true -> entry_ltb b a = false.
Proof.
  unfold entry_ltb. intro H. lex_cases a b; lex_cases b a; reflexivity.
Qed.

Lemma entry_geb_trans (a b c : entry) :
  entry_ltb b c = false -> entry_ltb a b = false -> entry_ltb a c = false.
Proof.
  unfold entry_ltb. intros H1 H2.
  lex_cases b c; lex_cases a b; lex_cases a c; reflexivity.
Qed.

(** No entry of the heap is below the popped one. *)
Lemma heappop_least (heap : list entry) (e : entry) (rest : list entry) :
  heappop heap = Some (e, rest) ->
  forall x, In x heap -> entry_ltb x e = false.
Proof.
  revert e rest. induction heap as [|y t IH]; simpl; intros e rest H x Hx;
    [contradiction|].
  destruct (heappop t) as [[m rest']|] eqn:E.
  - specialize (IH m rest' eq_refl).
    destruct (entry_ltb m y) eqn:Em; injection H as <- <-.
    + destruct Hx as [<-|Hx]; [|auto].
      apply entry_ltb_asym. exact Em.
    + destruct Hx as [<-|Hx]; [apply entry_ltb_irrefl|].
      apply (entry_geb_trans x m y); auto.
  - injection H as <- <-. destruct t as [|z t].
    + destruct Hx as [<-|[]]. apply entry_ltb_irrefl.
    + simpl in E.
      destruct (heappop t) as [[m rest']|]; [destruct (entry_ltb m z)|]; discriminate.
Qed.

(** ** Move sequences *)

Lemma apply_moves_app (w h : Z) (ms1 ms2 : list string) (fl : list Z) :
  apply_moves w h (ms1 ++ ms2) fl
  = match apply_moves w h ms1 fl with
    | Some fl' => apply_moves w h ms2 fl'
    | None => None
    end.
Proof.
  revert fl. induction ms1 as [|m ms1 IH]; intro fl; simpl; [reflexivity|].
  destruct (apply_move w h m fl); [apply IH | reflexivity].
Qed.

Lemma apply_moves_snoc (w h : Z) (ms : list string) (c : string) (a b d : list Z) :
  apply_moves w h ms a = Some b -> apply_move w h c b = Some d ->
  apply_moves w h (ms ++ [c]) a = Some d.
Proof.
  intros H1 H2. rewrite apply_moves_app, H1. simpl. rewrite H2. reflexivity.
Qed.

Lemma apply_moves_grid (w h : Z) (ms : list string) (a b : list Z) :
  grid w h a -> apply_moves w h ms a = Some b ->
  Permutation a b /\ grid w h b.
Proof.
  revert a. induction ms as [|m ms IH]; simpl; intros a Hg H.
  - injection H as <-. split; [apply Permutation_refl | exact Hg].
  - destruct (apply_move w h m a) as [a'|] eqn:E; [|discriminate].
    destruct (apply_move_grid _ _ _ _ _ Hg E) as [HP Hg'].
    destruct (IH a' Hg' H) as [HP' Hg''].
    split; [eapply Permutation_trans; eassumption | exact Hg''].
Qed.

(** ** The invariant of the loop that needs nothing of the hash *)

Lemma len_app {A : Type} (a b : list A) : len (a ++ b) = len a + len b.
Proof. unfold len. rewrite length_app. lia. Qed.

Lemma good_entry_mono (w h : Z) (init : list Z) (c1 c2 : Z) (e : entry) :
  c1 <= c2 -> good_entry w h init c1 e -> good_entry w h init c2 e.
Proof.
  intros Hc [H1 [H2 [H3 [H4 H5]]]].
  split; [exact H1|]. split; [exact H2|]. split; [exact H3|].
  split; [lia | exact H5].
Qed.

Lemma child_state_good (w h : Z) (init : list Z) (c : string) (fl fl' : list Z) :
  Permutation init fl -> grid w h fl -> apply_move w h c fl = Some fl' ->
  good_state w h init (child_state w c fl').
Proof.
  intros HP Hg H. destruct (apply_move_grid _ _ _ _ _ Hg H) as [HP' Hg'].
  repeat split; try apply Hg'.
  - eapply Permutation_trans; eassumption.
  - right. reflexivity.
Qed.

Section PushChild.

Variables (w h : Z) (init : list Z) (closed : dict) (active : State) (dist : Z).
Hypothesis Hactive : good_state w h init active.
Hypothesis Hpath :
  exists ms, len ms = dist /\ apply_moves w h ms init = Some (flat active).

Lemma push_child_inv (io : Z * list entry) (c : string) :
  io_inv w h init io ->
  io_inv w h init (push_child w h closed active dist io c)
  /\ fst io <= fst (push_child w h closed active dist io c).
Proof.
  intros [H0 [HF HN]]. unfold push_child.
  destruct (apply_move w h c (flat active)) as [fl|] eqn:E;
    [|split; [split; auto | lia]].
  destruct (dict_contains closed (Some (child_state w c fl)));
    [split; [split; auto | lia]|].
  unfold io_inv. cbn [fst snd]. split; [|lia].
  destruct Hactive as [HP [Hg [Hs Hh]]].
  split; [lia|]. split.
  - constructor.
    + unfold good_entry. cbn [e_state e_prev e_g e_i e_f].
      split; [apply (child_state_good w h init c (flat active)); auto|].
      split; [intros p Hp; injection Hp as <-; exact Hactive|].
      split.
      { destruct Hpath as [ms [Hl Hm]]. exists (ms ++ [c]). split.
        - rewrite len_app, Hl. reflexivity.
        - apply (apply_moves_snoc w h ms c init (flat active)); auto. }
      split; [lia|].
      right. unfold pushed_entry. cbn [e_state e_prev e_g e_i e_f child_state flat].
      split; [discriminate|]. split; lia.
    + eapply Forall_impl; [|exact HF].
      intros e He. apply (good_entry_mono w h init (fst io)); [lia | exact He].
  - cbn [map e_i]. constructor; [|exact HN].
    intro Hin. apply in_map_iff in Hin. destruct Hin as [e [He Hin]].
    rewrite Forall_forall in HF. destruct (HF e Hin) as [_ [_ [_ [Hi _]]]]. lia.
Qed.

Lemma expand_inv (io : Z * list entry) :
  io_inv w h init io ->
  io_inv w h init (expand w h closed active dist io)
  /\ fst io <= fst (expand w h closed active dist io).
Proof.
  intro H. unfold expand. cbn [fold_left].
  destruct (push_child_inv io "U" H) as [H1 L1].
  destruct (push_child_inv _ "D" H1) as [H2 L2].
  destruct (push_child_inv _ "L" H2) as [H3 L3].
  destruct (push_child_inv _ "R" H3) as [H4 L4].
  split; [exact H4 | lia].
Qed.

End PushChild.

Lemma cached_good (w h : Z) (init : list Z) (s : State) :
  good_state w h init s -> good_state w h init (snd (State_hash s)).
Proof.
  intros [HP [Hg [Hs Hh]]]. rewrite (State_hash_snd _ Hh).
  repeat split; try apply Hg; auto. right. reflexivity.
Qed.

Lemma cached_flat (s : State) : flat (snd (State_hash s)) = flat s.
Proof.
  unfold State_hash. destruct (_hash s =? 0); reflexivity.
Qed.

Lemma cached_moveChar (s : State) : moveChar (snd (State_hash s)) = moveChar s.
Proof.
  unfold State_hash. destruct (_hash s =? 0); reflexivity.
Qed.

Lemma dict_set_good (w h : Z) (init : list Z) (d : dict) (k : State)
    (v : option State) :
  Forall (good_pair w h init) d -> good_pair w h init (k, v) ->
  Forall (good_pair w h init) (dict_set d k v).
Proof.
  intros Hd Hkv. induction d as [|[k' v'] d IH]; simpl.
  - constructor; [exact Hkv | constructor].
  - inversion Hd as [|? ? Hk' Hd']; subst.
    destruct (State_eq k' (Some k)).
    + constructor; [|exact Hd'].
      destruct Hk' as [A _]. destruct Hkv as [_ B].
      split; [exact A | exact B].
    + constructor; [exact Hk' | apply IH; exact Hd'].
Qed.

Lemma basic_inv_round (w h : Z) (init : list Z) (l l' : loop_state)
    (e : entry) (rest : list entry) :
  basic_inv w h init l ->
  heappop (open_list l) = Some (e, rest) ->
  iteration w h l e rest = Ret (inl l') ->
  basic_inv w h init l'.
Proof.
  intros [H0 [HF [HN HC]]] Hpop Hit.
  pose proof (heappop_Permutation _ _ _ Hpop) as HP.
  assert (HFe : Forall (good_entry w h init (counter l)) (e :: rest)).
  { eapply Permutation_Forall; eassumption. }
  assert (HNe : NoDup (map e_i (e :: rest))).
  { eapply Permutation_NoDup; [apply Permutation_map; exact HP | exact HN]. }
  inversion HFe as [|? ? He HFr]; subst.
  inversion HNe as [|? ? _ HNr]; subst.
  destruct He as [Hs [Hprev [Hpath [Hi Hkind]]]].
  pose proof Hs as [HPs [Hg [Hsc Hh]]].
  rewrite (iteration_value w h l e rest Hg Hsc Hh) in Hit. cbv zeta in Hit.
  destruct (dict_contains (closed_list l) (Some (e_state e))).
  - injection Hit as <-. unfold basic_inv. cbn [counter open_list closed_list].
    auto.
  - destruct (manhattan w (flat (e_state e)) =? 0).
    + destruct (make_path _ _ _); discriminate.
    + injection Hit as <-. unfold basic_inv. cbn [counter open_list closed_list].
      assert (Hio : io_inv w h init (counter l, rest)) by (repeat split; auto).
      destruct (expand_inv w h init (closed_list l) (snd (State_hash (e_state e)))
                  (e_g e) (cached_good w h init _ Hs)) with (io := (counter l, rest))
        as [[Hc [HF' HN']] _]; auto.
      { rewrite cached_flat. exact Hpath. }
      repeat split; auto.
      apply dict_set_good; auto.
      split; [apply cached_good; exact Hs | exact Hprev].
Qed.

Lemma concat_length_rows (p : list (list Z)) (w : nat) :
  Forall (fun row => length row = w) p ->
  length (concat p) = (length p * w)%nat.
Proof.
  induction 1 as [|row rest Hr _ IH]; simpl; [reflexivity|].
  rewrite length_app, IH, Hr. reflexivity.
Qed.

Lemma valid_configuration_grid (p : list (list Z)) :
  valid_configuration p = true ->
  grid (len (hd [] p)) (len p) (flatten p).
Proof.
  intro Hv.
  pose proof (valid_configuration_one_blank p Hv) as Hc.
  destruct (valid_configuration_facts p Hv) as [[row0 [rest [-> Hw]]] [HF _]].
  unfold grid, len. cbn [hd]. repeat split; try (simpl; lia); auto.
  unfold flatten. rewrite (concat_length_rows _ _ HF). unfold width_of.
  cbn [hd]. lia.
Qed.

Lemma score_make_state (p : list (list Z)) (w : Z) :
  w <> 0 ->
  score (make_state p) w
  = Ret (manhattan w (flatten p),
         {| flat := flatten p; moveChar := ""; _hash := 0;
            _score := manhattan w (flatten p) |}).
Proof.
  intro Hw. unfold score, make_state. cbn [_score flat moveChar _hash Z.eqb].
  rewrite score_loop_manhattan by exact Hw. reflexivity.
Qed.

Lemma initial_state_good (w h : Z) (init : list Z) :
  grid w h init ->
  good_state w h init
    {| flat := init; moveChar := ""; _hash := 0; _score := manhattan w init |}.
Proof.
  intro Hg. repeat split; try apply Hg; auto. left. reflexivity.
Qed.

Lemma basic_inv_initial (w h : Z) (init : list Z) (s0 : State) :
  good_state w h init s0 -> flat s0 = init ->
  basic_inv w h init (initial_loop s0).
Proof.
  intros Hs Hf. unfold basic_inv, initial_loop. cbn [counter open_list closed_list].
  split; [lia|]. split; [|split; [|constructor]].
  - constructor; [|constructor].
    unfold good_entry. cbn [e_state e_prev e_g e_i e_f].
    split; [exact Hs|]. split; [discriminate|].
    split; [exists []; split; [reflexivity | simpl; congruence]|].
    split; [lia|]. left. repeat split.
  - simpl. constructor; [intros [] | constructor].
Qed.

Lemma runs_basic_inv (w h : Z) (init : list Z) (s0 : State) (l : loop_state) :
  good_state w h init s0 -> flat s0 = init ->
  runs w h s0 l -> basic_inv w h init l.
Proof.
  intros Hs Hf Hr. induction Hr as [|l e rest l' _ IH Hpop Hit].
  - apply basic_inv_initial; auto.
  - eapply basic_inv_round; eassumption.
Qed.

(** The loop states of [solve] on a valid configuration satisfy the
    invariant, for the width and the height that [solve] computes. *)
Lemma in_solve_inv (p : list (list Z)) (l : loop_state) :
  valid_configuration p = true -> in_solve p l ->
  basic_inv (len (hd [] p)) (len p) (flatten p) l
  /\ runs (len (hd [] p)) (len p)
       {| flat := flatten p; moveChar := ""; _hash := 0;
          _score := manhattan (len (hd [] p)) (flatten p) |} l.
Proof.
  intros Hv [row0 [h0 [s0 [Hsolv [Hrow [Hsc [Hh0 Hr]]]]]]].
  pose proof (valid_configuration_grid p Hv) as Hg.
  destruct p as [|r0 rest]; [discriminate|].
  injection Hrow as <-. cbn [hd] in *.
  pose proof Hg as [Hw _].
  rewrite score_make_state in Hsc by lia. injection Hsc as <- <-.
  split; [|exact Hr].
  eapply runs_basic_inv; [apply initial_state_good; exact Hg | reflexivity | exact Hr].
Qed.

Lemma basic_inv_states (w h : Z) (init : list Z) (l : loop_state) (s : State) :
  basic_inv w h init l -> In s (states_of l) -> good_state w h init s.
Proof.
  intros [_ [HF [_ HC]]] Hin. unfold states_of in Hin.
  rewrite Forall_forall in HF, HC.
  apply in_app_or in Hin. destruct Hin as [Hin|Hin];
    apply in_flat_map in Hin; destruct Hin as [x [Hx Hs]].
  - destruct (HF x Hx) as [Hg [Hp _]].
    destruct Hs as [<-|Hs]; [exact Hg|].
    destruct (e_prev x) as [q|]; [|contradiction].
    destruct Hs as [<-|[]]. apply Hp. reflexivity.
  - destruct (HC x Hx) as [Hg Hp].
    destruct Hs as [<-|Hs]; [exact Hg|].
    destruct (snd x) as [q|]; [|contradiction].
    destruct Hs as [<-|[]]. apply Hp. reflexivity.
Qed.

(** ** The calls of [move] *)

(** A call of [move] in a round of the search is made on the clone of a
    state of the grid whose score is cached, at the coordinates of its
    blank, with a step that stays on the grid. *)
Lemma move_call_legal (w h : Z) (init : list Z) (l : loop_state) (s : State)
    (c : string) (x y dx dy : Z) :
  basic_inv w h init l -> move_call w h l s c x y dx dy ->
  exists b, good_state w h init s
            /\ blank_index (flat s) = Some b
            /\ x = b mod w /\ y = b / w
            /\ legal w h x y dx dy.
Proof.
  intros Hinv [e [rest [a1 [hv [active [b [Hpop [Hcont [Hsc [Hhv [Hidx [Hfrom [-> Hdir]]]]]]]]]]]]].
  pose proof Hinv as [_ [HF _]].
  pose proof (heappop_Permutation _ _ _ Hpop) as HP.
  assert (He : good_entry w h init (counter l) e).
  { rewrite Forall_forall in HF. apply HF.
    eapply Permutation_in; [apply Permutation_sym; exact HP | left; reflexivity]. }
  destruct He as [Hs _].
  unfold contains in Hcont. injection Hcont as _ <-.
  pose proof (cached_good w h init _ Hs) as Ha.
  pose proof Ha as [HPa [Hg [Hsa Hha]]].
  rewrite (score_cached _ w Hsa) in Hsc. injection Hsc as _ <-.
  rewrite list_index_blank_index in Hidx.
  destruct (blank_index (flat (snd (State_hash (e_state e))))) as [b'|] eqn:Eb;
    [|discriminate].
  injection Hidx as ->.
  pose proof Hg as [Hw [Hh [Hlen Hc]]].
  rewrite from_index_value in Hfrom by lia. injection Hfrom as <- <-.
  pose proof (blank_index_range _ _ Eb) as [Hbr _].
  destruct (blank_coordinates w h b Hw) as [Hx Hy]; [lia|].
  exists b. split; [|split; [exact Eb|split; [reflexivity|split; [reflexivity|]]]].
  - destruct Ha as [A [B [C D]]].
    split; [exact A|]. split; [exact B|]. split; [exact C | exact D].
  - unfold legal.
    destruct Hdir as [[_ [-> [-> G]]]|[[_ [-> [-> G]]]|[[_ [-> [-> G]]]|[_ [-> [-> G]]]]]].
    + apply Z.ltb_lt in G. lia.
    + apply Z.gtb_lt in G. lia.
    + apply Z.ltb_lt in G. lia.
    + apply Z.gtb_lt in G. lia.
Qed.

(** C4: in a search on a valid configuration, every call of [move] (they
    are made under the bounds guards of the loop) returns a state whose
    cached score is what the full computation of [score] gives on the new
    flat sequence: the loop of [score] run from scratch, which is what
    [score] returns once the cache is emptied, the Manhattan sum. *)
Theorem move_score_is_recomputation (puzzle_data : list (list Z))
    (l : loop_state) (s : State) (c : string) (x y dx dy : Z) :
  valid_configuration puzzle_data = true ->
  in_solve puzzle_data l ->
  move_call (len (hd [] puzzle_data)) (len puzzle_data) l s c x y dx dy ->
  exists s',
    move s c x y dx dy (len (hd [] puzzle_data)) = Ret s'
    /\ score_loop (len (hd [] puzzle_data)) (flat s') 0 0 = Ret (_score s')
    /\ score {| flat := flat s'; moveChar := moveChar s'; _hash := _hash s';
                _score := -1 |} (len (hd [] puzzle_data))
       = Ret (_score s', s')
    /\ _score s' = manhattan (len (hd [] puzzle_data)) (flat s').
Proof.
  intros Hv Hin Hcall.
  destruct (in_solve_inv _ _ Hv Hin) as [Hinv _].
  destruct (move_call_legal _ _ _ _ _ _ _ _ _ _ Hinv Hcall)
    as [b [[HP [Hg [Hs Hh]]] [Hb [-> [-> Hl]]]]].
  rewrite (move_legal _ _ s c b dx dy Hg Hb Hl). cbv zeta.
  eexists. split; [reflexivity|]. unfold score. cbn [flat _score moveChar _hash].
  pose proof Hg as [Hw _].
  pose proof (move_legal_score _ _ s b dx dy Hg Hb Hl) as E. cbv zeta in E.
  rewrite score_loop_manhattan by lia.
  change (manhattan_from ?w 0 ?fl) with (manhattan w fl).
  rewrite E, Hs, Z.add_0_l. cbn [Z.eqb bind].
  split; [reflexivity|]. split; reflexivity.
Qed.

(** C10: in a search on a valid configuration, every state that [move] is
    called on has its score cached: it is not the sentinel [-1], it is the
    Manhattan sum of the state. *)
Theorem move_never_sees_uncached_score (puzzle_data : list (list Z))
    (l : loop_state) (s : State) (c : string) (x y dx dy : Z) :
  valid_configuration puzzle_data = true ->
  in_solve puzzle_data l ->
  move_call (len (hd [] puzzle_data)) (len puzzle_data) l s c x y dx dy ->
  _score s <> -1
  /\ _score s = manhattan (len (hd [] puzzle_data)) (flat s).
Proof.
  intros Hv Hin Hcall.
  destruct (in_solve_inv _ _ Hv Hin) as [Hinv _].
  destruct (move_call_legal _ _ _ _ _ _ _ _ _ _ Hinv Hcall)
    as [b [[HP [Hg [Hs Hh]]] _]].
  split; [|exact Hs].
  pose proof (manhattan_nonneg (len (hd [] puzzle_data)) (flat s)). lia.
Qed.

(** C8: on a valid configuration the initial state has exactly one cell
    with [0]; and in the search every state of the loop (in the open list
    or in the closed list) and every state that a call of [move] returns
    has exactly one cell with [0], and its flat sequence is a rearrangement
    of the initial one. *)
Theorem states_keep_the_tiles (puzzle_data : list (list Z)) :
  valid_configuration puzzle_data = true ->
  (list_count (flat (make_state puzzle_data)) 0 = 1
   /\ Permutation (flatten puzzle_data) (flat (make_state puzzle_data)))
  /\ forall l,
      in_solve puzzle_data l ->
      (forall s, In s (states_of l) ->
                 list_count (flat s) 0 = 1
                 /\ Permutation (flatten puzzle_data) (flat s))
      /\ (forall s c x y dx dy,
             move_call (len (hd [] puzzle_data)) (len puzzle_data) l s c x y dx dy ->
             exists s', move s c x y dx dy (len (hd [] puzzle_data)) = Ret s'
                        /\ list_count (flat s') 0 = 1
                        /\ Permutation (flatten puzzle_data) (flat s')).
Proof.
  intros Hv. split.
  - split; [apply valid_configuration_one_blank; exact Hv | apply Permutation_refl].
  - intros l Hin.
    destruct (in_solve_inv _ _ Hv Hin) as [Hinv _].
    split.
    + intros s Hs.
      destruct (basic_inv_states _ _ _ _ _ Hinv Hs) as [HP [[_ [_ [_ Hc]]] _]].
      split; assumption.
    + intros s c x y dx dy Hcall.
      destruct (move_call_legal _ _ _ _ _ _ _ _ _ _ Hinv Hcall)
        as [b [[HP [Hg [Hs Hh]]] [Hb [-> [-> Hl]]]]].
      rewrite (move_legal _ _ s c b dx dy Hg Hb Hl). cbv zeta.
      eexists. split; [reflexivity|]. cbn [flat].
      destruct (swap_blank_grid _ _ _ _ _ _ Hg Hb Hl) as [HP' [_ [_ [_ Hc]]]].
      split; [exact Hc | eapply Permutation_trans; eassumption].
Qed.

(** ** The entries of the open list *)

(** C7, as the code has it: in a search on a valid configuration every
    entry [(f, g, i, state, prev)] of the open list has the score of its
    state cached as [h], and [g] is the length of a move sequence that
    takes the initial configuration to the state.  An entry with a
    predecessor has [f = g + h].  The entry without one is the first
    entry, of the initial configuration: it is [(0, 0, 0, state, None)],
    so its [f] is [0] and not [g + h]. *)
Theorem open_entries_f_g_h (puzzle_data : list (list Z)) (l : loop_state)
    (e : entry) :
  valid_configuration puzzle_data = true ->
  in_solve puzzle_data l ->
  In e (open_list l) ->
  let width := len (hd [] puzzle_data) in
  let height := len puzzle_data in
  _score (e_state e) = manhattan width (flat (e_state e))
  /\ (exists ms, len ms = e_g e
                 /\ apply_moves width height ms (flatten puzzle_data)
                    = Some (flat (e_state e)))
  /\ ((e_prev e <> None /\ e_f e = e_g e + _score (e_state e))
      \/ (e_prev e = None /\ e_f e = 0 /\ e_g e = 0 /\ e_i e = 0
          /\ flat (e_state e) = flatten puzzle_data)).
Proof.
  intros Hv Hin He width height.
  destruct (in_solve_inv _ _ Hv Hin) as [[_ [HF _]] _].
  rewrite Forall_forall in HF.
  destruct (HF e He) as [[_ [_ [Hs _]]] [_ [Hpath [_ Hkind]]]].
  split; [exact Hs|]. split; [exact Hpath|].
  destruct Hkind as [[Hp [Hf [Hg Hi]]]|[Hp [Hf Hi]]].
  - right. repeat split; auto.
    destruct Hpath as [ms [Hl Hm]]. rewrite Hg in Hl.
    destruct ms as [|m ms]; [|unfold len in Hl; simpl in Hl; lia].
    simpl in Hm. congruence.
  - left. split; [exact Hp|]. rewrite Hs. exact Hf.
Qed.

(** ** Equality and hash of states *)


(** ** What [solve] returns *)

(** A round that ends the loop returns a path. *)
Lemma iteration_returns_path (w h : Z) (l : loop_state) (e : entry)
    (rest : list entry) (v : option (list string)) :
  iteration w h l e rest = Ret (inr v) -> exists path, v = Some path.
Proof.
  unfold iteration, contains. intro H.
  step_through H; injection H as <-; eexists; reflexivity.
Qed.

Lemma heappop_None (heap : list entry) : heappop heap = None -> heap = [].
Proof.
  destruct heap as [|e t]; [reflexivity|]. simpl.
  destruct (heappop t) as [[m r]|]; [destruct (entry_ltb m e)|]; discriminate.
Qed.

Lemma search_None_exhausts (w h : Z) (s0 : State) (fuel : nat) (l : loop_state) :
  runs w h s0 l -> search fuel w h l = Ret None ->
  exists l', runs w h s0 l' /\ open_list l' = [].
Proof.
  revert l. induction fuel as [|fuel IH]; intros l Hr H; simpl in H.
  - destruct (heappop (open_list l)) as [[e rest]|] eqn:E; [discriminate|].
    exists l. split; [exact Hr | apply heappop_None; exact E].
  - destruct (heappop (open_list l)) as [[e rest]|] eqn:E.
    + destruct (iteration w h l e rest) as [[l'|v]| |] eqn:Ei;
        cbn [bind] in H; try discriminate.
      * apply (IH l'); [|exact H]. eapply runs_round; eassumption.
      * destruct (iteration_returns_path _ _ _ _ _ _ Ei) as [path ->].
        discriminate.
    + exists l. split; [exact Hr | apply heappop_None; exact E].
Qed.

Lemma runs_search (w h : Z) (s0 : State) (l : loop_state) :
  runs w h s0 l ->
  forall fuel r, search fuel w h l = Ret r ->
  exists fuel', search fuel' w h (initial_loop s0) = Ret r.
Proof.
  induction 1 as [|l e rest l' _ IH Hpop Hit]; intros fuel r H.
  - exists fuel. exact H.
  - apply (IH (S fuel) r). simpl. rewrite Hpop, Hit. exact H.
Qed.

(** More fuel does not change what the loop returns. *)
Lemma search_more_fuel (w h : Z) (fuel : nat) (l : loop_state)
    (r : option (list string)) :
  search fuel w h l = Ret r -> search (S fuel) w h l = Ret r.
Proof.
  revert l. induction fuel as [|fuel IH]; intros l H.
  - simpl in H. simpl.
    destruct (heappop (open_list l)) as [[e rest]|]; [discriminate | exact H].
  - cbn [search] in H. cbn [search].
    destruct (heappop (open_list l)) as [[e rest]|]; [|exact H].
    destruct (iteration w h l e rest) as [[l'|v]| |]; cbn [bind] in *;
      try discriminate; [|exact H].
    apply IH. exact H.
Qed.

Lemma search_enough_fuel (w h : Z) (n m : nat) (l : loop_state)
    (r : option (list string)) :
  (n <= m)%nat -> search n w h l = Ret r -> search m w h l = Ret r.
Proof.
  intros Hle H. induction Hle as [|m _ IH]; [exact H|].
  apply search_more_fuel. exact IH.
Qed.

Lemma solve_enough_fuel (n m : nat) (p : list (list Z))
    (r : option (list string)) :
  (n <= m)%nat -> solve n p = Ret r -> solve m p = Ret r.
Proof.
  intros Hle. unfold solve.
  destruct (is_solvable p) as [[|]| |]; cbn [bind negb]; auto.
  destruct (first_row p) as [row0| |]; cbn [bind]; auto.
  destruct (score (make_state p) (len row0)) as [[h0 s0]| |]; cbn [bind]; auto.
  destruct (h0 =? 0); auto.
  apply search_enough_fuel. exact Hle.
Qed.

(** C6: [solve] returns [None], the "no solution" value, exactly when
    [is_solvable] is false or the search comes to a loop state whose open
    list is empty.  When [is_solvable] is false it does so without a
    round of the search (with no fuel at all).  [None] is not the empty
    move sequence. *)
Theorem solve_no_solution (puzzle_data : list (list Z)) :
  ((exists fuel, solve fuel puzzle_data = Ret None)
   <-> (is_solvable puzzle_data = Ret false
        \/ exists l, in_solve puzzle_data l /\ open_list l = []))
  /\ (is_solvable puzzle_data = Ret false ->
      forall fuel, solve fuel puzzle_data = Ret None)
  /\ Ret (@None (list string)) <> Ret (Some []).
Proof.
  split; [split|split].
  - intros [fuel H]. unfold solve in H.
    destruct (is_solvable puzzle_data) as [[|]| |] eqn:Es; cbn [bind negb] in H;
      try discriminate; [|left; reflexivity].
    right.
    destruct (first_row puzzle_data) as [row0| |] eqn:Er; cbn [bind] in H;
      try discriminate.
    destruct (score (make_state puzzle_data) (len row0)) as [[h0 s0]| |] eqn:Esc;
      cbn [bind] in H; try discriminate.
    destruct (h0 =? 0) eqn:Eh; [discriminate|].
    destruct (search_None_exhausts _ _ s0 fuel _ (runs_start _ _ _) H)
      as [l' [Hr Ho]].
    exists l'. split; [|exact Ho].
    exists row0, h0, s0. auto.
  - intros [H|[l [[row0 [h0 [s0 [Hs [Hrow [Hsc [Hh0 Hr]]]]]]] Ho]]].
    + exists 0%nat. unfold solve. rewrite H. reflexivity.
    + assert (H0 : search 0 (len row0) (len puzzle_data) l = Ret None).
      { simpl. rewrite Ho. reflexivity. }
      destruct (runs_search _ _ _ _ Hr _ _ H0) as [fuel Hf].
      exists fuel. unfold solve. rewrite Hs. cbn [bind negb].
      rewrite Hrow. cbn [bind]. rewrite Hsc. cbn [bind]. rewrite Hh0.
      exact Hf.
  - intros H fuel. unfold solve. rewrite H. reflexivity.
  - discriminate.
Qed.


(** ** The goal is the only configuration of score zero *)

Lemma cell_cost_zero (w v j : Z) :
  0 < w -> cell_cost w v j = 0 -> v = 0 \/ v = j + 1.
Proof.
  intros Hw. unfold cell_cost, tile_distance.
  destruct (Z.eqb_spec v 0) as [E|E]; [auto|]. intro H. right.
  pose proof (Z.div_mod (v - 1) w). pose proof (Z.div_mod j w).
  assert ((v - 1) mod w = j mod w) by lia.
  assert ((v - 1) / w = j / w) by lia.
  assert (v - 1 = j) by (rewrite (Z.div_mod (v - 1) w), (Z.div_mod j w) by lia; congruence).
  lia.
Qed.

Lemma manhattan_from_zero_cells (w : Z) (l : list Z) (i : Z) :
  0 < w -> manhattan_from w i l = 0 ->
  forall k, (k < length l)%nat ->
            nth k l 0 = 0 \/ nth k l 0 = i + Z.of_nat k + 1.
Proof.
  intro Hw. revert i. induction l as [|v t IH]; intros i H k Hk; simpl in *; [lia|].
  pose proof (cell_cost_nonneg w v i).
  pose proof (manhattan_from_nonneg w t (i + 1)).
  destruct k as [|k].
  - destruct (cell_cost_zero w v i Hw) as [E|E]; [lia | auto | right; lia].
  - destruct (IH (i + 1)) with (k := k) as [E|E]; [lia | lia | auto | right; lia].
Qed.

Lemma list_count_seq (n : nat) (k : nat) :
  (k < n)%nat -> list_count (map Z.of_nat (seq 0 n)) (Z.of_nat k) = 1.
Proof.
  intro Hk. rewrite list_count_count_occ.
  assert (Hnd : NoDup (map Z.of_nat (seq 0 n))).
  { apply Finite.Injective_map_NoDup; [intros a b; lia | apply seq_NoDup]. }
  assert (Hin : In (Z.of_nat k) (map Z.of_nat (seq 0 n))).
  { apply in_map. apply in_seq. lia. }
  pose proof (proj1 (NoDup_count_occ' Z.eq_dec _) Hnd _ Hin). lia.
Qed.

Lemma valid_configuration_Permutation (p : list (list Z)) :
  valid_configuration p = true ->
  Permutation (map Z.of_nat (seq 0 (length (flatten p)))) (flatten p).
Proof.
  intro Hv. destruct (valid_configuration_facts p Hv) as [_ [_ Hc]].
  apply NoDup_Permutation_bis.
  - apply Finite.Injective_map_NoDup; [intros a b; lia | apply seq_NoDup].
  - rewrite length_map, length_seq. lia.
  - intros v Hin. apply in_map_iff in Hin. destruct Hin as [k [<- Hk]].
    apply in_seq in Hk. apply list_count_In. rewrite Hc; lia.
Qed.

Lemma goal_configuration_length (n : nat) :
  (0 < n)%nat -> length (goal_configuration n) = n.
Proof.
  intro H. unfold goal_configuration.
  rewrite length_app, length_map, length_seq. simpl. lia.
Qed.

Lemma goal_configuration_nth (n k : nat) :
  (k < n)%nat ->
  nth k (goal_configuration n) 0
  = if (k =? n - 1)%nat then 0 else Z.of_nat k + 1.
Proof.
  intro Hk. unfold goal_configuration.
  destruct (Nat.eqb_spec k (n - 1)) as [E|E].
  - rewrite app_nth2 by (rewrite length_map, length_seq; lia).
    rewrite length_map, length_seq. replace (k - (n - 1))%nat with 0%nat by lia.
    reflexivity.
  - rewrite app_nth1 by (rewrite length_map, length_seq; lia).
    change 0 with (Z.of_nat 0) at 1. rewrite map_nth.
    rewrite seq_nth by lia. lia.
Qed.

(** A rearrangement of [0 .. n-1] with score zero is the goal. *)
Lemma manhattan_zero_goal (w : Z) (fl : list Z) :
  0 < w -> (0 < length fl)%nat ->
  Permutation (map Z.of_nat (seq 0 (length fl))) fl ->
  manhattan w fl = 0 ->
  fl = goal_configuration (length fl).
Proof.
  intros Hw Hn HP Hm.
  set (n := length fl) in *.
  assert (Hc : list_count fl 0 = 1).
  { apply same_counts_Permutation with (x := 0) in HP. rewrite <- HP.
    apply (list_count_seq n 0). exact Hn. }
  assert (Hbound : forall v, In v fl -> 0 <= v < Z.of_nat n).
  { intros v Hin. apply (Permutation_in _ (Permutation_sym HP)) in Hin.
    apply in_map_iff in Hin. destruct Hin as [k [<- Hk]].
    apply in_seq in Hk. lia. }
  pose proof (manhattan_from_zero_cells w fl 0 Hw Hm) as Hcells.
  destruct (blank_index_exists fl) as [b Hb]; [lia|].
  assert (Hlast : nth (n - 1) fl 0 = 0).
  { destruct (Hcells (n - 1)%nat) as [E|E]; [unfold n; lia | exact E |].
    assert (Hin : In (nth (n - 1) fl 0) fl) by (apply nth_In; unfold n; lia).
    apply Hbound in Hin. lia. }
  assert (Hbn : (n - 1)%nat = Z.to_nat b).
  { apply (one_blank_unique fl b); auto. unfold n. lia. }
  apply (nth_ext _ _ 0 0).
  - rewrite goal_configuration_length; [reflexivity | exact Hn].
  - intros k Hk. fold n in Hk. rewrite goal_configuration_nth by exact Hk.
    destruct (Nat.eqb_spec k (n - 1)) as [->|E]; [exact Hlast|].
    destruct (Hcells k Hk) as [E0|E0]; [|lia].
    exfalso. apply E. rewrite Hbn. apply (one_blank_unique fl b); auto.
Qed.

Lemma manhattan_from_goal (w : Z) (m s : nat) :
  0 < w ->
  manhattan_from w (Z.of_nat s) (map Z.of_nat (seq (S s) m) ++ [0]) = 0.
Proof.
  intro Hw. revert s. induction m as [|m IH]; intro s.
  - reflexivity.
  - cbn [seq map app manhattan_from].
    replace (Z.of_nat s + 1) with (Z.of_nat (S s)) by lia.
    rewrite IH. unfold cell_cost, tile_distance.
    destruct (Z.eqb_spec (Z.of_nat (S s)) 0); [lia|].
    replace (Z.of_nat (S s) - 1) with (Z.of_nat s) by lia. lia.
Qed.

Lemma manhattan_goal (w : Z) (n : nat) :
  0 < w -> manhattan w (goal_configuration n) = 0.
Proof.
  intro Hw. exact (manhattan_from_goal w (n - 1) 0 Hw).
Qed.


(** ** The row of the blank, and [is_solvable] on the flat sequence *)

Lemma blank_index_app (a c : list Z) :
  blank_index (a ++ c)
  = match blank_index a with
    | Some i => Some i
    | None => match blank_index c with
              | Some j => Some (len a + j)
              | None => None
              end
    end.
Proof.
  unfold len. induction a as [|v t IH]; cbn [blank_index app length].
  - destruct (blank_index c); [f_equal; lia | reflexivity].
  - destruct (v =? 0); [reflexivity|]. rewrite IH.
    destruct (blank_index t); [reflexivity|].
    destruct (blank_index c); [f_equal; lia | reflexivity].
Qed.

Lemma blank_row_of_flat (p : list (list Z)) (w : nat) (b : Z) :
  Forall (fun row => length row = w) p -> (0 < w)%nat ->
  blank_index (concat p) = Some b ->
  row_index_of_blank p (Z.to_nat (b / Z.of_nat w)).
Proof.
  intros HF Hw. revert b. induction HF as [|row rest Hr _ IH]; intros b Hb.
  - discriminate.
  - simpl in Hb. rewrite blank_index_app in Hb.
    destruct (blank_index row) as [i|] eqn:Ei.
    + injection Hb as <-. pose proof (blank_index_range _ _ Ei) as [Hi H0].
      unfold len in Hi. rewrite Z.div_small by lia.
      exists row. split; [reflexivity|].
      rewrite <- H0. apply nth_In. lia.
    + destruct (blank_index (concat rest)) as [j|] eqn:Ej; [|discriminate].
      injection Hb as <-. pose proof (blank_index_range _ _ Ej) as [Hj _].
      destruct (IH j eq_refl) as [rw [Hn Hin]].
      unfold len. rewrite Hr.
      replace (Z.of_nat w + j) with (1 * Z.of_nat w + j) by lia.
      rewrite Z.div_add_l by lia.
      assert (0 <= j / Z.of_nat w) by (apply Z.div_pos; lia).
      replace (Z.to_nat (1 + j / Z.of_nat w)) with (S (Z.to_nat (j / Z.of_nat w)))
        by lia.
      exists rw. split; [exact Hn | exact Hin].
Qed.

Lemma is_solvable_flat (p : list (list Z)) :
  valid_configuration p = true ->
  is_solvable p = Ret (parity_even (len (hd [] p)) (len p) (flatten p)).
Proof.
  intro Hv.
  pose proof (valid_configuration_one_blank p Hv) as Hc.
  destruct (valid_configuration_facts p Hv) as [[row0 [rest [Ep Hw]]] [HF _]].
  destruct (blank_index_exists (flatten p)) as [b Hb]; [lia|].
  pose proof (blank_index_range _ _ Hb) as [Hbr _].
  assert (Hr : row_index_of_blank p (Z.to_nat (b / len (hd [] p)))).
  { apply blank_row_of_flat; auto. subst p. exact Hw. }
  rewrite (is_solvable_value p _ Hc Hr).
  unfold parity_even. rewrite Hb. unfold blank_removed, flatten.
  rewrite Z2Nat.id; [reflexivity|].
  apply Z.div_pos; [lia|]. subst p. unfold len. cbn [hd]. lia.
Qed.

Lemma smaller_after_zero (x : Z) (l : list Z) :
  Forall (fun y => x <= y) l -> smaller_after x l = 0.
Proof.
  induction 1 as [|y t Hy _ IH]; simpl; [reflexivity|].
  destruct (Z.ltb_spec y x); lia.
Qed.

Lemma inversions_increasing (m s : nat) :
  inversions (map Z.of_nat (seq s m)) = 0.
Proof.
  revert s. induction m as [|m IH]; intro s; simpl; [reflexivity|].
  rewrite IH. rewrite smaller_after_zero; [reflexivity|].
  apply Forall_forall. intros y Hy. apply in_map_iff in Hy.
  destruct Hy as [k [<- Hk]]. apply in_seq in Hk. lia.
Qed.

Lemma blank_index_tiles (m s : nat) :
  (0 < s)%nat -> blank_index (map Z.of_nat (seq s m)) = None.
Proof.
  revert s. induction m as [|m IH]; intros s Hs; simpl; [reflexivity|].
  destruct (Z.eqb_spec (Z.of_nat s) 0); [lia|]. rewrite IH by lia. reflexivity.
Qed.

Lemma filter_tiles (m s : nat) :
  (0 < s)%nat ->
  filter (fun v => negb (v =? 0)) (map Z.of_nat (seq s m))
  = map Z.of_nat (seq s m).
Proof.
  revert s. induction m as [|m IH]; intros s Hs; simpl; [reflexivity|].
  destruct (Z.eqb_spec (Z.of_nat s) 0); [lia|]. simpl. rewrite IH by lia.
  reflexivity.
Qed.

(** The goal passes the parity test. *)
Lemma parity_even_goal (w h : Z) :
  0 < w -> 0 < h ->
  parity_even w h (goal_configuration (Z.to_nat (w * h))) = true.
Proof.
  intros Hw Hh. unfold parity_even, goal_configuration.
  rewrite blank_index_app, blank_index_tiles by lia. cbn [blank_index Z.eqb].
  rewrite filter_app, filter_tiles by lia. cbn [filter Z.eqb negb].
  rewrite app_nil_r, inversions_increasing.
  unfold len. rewrite length_map, length_seq. rewrite Z.add_0_r.
  assert (E : Z.of_nat (Z.to_nat (w * h) - 1) / w = h - 1).
  { symmetry. apply (Z.div_unique _ _ _ (w - 1)); nia. }
  rewrite E. replace (0 + (h - (h - 1) - 1)) with 0 by lia.
  destruct (Z.odd w); reflexivity.
Qed.

(** C9: on a valid configuration whose initial state has score [0],
    [solve] returns the empty move sequence, and it does so before the
    loop: no fuel is needed. *)
Theorem solve_solved_configuration (puzzle_data : list (list Z)) (s : State)
    (fuel : nat) :
  valid_configuration puzzle_data = true ->
  score (make_state puzzle_data) (len (hd [] puzzle_data)) = Ret (0, s) ->
  solve fuel puzzle_data = Ret (Some [])
  /\ solve 0 puzzle_data = Ret (Some []).
Proof.
  intros Hv Hs.
  pose proof (valid_configuration_grid _ Hv) as [Hw [Hh [Hlen Hc]]].
  rewrite score_make_state in Hs by lia. injection Hs as Hm _.
  assert (Hgoal : flatten puzzle_data
                  = goal_configuration (length (flatten puzzle_data))).
  { apply (manhattan_zero_goal (len (hd [] puzzle_data))); auto.
    - destruct (flatten puzzle_data); [discriminate | simpl; lia].
    - apply valid_configuration_Permutation. exact Hv. }
  assert (Hsolv : is_solvable puzzle_data = Ret true).
  { rewrite (is_solvable_flat _ Hv). rewrite Hgoal. f_equal.
    replace (length (flatten puzzle_data))
      with (Z.to_nat (len (hd [] puzzle_data) * len puzzle_data))
      by (unfold len in *; lia).
    apply parity_even_goal; assumption. }
  assert (forall n, solve n puzzle_data = Ret (Some [])); [|auto].
  intro n. unfold solve. rewrite Hsolv. cbn [bind negb].
  destruct puzzle_data as [|row0 rest]; [discriminate|].
  cbn [first_row bind hd] in *.
  rewrite score_make_state by lia. cbn [bind]. rewrite Hm. reflexivity.
Qed.


(** ** Inversions under a move *)

Lemma smaller_after_app (x : Z) (a b : list Z) :
  smaller_after x (a ++ b) = smaller_after x a + smaller_after x b.
Proof.
  induction a as [|y t IH]; simpl; [reflexivity|]. rewrite IH. lia.
Qed.

(** Exchanging two neighbours changes the count by one. *)
Lemma inversions_swap_adjacent (A B : list Z) (x y : Z) :
  x <> y ->
  inversions (A ++ x :: y :: B) = inversions (A ++ y :: x :: B) + 1
  \/ inversions (A ++ x :: y :: B) + 1 = inversions (A ++ y :: x :: B).
Proof.
  intro Hxy. induction A as [|a A IH].
  - cbn [app inversions smaller_after].
    destruct (Z.ltb_spec y x), (Z.ltb_spec x y); lia.
  - cbn [app inversions]. rewrite !smaller_after_app.
    cbn [smaller_after]. lia.
Qed.

Lemma even_step (a b : Z) :
  a = b + 1 \/ a + 1 = b -> Z.even a = negb (Z.even b).
Proof.
  intros [->| <-].
  - rewrite Z.add_1_r, Z.even_succ, <- Z.negb_even. reflexivity.
  - rewrite Z.add_1_r, Z.even_succ, <- Z.negb_even, negb_involutive.
    reflexivity.
Qed.

(** Taking [v] from behind [m] to the front of it exchanges [v] with every
    element of [m]. *)
Lemma inversions_move_across (m A B : list Z) (v : Z) :
  Forall (fun x => x <> v) m ->
  Z.even (inversions (A ++ m ++ v :: B))
  = xorb (Z.odd (len m)) (Z.even (inversions (A ++ v :: m ++ B))).
Proof.
  unfold len. intro Hm. revert A.
  induction Hm as [|x m Hx _ IH]; intro A.
  - cbn [app length]. reflexivity.
  - cbn [app length].
    replace (A ++ x :: m ++ v :: B) with ((A ++ [x]) ++ m ++ v :: B)
      by (rewrite <- app_assoc; reflexivity).
    rewrite IH. rewrite <- app_assoc. cbn [app].
    rewrite (even_step _ _ (inversions_swap_adjacent A (m ++ B) x v Hx)).
    rewrite Nat2Z.inj_succ, Z.odd_succ, <- (Z.negb_odd (Z.of_nat (length m))).
    destruct (Z.odd (Z.of_nat (length m))),
      (Z.even (inversions (A ++ v :: x :: m ++ B))); reflexivity.
Qed.

(** ** The two cells of a move, as places of the list *)

Lemma update_middle (l1 l2 : list Z) (x v : Z) :
  update (l1 ++ x :: l2) (length l1) v = l1 ++ v :: l2.
Proof.
  induction l1 as [|y t IH]; simpl; [reflexivity|]. rewrite IH. reflexivity.
Qed.

(** The list around two of its places [i < j]. *)
Lemma split_two (l : list Z) (i j : nat) :
  (i < j)%nat -> (j < length l)%nat ->
  exists l1 m l2,
    l = l1 ++ nth i l 0 :: m ++ nth j l 0 :: l2
    /\ length l1 = i /\ length m = (j - i - 1)%nat.
Proof.
  intros Hij Hj.
  destruct (nth_split l 0 (n := i)) as [l1 [r [E1 Hl1]]]; [lia|].
  assert (Hr : (j - i - 1 < length r)%nat).
  { rewrite E1 in Hj. rewrite length_app in Hj. simpl in Hj. lia. }
  destruct (nth_split r 0 Hr) as [m [l2 [E2 Hm]]].
  assert (Hnj : nth j l 0 = nth (j - i - 1) r 0).
  { set (x := nth i l 0) in E1. rewrite E1.
    rewrite app_nth2 by lia. rewrite Hl1.
    remember (j - i - 1)%nat as k eqn:Ek.
    replace (j - i)%nat with (S k) by lia. reflexivity. }
  exists l1, m, l2. rewrite Hnj, <- E2. auto.
Qed.

Lemma nth_second (l1 m l2 : list Z) (a v : Z) :
  nth (length l1 + 1 + length m) (l1 ++ a :: m ++ v :: l2) 0 = v.
Proof.
  change (l1 ++ a :: m ++ v :: l2) with (l1 ++ (a :: m) ++ v :: l2).
  rewrite app_assoc.
  replace (length l1 + 1 + length m)%nat with (length (l1 ++ a :: m))
    by (rewrite length_app; simpl; lia).
  apply nth_middle.
Qed.

Lemma update_second (l1 m l2 : list Z) (a c x : Z) :
  update (l1 ++ a :: m ++ c :: l2) (length l1 + 1 + length m) x
  = l1 ++ a :: m ++ x :: l2.
Proof.
  change (l1 ++ a :: m ++ c :: l2) with (l1 ++ (a :: m) ++ c :: l2).
  rewrite app_assoc.
  replace (length l1 + 1 + length m)%nat with (length (l1 ++ a :: m))
    by (rewrite length_app; simpl; lia).
  rewrite update_middle. rewrite <- app_assoc. reflexivity.
Qed.

Lemma swap_blank_after (l1 m l2 : list Z) (v : Z) :
  swap_blank (l1 ++ 0 :: m ++ v :: l2) (len l1) (len l1 + 1 + len m)
  = l1 ++ v :: m ++ 0 :: l2.
Proof.
  unfold swap_blank, len. rewrite Nat2Z.id.
  replace (Z.to_nat (Z.of_nat (length l1) + 1 + Z.of_nat (length m)))
    with (length l1 + 1 + length m)%nat by lia.
  rewrite nth_second, update_middle, update_second. reflexivity.
Qed.

Lemma swap_blank_before (l1 m l2 : list Z) (v : Z) :
  swap_blank (l1 ++ v :: m ++ 0 :: l2) (len l1 + 1 + len m) (len l1)
  = l1 ++ 0 :: m ++ v :: l2.
Proof.
  unfold swap_blank, len. rewrite Nat2Z.id.
  replace (Z.to_nat (Z.of_nat (length l1) + 1 + Z.of_nat (length m)))
    with (length l1 + 1 + length m)%nat by lia.
  rewrite nth_middle, update_second, update_middle. reflexivity.
Qed.


Lemma blank_index_None (l : list Z) :
  list_count l 0 = 0 -> blank_index l = None.
Proof.
  induction l as [|v t IH]; simpl; intro H; [reflexivity|].
  pose proof (list_count_nonneg t 0).
  destruct (v =? 0); [lia|]. rewrite IH by lia. reflexivity.
Qed.

Lemma filter_app_tile (l1 r : list Z) (v : Z) :
  v <> 0 ->
  filter (fun x => negb (x =? 0)) (l1 ++ v :: r)
  = filter (fun x => negb (x =? 0)) l1 ++ v :: filter (fun x => negb (x =? 0)) r.
Proof.
  intro Hv. rewrite filter_app. cbn [filter].
  destruct (Z.eqb_spec v 0); [contradiction | reflexivity].
Qed.

Lemma filter_app_blank (l1 r : list Z) :
  filter (fun x => negb (x =? 0)) (l1 ++ 0 :: r)
  = filter (fun x => negb (x =? 0)) l1 ++ filter (fun x => negb (x =? 0)) r.
Proof. rewrite filter_app. reflexivity. Qed.

(** What is around the blank and the tile of a move: no other blank, and
    the tile nowhere between the two. *)
Lemma around_the_move (l1 m l2 a c : list Z) (v : Z) :
  list_count (l1 ++ a ++ m ++ c ++ l2) 0 = 1 ->
  NoDup (l1 ++ a ++ m ++ c ++ l2) ->
  (a = [0] /\ c = [v]) \/ (a = [v] /\ c = [0]) ->
  list_count l1 0 = 0 /\ list_count m 0 = 0 /\ list_count l2 0 = 0
  /\ v <> 0 /\ Forall (fun x => x <> v) m.
Proof.
  intros Hc Hnd Hac.
  rewrite !list_count_app in Hc.
  pose proof (list_count_nonneg l1 0). pose proof (list_count_nonneg m 0).
  pose proof (list_count_nonneg l2 0).
  assert (Hm : Forall (fun x => x <> v) m).
  { apply Forall_forall. intros x Hx ->.
    apply NoDup_app_remove_l in Hnd.
    destruct Hac as [[-> ->]|[-> ->]].
    - cbn [app] in Hnd. inversion Hnd as [|? ? _ Hnd']; subst.
      apply NoDup_remove_2 in Hnd'. apply Hnd'. apply in_or_app. auto.
    - cbn [app] in Hnd. inversion Hnd as [|? ? Hn _]; subst.
      apply Hn. apply in_or_app. auto. }
  destruct Hac as [[-> ->]|[-> ->]]; cbn [list_count] in Hc;
    rewrite Z.eqb_refl in Hc;
    destruct (Z.eqb_spec v 0) as [Ev|Ev];
    (split; [lia|split; [lia|split; [lia|split; [lia | exact Hm]]]]).
Qed.

(** The parity of the inversions after a move, and the place of the blank. *)
Lemma swap_blank_inversions (fl : list Z) (b t : Z) :
  list_count fl 0 = 1 -> NoDup fl ->
  0 <= b < len fl -> 0 <= t < len fl -> b <> t ->
  nth (Z.to_nat b) fl 0 = 0 ->
  blank_index (swap_blank fl b t) = Some t
  /\ Z.even (inversions (filter (fun x => negb (x =? 0)) (swap_blank fl b t)))
     = xorb (Z.odd (Z.abs (t - b) - 1))
         (Z.even (inversions (filter (fun x => negb (x =? 0)) fl))).
Proof.
  unfold len. intros Hc Hnd Hb Ht Hbt H0.
  destruct (Z.lt_ge_cases b t) as [Hlt|Hge].
  - destruct (split_two fl (Z.to_nat b) (Z.to_nat t)) as [l1 [m [l2 [E [Hl1 Hm]]]]];
      [lia | lia |].
    rewrite H0 in E. set (v := nth (Z.to_nat t) fl 0) in *.
    destruct (around_the_move l1 m l2 [0] [v] v) as [C1 [Cm [C2 [Hv HF]]]];
      [cbn [app]; rewrite <- E; exact Hc | cbn [app]; rewrite <- E; exact Hnd
       | auto |].
    replace b with (len l1) by (unfold len; lia).
    replace t with (len l1 + 1 + len m) by (unfold len; lia).
    rewrite E, swap_blank_after. split.
    + rewrite blank_index_app, (blank_index_None _ C1). cbn [blank_index].
      destruct (Z.eqb_spec v 0); [contradiction|].
      rewrite blank_index_app, (blank_index_None _ Cm). cbn [blank_index Z.eqb].
      f_equal. lia.
    + rewrite (filter_app_tile l1 (m ++ 0 :: l2) v Hv), (filter_app_blank m l2).
      rewrite (filter_app_blank l1 (m ++ v :: l2)), (filter_app_tile m l2 v Hv).
      rewrite (list_count_zero_filter m Cm).
      rewrite (inversions_move_across m _ _ v HF).
      replace (Z.abs (len l1 + 1 + len m - len l1) - 1) with (len m)
        by (unfold len; lia).
      destruct (Z.odd (len m)), (Z.even (inversions _)); reflexivity.
  - destruct (split_two fl (Z.to_nat t) (Z.to_nat b)) as [l1 [m [l2 [E [Hl1 Hm]]]]];
      [lia | lia |].
    rewrite H0 in E. set (v := nth (Z.to_nat t) fl 0) in *.
    destruct (around_the_move l1 m l2 [v] [0] v) as [C1 [Cm [C2 [Hv HF]]]];
      [cbn [app]; rewrite <- E; exact Hc | cbn [app]; rewrite <- E; exact Hnd
       | auto |].
    replace t with (len l1) by (unfold len; lia).
    replace b with (len l1 + 1 + len m) by (unfold len; lia).
    rewrite E, swap_blank_before. split.
    + rewrite blank_index_app, (blank_index_None _ C1). cbn [blank_index Z.eqb].
      f_equal. lia.
    + rewrite (filter_app_blank l1 (m ++ v :: l2)), (filter_app_tile m l2 v Hv).
      rewrite (filter_app_tile l1 (m ++ 0 :: l2) v Hv), (filter_app_blank m l2).
      rewrite (list_count_zero_filter m Cm).
      rewrite (inversions_move_across m _ _ v HF).
      replace (Z.abs (len l1 - (len l1 + 1 + len m)) - 1) with (len m)
        by (unfold len; lia).
      reflexivity.
Qed.


(** The parity that [is_solvable] tests does not change along a move. *)
Lemma parity_even_move (w h : Z) (c : string) (fl fl' : list Z) :
  grid w h fl -> NoDup fl -> apply_move w h c fl = Some fl' ->
  parity_even w h fl' = parity_even w h fl.
Proof.
  intros Hg Hnd H.
  destruct (apply_move_legal _ _ _ _ _ Hg H) as [b [dx [dy [Hb [Hl ->]]]]].
  pose proof Hg as [Hw [Hh [Hlen Hc]]].
  pose proof (blank_index_range _ _ Hb) as [Hbr Hb0].
  pose proof (legal_index_range w h _ _ dx dy Hw Hl) as Ht.
  destruct (blank_coordinates w h b Hw) as [Hx Hy]; [lia|].
  assert (Hbt : b <> index (b mod w + dx) (b / w + dy) w).
  { rewrite <- (index_from_index w b) at 1 by lia.
    apply (legal_index_other w h); auto. }
  destruct (swap_blank_inversions fl b (index (b mod w + dx) (b / w + dy) w)
              Hc Hnd Hbr) as [Hbi Hinv]; [lia | exact Hbt | exact Hb0 |].
  unfold parity_even. rewrite Hbi, Hb. cbv zeta.
  rewrite !Z.even_add, Hinv.
  destruct Hl as [Hx' [Hy' Hd]].
  destruct (index_div_mod w (b mod w + dx) (b / w + dy) Hx') as [_ ->].
  assert (Et : index (b mod w + dx) (b / w + dy) w - b = dy * w + dx).
  { unfold index. pose proof (Z.div_mod b w). lia. }
  rewrite Et.
  set (e := Z.even (inversions (filter (fun x => negb (x =? 0)) fl))).
  assert (Hcases : (dx = 1 /\ dy = 0) \/ (dx = -1 /\ dy = 0)
                   \/ (dx = 0 /\ dy = 1) \/ (dx = 0 /\ dy = -1)) by lia.
  destruct Hcases as [[-> ->]|[[-> ->]|[[-> ->]|[-> ->]]]].
  - replace (Z.abs (0 * w + 1) - 1) with 0 by lia.
    rewrite Z.add_0_r. cbn [Z.odd xorb]. reflexivity.
  - replace (Z.abs (0 * w + -1) - 1) with 0 by lia.
    rewrite Z.add_0_r. cbn [Z.odd xorb]. reflexivity.
  - replace (Z.abs (1 * w + 0) - 1) with (w - 1) by lia.
    replace (h - (b / w + 1) - 1) with (h - b / w - 1 - 1) by lia.
    rewrite Z.odd_sub. rewrite !Z.even_sub.
    change (Z.odd 1) with true. change (Z.even 1) with false.
    destruct (Z.odd w), e, (Z.even h), (Z.even (b / w)); reflexivity.
  - replace (Z.abs (-1 * w + 0) - 1) with (w - 1) by lia.
    replace (h - (b / w + -1) - 1) with (h - b / w - 1 + 1) by lia.
    rewrite Z.odd_sub. rewrite !Z.even_add, !Z.even_sub.
    change (Z.odd 1) with true. change (Z.even 1) with false.
    destruct (Z.odd w), e, (Z.even h), (Z.even (b / w)); reflexivity.
Qed.

Lemma parity_even_moves (w h : Z) (ms : list string) (a b : list Z) :
  grid w h a -> NoDup a -> apply_moves w h ms a = Some b ->
  parity_even w h b = parity_even w h a.
Proof.
  revert a. induction ms as [|m ms IH]; simpl; intros a Hg Hnd H.
  - injection H as <-. reflexivity.
  - destruct (apply_move w h m a) as [a'|] eqn:E; [|discriminate].
    destruct (apply_move_grid _ _ _ _ _ Hg E) as [HP Hg'].
    rewrite (IH a' Hg' (Permutation_NoDup HP Hnd) H).
    apply (parity_even_move w h m); assumption.
Qed.

Lemma valid_configuration_NoDup (p : list (list Z)) :
  valid_configuration p = true -> NoDup (flatten p).
Proof.
  intro Hv.
  apply (Permutation_NoDup (valid_configuration_Permutation p Hv)).
  apply Finite.Injective_map_NoDup; [intros a b; lia | apply seq_NoDup].
Qed.

(** A valid configuration from which some move sequence leads to the goal
    passes the solvability check. *)
Lemma reachable_goal_is_solvable (p : list (list Z)) (ms : list string) :
  valid_configuration p = true ->
  apply_moves (len (hd [] p)) (len p) ms (flatten p)
  = Some (goal_configuration (length (flatten p))) ->
  is_solvable p = Ret true.
Proof.
  intros Hv Hms.
  pose proof (valid_configuration_grid p Hv) as Hg.
  pose proof Hg as [Hw [Hh [Hlen Hc]]].
  rewrite (is_solvable_flat p Hv).
  rewrite <- (parity_even_moves _ _ ms _ _ Hg (valid_configuration_NoDup p Hv) Hms).
  replace (length (flatten p)) with (Z.to_nat (len (hd [] p) * len p))
    by (unfold len in *; lia).
  rewrite parity_even_goal; auto.
Qed.


Lemma dict_set_new (d : dict) (k : State) (v : option State) :
  dict_contains d (Some k) = false -> dict_set d k v = d ++ [(k, v)].
Proof.
  unfold dict_contains, dict_lookup. intro H.
  induction d as [|[k' v'] d IH]; [reflexivity|].
  cbn [find fst] in H. cbn [dict_set app].
  destruct (State_eq k' (Some k)); [discriminate|].
  rewrite IH by exact H. reflexivity.
Qed.

(** ** Traces through the closed list *)

Lemma trace_more (w h : Z) (init : list Z) (d d' : dict) (k : State)
    (ms : list string) :
  incl d d' -> trace w h init d k ms -> trace w h init d' k ms.
Proof.
  intros Hi Ht. induction Ht as [k Hin Hf|k p ms Hin _ IH Hm].
  - apply trace_start; auto.
  - apply trace_move with (p := p); auto.
Qed.

Lemma trace_moves (w h : Z) (init : list Z) (d : dict) (k : State)
    (ms : list string) :
  trace w h init d k ms -> apply_moves w h ms init = Some (flat k).
Proof.
  induction 1 as [k Hin Hf|k p ms Hin _ IH Hm].
  - simpl. congruence.
  - apply (apply_moves_snoc w h ms _ init (flat p)); assumption.
Qed.


(** ** The heuristic along a move sequence *)

Lemma manhattan_moves (w h : Z) (ms : list string) (a b : list Z) :
  grid w h a -> apply_moves w h ms a = Some b ->
  manhattan w a <= len ms + manhattan w b.
Proof.
  unfold len. revert a.
  induction ms as [|m ms IH]; cbn [apply_moves length]; intros a Hg H.
  - injection H as <-. lia.
  - destruct (apply_move w h m a) as [a'|] eqn:E; [|discriminate].
    destruct (apply_move_grid _ _ _ _ _ Hg E) as [_ Hg'].
    pose proof (apply_move_manhattan _ _ _ _ _ Hg E).
    specialize (IH a' Hg' H). lia.
Qed.

Lemma closed_has_dec (d : dict) (fl : list Z) :
  closed_has d fl \/ ~ closed_has d fl.
Proof.
  unfold closed_has. induction d as [|kv d IH].
  - right. intros [x [[] _]].
  - destruct (list_eq_dec Z.eq_dec (flat (fst kv)) fl) as [E|E].
    + left. exists kv. split; [left; reflexivity | exact E].
    + destruct IH as [[x [Hx Hf]]|IH].
      * left. exists x. split; [right; exact Hx | exact Hf].
      * right. intros [x [[<-|Hx] Hf]]; [contradiction|].
        apply IH. exists x. auto.
Qed.

Lemma apply_moves_snoc_inv (w h : Z) (ms : list string) (m : string)
    (a t : list Z) :
  apply_moves w h (ms ++ [m]) a = Some t ->
  exists u, apply_moves w h ms a = Some u /\ apply_move w h m u = Some t.
Proof.
  rewrite apply_moves_app. intro H.
  destruct (apply_moves w h ms a) as [u|]; [|discriminate].
  exists u. split; [reflexivity|]. simpl in H.
  destruct (apply_move w h m u); [exact H | discriminate].
Qed.

(** ** The frontier *)

(** Every move sequence from the start to a state that is not closed
    passes an entry of the open list that was reached by no more moves. *)
Lemma frontier_entry (w h : Z) (init : list Z) (l : loop_state)
    (ms : list string) (t : list Z) :
  astar_inv w h init l ->
  apply_moves w h ms init = Some t ->
  ~ closed_has (closed_list l) t ->
  exists e ms1 ms2,
    In e (open_list l) /\ ms = ms1 ++ ms2
    /\ apply_moves w h ms2 (flat (e_state e)) = Some t
    /\ e_g e <= len ms1.
Proof.
  intros [Hb [Hnd [Hcl [Hop [Hfr Hinit]]]]]. revert t.
  induction ms as [|m ms IH] using rev_ind; intros t Hms Hnc.
  - simpl in Hms. injection Hms as <-.
    destruct Hinit as [Hc|[e [Ho [[_ [_ [Hg _]]] [Hf _]]]]]; [contradiction|].
    exists e, [], []. rewrite Ho. repeat split.
    + left. reflexivity.
    + simpl. congruence.
    + unfold len. simpl. lia.
  - destruct (apply_moves_snoc_inv _ _ _ _ _ _ Hms) as [u [Hu Hm]].
    destruct (closed_has_dec (closed_list l) u) as [[kv [Hin Hf]]|Hnu].
    + rewrite Forall_forall in Hfr.
      destruct (Hfr kv Hin m t) as [Hc|[e [He [Het [_ Hopt]]]]];
        [rewrite Hf; exact Hm | contradiction |].
      exists e, (ms ++ [m]), []. rewrite app_nil_r. repeat split; auto.
      * simpl. congruence.
      * rewrite Hf in Hopt. specialize (Hopt ms Hu).
        rewrite len_app. unfold len at 2. simpl. lia.
    + destruct (IH u Hu Hnu) as [e [ms1 [ms2 [He [E [H2 Hg]]]]]].
      exists e, ms1, (ms2 ++ [m]). repeat split; auto.
      * rewrite E, app_assoc. reflexivity.
      * apply (apply_moves_snoc w h ms2 m _ u); assumption.
Qed.

(** The popped entry of a state that is not closed has reached it by a
    shortest move sequence. *)
Lemma pop_optimal (w h : Z) (init : list Z) (l : loop_state) (e : entry)
    (rest : list entry) :
  astar_inv w h init l ->
  heappop (open_list l) = Some (e, rest) ->
  ~ closed_has (closed_list l) (flat (e_state e)) ->
  optimal w h init (flat (e_state e)) (e_g e).
Proof.
  intros Hinv Hpop Hnc ms Hms.
  destruct (frontier_entry w h init l ms _ Hinv Hms Hnc)
    as [e' [ms1 [ms2 [He' [E [H2 Hg']]]]]].
  pose proof (heappop_least _ _ _ Hpop e' He') as Hle.
  destruct Hinv as [[_ [HF _]] [_ [_ [Hop _]]]].
  rewrite Forall_forall in HF, Hop.
  assert (He : In e (open_list l)).
  { apply (Permutation_in _ (Permutation_sym (heappop_Permutation _ _ _ Hpop))).
    left. reflexivity. }
  destruct (HF e He) as [_ [_ [_ [_ Hk]]]].
  destruct (HF e' He') as [[_ [Hgrid' _]] [_ [_ [_ Hk']]]].
  assert (Hlen : len ms = len ms1 + len ms2) by (rewrite E; apply len_app).
  assert (0 <= len ms1) by (unfold len; lia).
  assert (0 <= len ms2) by (unfold len; lia).
  destruct Hk as [[_ [_ [Hg0 _]]]|[Hp [Hf _]]]; [lia|].
  destruct (Hop e' He') as [[[Hp' _] [_ [_ Ho]]]|[[_ [Hf' _]] _]].
  - rewrite Ho in He. destruct He as [<-|[]]. contradiction.
  - pose proof (manhattan_moves w h ms2 _ _ Hgrid' H2) as Hh.
    unfold entry_ltb in Hle.
    destruct (Z.ltb_spec (e_f e') (e_f e)); [discriminate|]. lia.
Qed.


(** ** What a round pushes *)

Section Pushed.

Variables (w h : Z) (closed : dict) (active : State) (dist : Z).

Lemma push_child_entries (io : Z * list entry) (c : string) :
  let io' := push_child w h closed active dist io c in
  incl (snd io) (snd io')
  /\ (forall e, In e (snd io') ->
                In e (snd io) \/ child_entry w h closed active dist e)
  /\ (forall fl, apply_move w h c (flat active) = Some fl ->
                 dict_contains closed (Some (child_state w c fl)) = true
                 \/ exists e, In e (snd io')
                              /\ child_entry w h closed active dist e
                              /\ e_state e = child_state w c fl)
  /\ (length (snd io') <= S (length (snd io)))%nat.
Proof.
  cbv zeta. unfold push_child.
  destruct (apply_move w h c (flat active)) as [fl|] eqn:E.
  - destruct (dict_contains closed (Some (child_state w c fl))) eqn:Ec.
    + split; [apply incl_refl|]. split; [auto|].
      split; [|lia]. intros fl' Hfl. injection Hfl as <-. left. exact Ec.
    + cbn [snd]. split; [apply incl_tl, incl_refl|].
      assert (Hchild : child_entry w h closed active dist
                {| e_f := dist + 1 + manhattan w fl; e_g := dist + 1;
                   e_i := fst io + 1; e_state := child_state w c fl;
                   e_prev := Some active |}).
      { exists c, fl. repeat split; auto. }
      split; [|split].
      * intros e [<-|He]; [right; exact Hchild | left; exact He].
      * intros fl' Hfl. injection Hfl as <-. right.
        eexists. split; [left; reflexivity|]. split; [exact Hchild | reflexivity].
      * simpl. lia.
  - split; [apply incl_refl|]. split; [auto|]. split; [|lia].
    intros fl' Hfl. discriminate.
Qed.

Lemma expand_entries (io : Z * list entry) :
  let io' := expand w h closed active dist io in
  incl (snd io) (snd io')
  /\ (forall e, In e (snd io') ->
                In e (snd io) \/ child_entry w h closed active dist e)
  /\ (forall c fl, apply_move w h c (flat active) = Some fl ->
                   dict_contains closed (Some (child_state w c fl)) = true
                   \/ exists e, In e (snd io')
                                /\ child_entry w h closed active dist e
                                /\ e_state e = child_state w c fl)
  /\ (length (snd io') <= length (snd io) + 4)%nat.
Proof.
  cbv zeta. unfold expand. cbn [fold_left].
  set (io1 := push_child w h closed active dist io "U").
  set (io2 := push_child w h closed active dist io1 "D").
  set (io3 := push_child w h closed active dist io2 "L").
  destruct (push_child_entries io "U") as [A1 [B1 [C1 D1]]]. fold io1 in A1, B1, C1, D1.
  destruct (push_child_entries io1 "D") as [A2 [B2 [C2 D2]]]. fold io2 in A2, B2, C2, D2.
  destruct (push_child_entries io2 "L") as [A3 [B3 [C3 D3]]]. fold io3 in A3, B3, C3, D3.
  destruct (push_child_entries io3 "R") as [A4 [B4 [C4 D4]]].
  split; [|split; [|split]].
  - intros e He. auto.
  - intros e He.
    destruct (B4 e He) as [H4|H4]; [|auto].
    destruct (B3 e H4) as [H3|H3]; [|auto].
    destruct (B2 e H3) as [H2|H2]; [|auto].
    exact (B1 e H2).
  - intros c fl Hfl.
    destruct (apply_move_char _ _ _ _ _ Hfl) as [ -> | [ -> | [ -> | -> ] ] ].
    + destruct (C1 fl Hfl) as [H|[e [He Hc]]]; [auto|].
      right. exists e. split; [auto | exact Hc].
    + destruct (C2 fl Hfl) as [H|[e [He Hc]]]; [auto|].
      right. exists e. split; [auto | exact Hc].
    + destruct (C3 fl Hfl) as [H|[e [He Hc]]]; [auto|].
      right. exists e. split; [auto | exact Hc].
    + destruct (C4 fl Hfl) as [H|[e [He Hc]]]; [auto|].
      right. exists e. split; [auto | exact Hc].
  - lia.
Qed.

End Pushed.


(** ** The start of the search, and lists *)

Section Rounds.

Variables (w h : Z) (init : list Z).

Lemma closed_has_more (d : dict) (kv : State * option State) (fl : list Z) :
  closed_has d fl -> closed_has (d ++ [kv]) fl.
Proof.
  intros [x [Hx Hf]]. exists x. split; [apply in_or_app; auto | exact Hf].
Qed.

Lemma astar_inv_initial (s0 : State) :
  good_state w h init s0 -> flat s0 = init ->
  astar_inv w h init (initial_loop s0).
Proof.
  intros Hs Hf. unfold astar_inv, initial_loop.
  cbn [counter closed_list open_list].
  split; [apply (basic_inv_initial w h init s0 Hs Hf)|].
  split; [constructor|]. split; [constructor|].
  split; [|split; [constructor|]].
  - constructor; [|constructor]. left. repeat split. exact Hf.
  - right. eexists. split; [reflexivity|]. repeat split. exact Hf.
Qed.

Lemma NoDup_snoc {A : Type} (l : list A) (x : A) :
  NoDup l -> ~ In x l -> NoDup (l ++ [x]).
Proof.
  intros Hl Hx. apply (Permutation_NoDup (Permutation_cons_append l x)).
  constructor; assumption.
Qed.

Lemma in_words (alphabet l : list Z) :
  incl l alphabet -> In l (words alphabet (length l)).
Proof.
  induction l as [|a t IH]; intro Hi; cbn [length words].
  - left. reflexivity.
  - apply in_flat_map. exists t. split.
    + apply IH. intros x Hx. apply Hi. right. exact Hx.
    + apply in_map_iff. exists a. split; [reflexivity|]. apply Hi. left. reflexivity.
Qed.

End Rounds.


(** * Further properties of the operations *)

(** ** [is_solvable] and [solve] on data without a blank *)

Lemma list_remove_In (l : list Z) (x : Z) :
  In x l -> exists l', list_remove l x = Ret l'.
Proof.
  induction l as [|y t IH]; [contradiction|]. intro H. cbn [list_remove].
  destruct (Z.eqb_spec y x) as [E|N]; [eexists; reflexivity|].
  destruct H as [H|H]; [contradiction|].
  destruct (IH H) as [l' ->]. eexists. reflexivity.
Qed.

Lemma list_remove_not_In (l : list Z) (x : Z) :
  ~ In x l -> list_remove l x = Raise ValueError.
Proof.
  induction l as [|y t IH]; [reflexivity|]. intro H. cbn [list_remove].
  destruct (Z.eqb_spec y x) as [E|N]; [exfalso; apply H; left; exact E|].
  rewrite IH; [reflexivity|]. intro Hin. apply H. right. exact Hin.
Qed.

(** [is_solvable] returns a boolean on every list of rows that holds a
    [0], also on rows of different lengths, and it raises [ValueError],
    from [flat.remove(0)], on every one that holds none: the empty list and
    lists of empty rows are among these. *)
Theorem is_solvable_needs_a_blank (puzzle_data : list (list Z)) :
  ((exists b, is_solvable puzzle_data = Ret b) <-> In 0 (flatten puzzle_data))
  /\ (is_solvable puzzle_data = Raise ValueError
      <-> ~ In 0 (flatten puzzle_data)).
Proof.
  assert (Hyes : In 0 (flatten puzzle_data) ->
                 exists b, is_solvable puzzle_data = Ret b).
  { intro Hin. unfold is_solvable.
    destruct (list_remove_In _ _ Hin) as [l' ->]. cbn [bind].
    destruct puzzle_data as [|row0 rest]; [contradiction|].
    cbn [first_row bind].
    destruct (len row0 mod 2 =? 1); eexists; reflexivity. }
  assert (Hno : ~ In 0 (flatten puzzle_data) ->
                is_solvable puzzle_data = Raise ValueError).
  { intro Hn. unfold is_solvable. rewrite (list_remove_not_In _ _ Hn).
    reflexivity. }
  split; split.
  - intros [b Hb]. destruct (in_dec Z.eq_dec 0 (flatten puzzle_data)) as [Hin|Hn];
      [exact Hin|].
    rewrite (Hno Hn) in Hb. discriminate.
  - exact Hyes.
  - intros Hr Hin. destruct (Hyes Hin) as [b Hb]. congruence.
  - exact Hno.
Qed.

(** [solve] raises the [ValueError] of [is_solvable] on data without a
    [0], whatever the fuel: no state is built. *)
Theorem solve_needs_a_blank (puzzle_data : list (list Z)) (fuel : nat) :
  ~ In 0 (flatten puzzle_data) -> solve fuel puzzle_data = Raise ValueError.
Proof.
  intro Hn. unfold solve, is_solvable.
  rewrite (list_remove_not_In _ _ Hn). reflexivity.
Qed.

(** ** The parity test along moves *)

(** Two valid configurations of one shape that a move sequence connects
    get the same answer of [is_solvable]. *)
Theorem is_solvable_along_moves (p q : list (list Z)) (ms : list string) :
  valid_configuration p = true -> valid_configuration q = true ->
  len q = len p -> len (hd [] q) = len (hd [] p) ->
  apply_moves (len (hd [] p)) (len p) ms (flatten p) = Some (flatten q) ->
  is_solvable q = is_solvable p.
Proof.
  intros Hp Hq Hh Hw Hms.
  rewrite (is_solvable_flat p Hp), (is_solvable_flat q Hq), Hh, Hw.
  f_equal.
  apply (parity_even_moves _ _ ms); [|apply valid_configuration_NoDup|]; auto.
  apply valid_configuration_grid. exact Hp.
Qed.

(** When [is_solvable] answers no on a valid configuration, no move
    sequence leads from it to the goal: the early "no solution" of [solve]
    is never wrong. *)
Theorem is_solvable_false_no_moves (p : list (list Z)) (ms : list string) :
  valid_configuration p = true ->
  is_solvable p = Ret false ->
  apply_moves (len (hd [] p)) (len p) ms (flatten p)
  <> Some (goal_configuration (length (flatten p))).
Proof.
  intros Hv Hf Hms.
  rewrite (reachable_goal_is_solvable p ms Hv Hms) in Hf. discriminate.
Qed.

(** ** [index] and [from_index] *)

(** For a positive width the two are inverse to each other: every index
    has coordinates with [0 <= x < width] that [index] maps back to it, and
    the coordinates of [index x y width] are [(x, y)] when [x] is a column
    of the grid. *)
Theorem index_round_trip (width : Z) :
  0 < width ->
  (forall idx, exists x y, from_index idx width = Ret (x, y)
                           /\ 0 <= x < width /\ index x y width = idx)
  /\ (forall x y, 0 <= x < width ->
                  from_index (index x y width) width = Ret (x, y)).
Proof.
  intro Hw. split.
  - intro idx. exists (idx mod width), (idx / width).
    split; [apply from_index_value; lia|].
    split; [apply Z.mod_pos_bound; exact Hw | apply index_from_index; lia].
  - intros x y Hx. rewrite from_index_value by lia.
    destruct (index_div_mod width x y Hx) as [-> ->]. reflexivity.
Qed.

(** ** The cache of [score] *)

Lemma score_loop_grows (w : Z) (cells : list Z) (i acc v : Z) :
  score_loop w cells i acc = Ret v -> acc <= v.
Proof.
  revert i acc. induction cells as [|c t IH]; intros i acc H; cbn [score_loop] in H.
  - injection H as <-. lia.
  - destruct (c =? 0); [apply (IH _ _ H)|].
    destruct (w =? 0); [discriminate|].
    apply IH in H. lia.
Qed.

(** A call of [score] that returns has the score cached: the state it
    leaves has the same flat sequence, and every later call on it returns
    the same value and leaves it as it is, whatever width it is given. *)
Theorem score_is_cached (s s' : State) (width v : Z) :
  score s width = Ret (v, s') ->
  flat s' = flat s /\ _score s' = v
  /\ forall width', score s' width' = Ret (v, s').
Proof.
  unfold score. intro H.
  destruct (Z.eqb_spec (_score s) (-1)) as [E|N].
  - destruct (score_loop width (flat s) 0 0) as [r| |] eqn:El; try discriminate.
    cbn [bind] in H. injection H as <- <-. cbn [flat _score].
    split; [reflexivity|]. split; [reflexivity|]. intro width'.
    apply score_loop_grows in El.
    destruct (Z.eqb_spec r (-1)) as [E'|_]; [lia | reflexivity].
  - injection H as <- <-. split; [reflexivity|]. split; [reflexivity|].
    intro width'. destruct (Z.eqb_spec (_score s) (-1)); [contradiction|reflexivity].
Qed.

Lemma score_loop_blanks (w : Z) (cells : list Z) (i acc : Z) :
  Forall (fun v => v = 0) cells -> score_loop w cells i acc = Ret acc.
Proof.
  intro H. revert i. induction H as [|c t -> _ IH]; intro i; [reflexivity|].
  cbn [score_loop Z.eqb]. apply IH.
Qed.

Lemma manhattan_from_blanks (w : Z) (cells : list Z) (i : Z) :
  Forall (fun v => v = 0) cells -> manhattan_from w i cells = 0.
Proof.
  intro H. revert i. induction H as [|c t -> _ IH]; intro i; [reflexivity|].
  cbn [manhattan_from]. rewrite IH. reflexivity.
Qed.

Lemma score_loop_zero_width (cells : list Z) (i acc : Z) :
  Exists (fun v => v <> 0) cells ->
  score_loop 0 cells i acc = Raise ZeroDivisionError.
Proof.
  intro H. revert i. induction H as [c t Hc|c t _ IH]; intro i; cbn [score_loop].
  - destruct (Z.eqb_spec c 0); [contradiction | reflexivity].
  - destruct (c =? 0); [apply IH | reflexivity].
Qed.

(** [score] on a state whose score is not cached: with a width other than
    [0], or with nothing but blanks, it returns the Manhattan sum and caches
    it; with the width [0] and a tile it raises [ZeroDivisionError]. *)
Theorem score_uncached (s : State) (width : Z) :
  _score s = -1 ->
  (width <> 0 \/ Forall (fun v => v = 0) (flat s) ->
   score s width
   = Ret (manhattan width (flat s),
          {| flat := flat s; moveChar := moveChar s; _hash := _hash s;
             _score := manhattan width (flat s) |}))
  /\ (width = 0 -> Exists (fun v => v <> 0) (flat s) ->
      score s width = Raise ZeroDivisionError).
Proof.
  intro Hu. unfold score. rewrite Hu. cbn [Z.eqb Pos.eqb]. split.
  - intros [Hw|Hb].
    + rewrite (score_loop_manhattan width (flat s) 0 0 Hw). reflexivity.
    + rewrite (score_loop_blanks width (flat s) 0 0 Hb).
      unfold manhattan. rewrite (manhattan_from_blanks width (flat s) 0 Hb).
      reflexivity.
  - intros -> He. rewrite (score_loop_zero_width (flat s) 0 0 He). reflexivity.
Qed.

(** ** The score as a heuristic *)

(** The goal test of [solve] is exact: on a valid configuration [score]
    returns [0] for the goal [1, 2, ..., n-1, 0] and for nothing else. *)
Theorem score_zero_iff_goal (p : list (list Z)) :
  valid_configuration p = true ->
  exists v s,
    score (make_state p) (len (hd [] p)) = Ret (v, s)
    /\ (v = 0 <-> flatten p = goal_configuration (length (flatten p))).
Proof.
  intro Hv. pose proof (valid_configuration_grid p Hv) as [Hw [Hh [Hl Hc]]].
  rewrite score_make_state by lia. do 2 eexists. split; [reflexivity|].
  split.
  - intro Hz. apply (manhattan_zero_goal (len (hd [] p))); auto.
    + unfold len in *. destruct (flatten p); [simpl in Hl; lia | simpl; lia].
    + apply valid_configuration_Permutation. exact Hv.
  - intros ->. apply manhattan_goal. exact Hw.
Qed.

(** The score never overestimates: on a valid configuration it is at most
    the length of any move sequence that leads to the goal. *)
Theorem score_admissible (p : list (list Z)) (ms : list string) :
  valid_configuration p = true ->
  apply_moves (len (hd [] p)) (len p) ms (flatten p)
  = Some (goal_configuration (length (flatten p))) ->
  exists v s,
    score (make_state p) (len (hd [] p)) = Ret (v, s) /\ v <= len ms.
Proof.
  intros Hv Hms. pose proof (valid_configuration_grid p Hv) as Hg.
  pose proof Hg as [Hw _].
  rewrite score_make_state by lia. do 2 eexists. split; [reflexivity|].
  pose proof (manhattan_moves _ _ ms _ _ Hg Hms) as H.
  rewrite manhattan_goal in H by exact Hw. lia.
Qed.


(** ** [State.move]: the score, the way back, the subscripts *)

Lemma tile_distance_neighbour (w h v x y dx dy : Z) :
  0 < w -> 0 <= x < w -> legal w h x y dx dy ->
  Z.abs (tile_distance w v (index (x + dx) (y + dy) w)
         - tile_distance w v (index x y w)) = 1.
Proof.
  unfold legal. intros Hw Hx [Hx' [Hy' Hd]].
  unfold tile_distance.
  destruct (index_div_mod w x y Hx) as [-> ->].
  destruct (index_div_mod w (x + dx) (y + dy) Hx') as [-> ->].
  lia.
Qed.

(** A move on the grid changes the score by one, up or down: [move]
    returns, and the score it leaves differs by exactly [1] from the one
    it found. *)
Theorem move_changes_score_by_one (w h : Z) (s : State) (c : string)
    (b dx dy : Z) :
  grid w h (flat s) -> blank_index (flat s) = Some b ->
  legal w h (b mod w) (b / w) dx dy ->
  exists s', move s c (b mod w) (b / w) dx dy w = Ret s'
             /\ Z.abs (_score s' - _score s) = 1.
Proof.
  intros Hg Hb Hl. pose proof Hg as [Hw _].
  pose proof (move_legal w h s c b dx dy Hg Hb Hl) as Hm. cbv zeta in Hm.
  eexists. split; [exact Hm|]. cbn [_score].
  pose proof (tile_distance_neighbour w h
                (nth (Z.to_nat (index (b mod w + dx) (b / w + dy) w)) (flat s) 0)
                (b mod w) (b / w) dx dy Hw
                (Z.mod_pos_bound b w Hw) Hl) as Hs.
  rewrite index_from_index in Hs by lia. lia.
Qed.

Lemma swap_blank_back (fl : list Z) (b t : Z) :
  0 <= b < len fl -> 0 <= t < len fl -> b <> t ->
  nth (Z.to_nat b) fl 0 = 0 ->
  swap_blank (swap_blank fl b t) t b = fl.
Proof.
  intros Hb Ht Hbt H0. unfold len in *.
  assert (Hn : Z.to_nat b <> Z.to_nat t) by lia.
  apply (nth_ext _ _ 0 0); [rewrite !swap_blank_length; reflexivity|].
  rewrite !swap_blank_length. intros n Hlt. unfold swap_blank.
  destruct (Nat.eq_dec n (Z.to_nat b)) as [->|Nb].
  - rewrite nth_update_same by (rewrite !update_length; lia). auto.
  - rewrite (nth_update_other _ (Z.to_nat b) n) by auto.
    destruct (Nat.eq_dec n (Z.to_nat t)) as [->|Nt].
    + rewrite nth_update_same by (rewrite !update_length; lia).
      rewrite (nth_update_other _ (Z.to_nat t) (Z.to_nat b)) by auto.
      rewrite nth_update_same by lia. reflexivity.
    + rewrite !(nth_update_other _ (Z.to_nat t) n) by auto.
      rewrite (nth_update_other _ (Z.to_nat b) n) by auto. reflexivity.
Qed.

(** A move on the grid is undone by the move in the opposite direction
    from the new place of the blank: the flat sequence and the score are
    the ones before the two moves. *)
Theorem move_and_back (w h : Z) (s s1 : State) (c c' : string) (b dx dy : Z) :
  grid w h (flat s) -> blank_index (flat s) = Some b ->
  legal w h (b mod w) (b / w) dx dy ->
  move s c (b mod w) (b / w) dx dy w = Ret s1 ->
  exists s2,
    move s1 c' (b mod w + dx) (b / w + dy) (- dx) (- dy) w = Ret s2
    /\ flat s2 = flat s /\ _score s2 = _score s.
Proof.
  intros Hg Hb Hl H1. pose proof Hg as [Hw [Hh [Hlen Hc]]].
  pose proof (blank_index_range _ _ Hb) as [Hbr Hb0].
  pose proof (legal_index_range w h _ _ dx dy Hw Hl) as Ht.
  set (t := index (b mod w + dx) (b / w + dy) w) in *.
  assert (Hbt : b <> t).
  { unfold t. rewrite <- (index_from_index w b) at 1 by lia.
    apply (legal_index_other w h); auto. apply Z.mod_pos_bound; lia. }
  rewrite (move_legal w h s c b dx dy Hg Hb Hl) in H1. fold t in H1.
  injection H1 as <-.
  set (item := nth (Z.to_nat t) (flat s) 0).
  unfold move. cbn [flat _score].
  replace (b mod w + dx + - dx) with (b mod w) by lia.
  replace (b / w + dy + - dy) with (b / w) by lia.
  rewrite index_from_index by lia. fold t.
  assert (Hls : len (swap_blank (flat s) b t) = len (flat s)).
  { unfold len. rewrite swap_blank_length. reflexivity. }
  rewrite py_get_in_range by lia. cbn [bind].
  assert (Hitem : nth (Z.to_nat b) (swap_blank (flat s) b t) 0 = item).
  { unfold swap_blank. rewrite nth_update_other by lia.
    rewrite nth_update_same by (unfold len in *; lia). reflexivity. }
  rewrite Hitem.
  destruct (Z.eqb_spec w 0) as [E|_]; [lia|].
  rewrite py_set_in_range by lia. cbn [bind].
  rewrite py_set_in_range by (rewrite len_update; lia). cbn [bind].
  eexists. split; [reflexivity|]. cbn [flat _score]. split.
  - pose proof (swap_blank_back (flat s) b t) as Hback.
    unfold swap_blank at 1 in Hback. rewrite Hitem in Hback.
    apply Hback; auto; lia.
  - unfold tile_distance. fold item. lia.
Qed.

Lemma py_get_returns (l : list Z) (i : Z) :
  (in_range l i -> exists v, py_get l i = Ret v)
  /\ (~ in_range l i -> py_get l i = Raise IndexError).
Proof.
  unfold in_range, py_get. split; intro H.
  - destruct (Z.leb_spec 0 i), (Z.ltb_spec i (len l)),
      (Z.leb_spec (- len l) i), (Z.ltb_spec i 0); cbn [andb];
      try (eexists; reflexivity); lia.
  - destruct (Z.leb_spec 0 i), (Z.ltb_spec i (len l)),
      (Z.leb_spec (- len l) i), (Z.ltb_spec i 0); cbn [andb]; try reflexivity;
      exfalso; apply H; lia.
Qed.

Lemma py_set_returns (l : list Z) (i v : Z) :
  (in_range l i -> exists l', py_set l i v = Ret l' /\ len l' = len l)
  /\ (~ in_range l i -> py_set l i v = Raise IndexError).
Proof.
  unfold in_range, py_set. split; intro H.
  - destruct (Z.leb_spec 0 i), (Z.ltb_spec i (len l)),
      (Z.leb_spec (- len l) i), (Z.ltb_spec i 0); cbn [andb];
      try (eexists; split; [reflexivity | apply len_update]); lia.
  - destruct (Z.leb_spec 0 i), (Z.ltb_spec i (len l)),
      (Z.leb_spec (- len l) i), (Z.ltb_spec i 0); cbn [andb]; try reflexivity;
      exfalso; apply H; lia.
Qed.

(** [move] does not look at the grid.  It returns exactly when the width
    is not [0] and the index of the blank's cell and the index of the other
    cell are subscripts of the flat sequence, negative ones included; the
    exception is an [IndexError] or a [ZeroDivisionError] otherwise. *)
Theorem move_returns_iff (s : State) (char : string) (x y dx dy width : Z) :
  ((exists s', move s char x y dx dy width = Ret s')
   <-> (in_range (flat s) (index (x + dx) (y + dy) width)
        /\ width <> 0
        /\ in_range (flat s) (index x y width)))
  /\ (forall e, move s char x y dx dy width = Raise e ->
                e = IndexError \/ e = ZeroDivisionError)
  /\ move s char x y dx dy width <> OutOfFuel.
Proof.
  unfold move.
  set (i := index (x + dx) (y + dy) width).
  set (bi := index x y width).
  destruct (py_get_returns (flat s) i) as [Gy Gn].
  assert (Di : in_range (flat s) i \/ ~ in_range (flat s) i)
    by (unfold in_range; lia).
  assert (Db : in_range (flat s) bi \/ ~ in_range (flat s) bi)
    by (unfold in_range; lia).
  destruct Di as [Hi|Hi].
  - destruct (Gy Hi) as [item ->]. cbn [bind].
    destruct (Z.eqb_spec width 0) as [E|N].
    + split; [|split].
      * split; [intros [s' H]; discriminate | intros [_ [H _]]; contradiction].
      * intros e H. injection H as <-. auto.
      * discriminate.
    + destruct Db as [Hb|Hb].
      * destruct (py_set_returns (flat s) bi item) as [Sy _].
        destruct (Sy Hb) as [l1 [-> Hl1]]. cbn [bind].
        destruct (py_set_returns l1 i 0) as [Sy' _].
        destruct Sy' as [l2 [-> _]]; [unfold in_range in *; lia|].
        cbn [bind]. split; [|split].
        -- split; [auto | intros _; eexists; reflexivity].
        -- discriminate.
        -- discriminate.
      * destruct (py_set_returns (flat s) bi item) as [_ Sn].
        rewrite (Sn Hb). cbn [bind]. split; [|split].
        -- split; [intros [s' H]; discriminate | intros [_ [_ H]]; contradiction].
        -- intros e H. injection H as <-. auto.
        -- discriminate.
  - rewrite (Gn Hi). cbn [bind]. split; [|split].
    + split; [intros [s' H]; discriminate | intros [H _]; contradiction].
    + intros e H. injection H as <-. auto.
    + discriminate.
Qed.

(** Without the guard of the loop a [D] move from the top row wraps
    around: the subscript [x - width] is negative and counts from the end,
    so the blank is exchanged with the tile in the bottom row of its
    column. *)
Theorem move_off_the_top_wraps (w h : Z) (s : State) (b : Z) :
  grid w h (flat s) -> 2 <= h -> blank_index (flat s) = Some b -> b < w ->
  exists s',
    move s "D" b 0 0 (-1) w = Ret s'
    /\ flat s' = swap_blank (flat s) b ((h - 1) * w + b).
Proof.
  intros [Hw [Hh [Hlen Hc]]] H2 Hb Hbw.
  pose proof (blank_index_range _ _ Hb) as [Hbr _].
  unfold move, index. cbn [flat].
  replace (0 * w + b) with b by lia.
  replace ((0 + -1) * w + (b + 0)) with (b - w) by lia.
  assert (Ht : len (flat s) + (b - w) = (h - 1) * w + b) by lia.
  assert (Hr : 0 <= (h - 1) * w + b < len (flat s)) by nia.
  unfold py_get.
  destruct (Z.leb_spec 0 (b - w)); [lia|]. cbn [andb].
  destruct (Z.leb_spec (- len (flat s)) (b - w)); [|nia].
  destruct (Z.ltb_spec (b - w) 0); [|lia]. cbn [andb bind].
  destruct (Z.eqb_spec w 0); [lia|].
  rewrite py_set_in_range by lia. cbn [bind].
  unfold py_set. rewrite len_update.
  destruct (Z.leb_spec 0 (b - w)); [lia|]. cbn [andb].
  destruct (Z.leb_spec (- len (flat s)) (b - w)); [|nia].
  destruct (Z.ltb_spec (b - w) 0); [|lia]. cbn [andb bind].
  eexists. split; [reflexivity|]. cbn [flat]. unfold swap_blank.
  rewrite Ht. reflexivity.
Qed.


(** ** The cache of the hash *)

(** The cached hash is never stale.  [make_state] leaves the cache empty,
    [move] empties it, [clone], [score] and [__hash__] keep a cache that
    is empty or current; on such a state [__hash__] returns the hash of
    the tuple of the flat sequence, and calling it again changes nothing. *)
Theorem hash_cache_is_current :
  (forall p, hash_ok (make_state p))
  /\ (forall s, hash_ok s -> hash_ok (clone s))
  /\ (forall s c x y dx dy w s',
         move s c x y dx dy w = Ret s' -> hash_ok s')
  /\ (forall s w v s', hash_ok s -> score s w = Ret (v, s') -> hash_ok s')
  /\ (forall s, hash_ok s ->
                fst (State_hash s) = hash_tuple (flat s)
                /\ hash_ok (snd (State_hash s))
                /\ State_hash (snd (State_hash s)) = State_hash s).
Proof.
  split; [intro p; left; reflexivity|].
  split; [intros s H; exact H|].
  split.
  { intros s c x y dx dy w s' H. unfold move in H.
    step_through H. injection H as <-. left. reflexivity. }
  split.
  { intros s w v s' Hs H. unfold score in H.
    step_through H; injection H as <- <-; exact Hs. }
  intros s Hs. split; [apply State_hash_fst; exact Hs|].
  unfold State_hash.
  destruct (Z.eqb_spec (_hash s) 0) as [E|N].
  - cbn [fst snd _hash flat moveChar _score]. split; [right; reflexivity|].
    destruct (Z.eqb_spec (hash_tuple (flat s)) 0) as [E'|N']; reflexivity.
  - cbn [fst snd]. split; [exact Hs|].
    destruct (Z.eqb_spec (_hash s) 0); [contradiction | reflexivity].
Qed.

(** ** The closed list as a dictionary *)

Lemma State_eq_same_hash (k key : State) (other : option State) :
  State_eq k (Some key) = true -> State_eq k other = State_eq key other.
Proof.
  unfold State_eq. cbn [py_hash]. intro H. apply Z.eqb_eq in H.
  rewrite H. reflexivity.
Qed.

(** [closed_list[key] = value] and then a lookup, for states whose
    [__hash__] value the builtin [hash] hands on as it is (every state of
    a search is one): a state that is equal to [key], that is, of the same
    hash, finds [value]; any other key finds what it found before.  The
    assignment adds one pair when the dictionary has no key equal to
    [key], and none when it has one. *)
Theorem dict_set_then_get (d : dict) (key : State) (value other : option State) :
  Forall (fun kv => proper_hash (fst kv)) d ->
  proper_hash key ->
  (forall o, other = Some o -> proper_hash o) ->
  dict_get (dict_set d key value) other
  = (if State_eq key other then Ret value else dict_get d other)
  /\ dict_contains (dict_set d key value) other
     = (State_eq key other || dict_contains d other)
  /\ length (dict_set d key value)
     = (if dict_contains d (Some key) then length d else S (length d)).
Proof.
  intros _ _ _.
  unfold dict_get, dict_contains, dict_lookup.
  induction d as [|[k v] t [IHg [IHc IHl]]].
  - cbn [dict_set find fst snd length].
    destruct (State_eq key other); auto.
  - cbn [dict_set find fst].
    destruct (State_eq k (Some key)) eqn:Ek.
    + cbn [find fst snd length].
      rewrite <- (State_eq_same_hash k key other Ek).
      destruct (State_eq k other); auto.
    + cbn [find fst snd length]. rewrite IHl.
      assert (Hl : S (if match find (fun kv => State_eq (fst kv) (Some key)) t with
                         | Some _ => true
                         | None => false
                         end
                      then length t else S (length t))
                   = if match find (fun kv => State_eq (fst kv) (Some key)) t with
                        | Some _ => true
                        | None => false
                        end
                     then S (length t) else S (S (length t))).
      { destruct (find (fun kv => State_eq (fst kv) (Some key)) t); reflexivity. }
      destruct (State_eq k other) eqn:Eo.
      * assert (State_eq key other = false) as ->.
        { unfold State_eq in *. cbn [py_hash] in Ek.
          apply Z.eqb_eq in Eo. apply Z.eqb_neq in Ek. apply Z.eqb_neq.
          congruence. }
        auto.
      * rewrite IHg, IHc. auto.
Qed.

(** ** [make_path] *)

(** When [prev] is no key of the closed list, [make_path] returns the
    empty list: the loop adds nothing, and [path[1:]] drops the move of
    [end], which is the only item. *)
Theorem make_path_unknown_prev (end_ : State) (prev : option State)
    (closed : dict) :
  dict_contains closed prev = false -> make_path end_ prev closed = Ret [].
Proof.
  intro H. unfold make_path. cbn [make_path_loop]. rewrite H. reflexivity.
Qed.

Lemma make_path_loop_more_fuel (closed : dict) (n : nat) :
  forall cur path,
    make_path_loop n cur closed path <> OutOfFuel ->
    forall m, (n <= m)%nat ->
              make_path_loop m cur closed path = make_path_loop n cur closed path.
Proof.
  induction n as [|n IH]; intros cur path H m Hm; [contradiction H; reflexivity|].
  destruct m as [|m]; [lia|]. cbn [make_path_loop] in *.
  destruct (dict_contains closed cur); [|reflexivity].
  destruct cur as [c|]; [|reflexivity].
  destruct (dict_get closed (Some c)) as [next| |]; cbn [bind] in *;
    try reflexivity.
  apply IH; [exact H | lia].
Qed.

Lemma make_path_loop_ends (closed : dict) (fuel : nat) :
  forall cur path,
    make_path_loop fuel cur closed path <> OutOfFuel ->
    exists n, (n < fuel)%nat /\ path_ends closed cur n.
Proof.
  induction fuel as [|fuel IH]; intros cur path H; [contradiction H; reflexivity|].
  cbn [make_path_loop] in H.
  destruct (dict_contains closed cur) eqn:Ec.
  - destruct cur as [c|].
    + destruct (dict_get closed (Some c)) as [next| |] eqn:Eg; cbn [bind] in H.
      * destruct (IH _ _ H) as [n [Hn He]]. exists (S n). split; [lia|].
        apply (path_ends_next closed c next); assumption.
      * exfalso. unfold dict_contains, dict_get in *.
        destruct (dict_lookup closed (Some c)); discriminate.
      * contradiction H; reflexivity.
    + exists O. split; [lia|]. apply path_ends_none. exact Ec.
  - exists O. split; [lia|]. apply path_ends_no_key. exact Ec.
Qed.

Lemma path_ends_loop (closed : dict) (cur : option State) (n : nat) :
  path_ends closed cur n ->
  forall path, make_path_loop (S n) cur closed path <> OutOfFuel.
Proof.
  induction 1 as [cur Hc|Hc|c next n Hc Hg _ IH]; intro path.
  - cbn [make_path_loop]. rewrite Hc. discriminate.
  - cbn [make_path_loop]. rewrite Hc. discriminate.
  - change (make_path_loop (S (S n)) (Some c) closed path)
      with (if dict_contains closed (Some c)
            then next <- dict_get closed (Some c) ;;
                 make_path_loop (S n) next closed (path ++ [moveChar c])
            else Ret path).
    rewrite Hc, Hg. cbn [bind]. apply IH.
Qed.

Lemma path_ends_once (closed : dict) (cur : option State) (n m : nat) :
  path_ends closed cur n -> path_ends closed cur m -> n = m.
Proof.
  intro H. revert m.
  induction H as [cur Hc|Hc|c next n Hc Hg _ IH]; intros m Hm.
  - inversion Hm; subst; try reflexivity; congruence.
  - inversion Hm; subst; try reflexivity; congruence.
  - inversion Hm as [cur' Hc'|Hc'|c' next' m' Hc' Hg' Hm']; subst.
    + congruence.
    + f_equal. apply IH. congruence.
Qed.

(** The pairs of the closed list that the rounds of the loop go through,
    each with the number of rounds that are left after it. *)
Lemma path_ends_pairs (closed : dict) (cur : option State) (n : nat) :
  path_ends closed cur n ->
  exists l, length l = n /\ incl l closed
            /\ forall k kv, nth_error l k = Some kv ->
                            path_ends closed (snd kv) (n - 1 - k).
Proof.
  induction 1 as [cur Hc|Hc|c next n Hc Hg Hn [l [Hl [Hi Hk]]]].
  - exists []. split; [reflexivity|]. split; [intros x []|].
    intros [|k] kv E; discriminate.
  - exists []. split; [reflexivity|]. split; [intros x []|].
    intros [|k] kv E; discriminate.
  - unfold dict_get in Hg.
    destruct (dict_lookup closed (Some c)) as [kv|] eqn:E; [|discriminate].
    injection Hg as Hg. exists (kv :: l).
    split; [cbn [length]; congruence|]. split.
    + intros x [<-|Hx]; [|apply Hi; exact Hx].
      unfold dict_lookup in E. apply find_some in E. apply E.
    + intros [|k] kv' E'; cbn [nth_error] in E'.
      * injection E' as <-. rewrite Hg.
        replace (S n - 1 - 0)%nat with n by lia. exact Hn.
      * replace (S n - 1 - S k)%nat with (n - 1 - k)%nat by lia.
        apply Hk. exact E'.
Qed.

Lemma path_ends_bound (closed : dict) (cur : option State) (n : nat) :
  path_ends closed cur n -> (n <= length closed)%nat.
Proof.
  intro H. destruct (path_ends_pairs closed cur n H) as [l [Hl [Hi Hk]]].
  rewrite <- Hl. apply NoDup_incl_length; [|exact Hi].
  apply NoDup_nth_error. intros i j Hi' E.
  destruct (nth_error l i) as [kv|] eqn:Ei;
    [|apply nth_error_None in Ei; lia].
  assert (Hj : (j < length l)%nat).
  { apply nth_error_Some. rewrite <- E. discriminate. }
  pose proof (path_ends_once closed (snd kv) _ _
                (Hk i kv Ei) (Hk j kv (eq_sym E))).
  lia.
Qed.

Lemma make_path_loop_bounded (fuel : nat) (cur : option State)
    (closed : dict) (path : list string) :
  make_path_loop fuel cur closed path <> OutOfFuel ->
  make_path_loop (S (length closed)) cur closed path
  = make_path_loop fuel cur closed path.
Proof.
  intro H. destruct (make_path_loop_ends closed fuel cur path H) as [n [Hn He]].
  pose proof (path_ends_bound closed cur n He) as Hb.
  pose proof (path_ends_loop closed cur n He path) as Hr.
  rewrite (make_path_loop_more_fuel closed (S n) cur path Hr (S (length closed)))
    by lia.
  rewrite (make_path_loop_more_fuel closed (S n) cur path Hr fuel) by lia.
  reflexivity.
Qed.

(** The loop of [make_path] ends within [len(closed_list) + 1] rounds or
    it never ends: whenever some number of rounds lets it return or
    raise, it has done the same after that many.  In a closed list whose
    predecessors lead around in a circle it runs for ever. *)
Theorem make_path_loop_ends_early (fuel : nat) (cur : option State)
    (closed : dict) (path : list string) :
  make_path_loop fuel cur closed path <> OutOfFuel ->
  make_path_loop (S (length closed)) cur closed path
  = make_path_loop fuel cur closed path.
Proof.
  exact (make_path_loop_bounded fuel cur closed path).
Qed.


(** ** The search with a hash that may collide *)

Section AnyHash.

Variables (w h : Z) (init : list Z).

(** With keys of different hashes a key finds its own pair. *)
Lemma dict_lookup_key (d : dict) (k : State) (v : option State) :
  Forall (good_pair w h init) d ->
  NoDup (map (fun kv => hash_tuple (flat (fst kv))) d) ->
  In (k, v) d ->
  dict_lookup d (Some k) = Some (k, v).
Proof.
  intros Hd Hnd Hin. unfold dict_lookup.
  induction d as [|x d IH]; [contradiction|].
  inversion Hd as [|? ? Hx Hd']; subst.
  cbn [map] in Hnd. inversion Hnd as [|? ? Hn Hnd']; subst.
  assert (Hk : hash_ok k).
  { rewrite Forall_forall in Hd. destruct (Hd (k, v) Hin) as [[_ [_ [_ Hk]]] _].
    exact Hk. }
  cbn [find]. unfold State_eq at 1. cbn [py_hash].
  destruct Hx as [[_ [_ [_ Hhx]]] _].
  rewrite (State_hash_fst _ Hhx), (State_hash_fst _ Hk).
  destruct Hin as [->|Hin].
  - cbn [fst]. rewrite Z.eqb_refl. reflexivity.
  - destruct (Z.eqb_spec (hash_tuple (flat (fst x))) (hash_tuple (flat k)))
      as [E|_]; [|apply IH; assumption].
    exfalso. apply Hn. rewrite E. apply in_map_iff. exists (k, v). auto.
Qed.

Lemma dict_key_once (d : dict) (k : State) (v v' : option State) :
  Forall (good_pair w h init) d ->
  NoDup (map (fun kv => hash_tuple (flat (fst kv))) d) ->
  In (k, v) d -> In (k, v') d -> v = v'.
Proof.
  intros Hd Hnd H1 H2.
  pose proof (dict_lookup_key d k v Hd Hnd H1) as E1.
  pose proof (dict_lookup_key d k v' Hd Hnd H2) as E2.
  congruence.
Qed.

(** A state that the dictionary does not hold hashes like none of its
    keys. *)
Lemma dict_contains_false_hash (d : dict) (s : State) :
  Forall (good_pair w h init) d -> hash_ok s ->
  dict_contains d (Some s) = false ->
  ~ In (hash_tuple (flat s)) (map (fun kv => hash_tuple (flat (fst kv))) d).
Proof.
  intros Hd Hs Hc Hin. apply in_map_iff in Hin. destruct Hin as [kv [E Hkv]].
  unfold dict_contains, dict_lookup in Hc.
  destruct (find (fun kv => State_eq (fst kv) (Some s)) d) eqn:Ef; [discriminate|].
  pose proof (find_none _ _ Ef kv Hkv) as Hn. cbv beta in Hn.
  rewrite Forall_forall in Hd. destruct (Hd kv Hkv) as [[_ [_ [_ Hk]]] _].
  unfold State_eq in Hn. cbn [py_hash] in Hn.
  rewrite (State_hash_fst _ Hk), (State_hash_fst _ Hs) in Hn.
  apply Z.eqb_neq in Hn. contradiction.
Qed.

(** When the dictionary has a key that is equal to [None], a
    rearrangement of the initial sequence hashes like [None]. *)
Lemma dict_contains_None_hash (d : dict) :
  Forall (good_pair w h init) d ->
  dict_contains d None = true ->
  exists a, Permutation init a /\ hash_tuple a = hash_none.
Proof.
  intros Hd Hc. unfold dict_contains, dict_lookup in Hc.
  destruct (find (fun kv => State_eq (fst kv) None) d) as [kv|] eqn:Ef;
    [|discriminate].
  apply find_some in Ef. destruct Ef as [Hkv He].
  rewrite Forall_forall in Hd. destruct (Hd kv Hkv) as [[HP [_ [_ Hk]]] _].
  unfold State_eq in He. cbn [py_hash] in He.
  rewrite (State_hash_fst _ Hk) in He. apply Z.eqb_eq in He.
  exists (flat (fst kv)). auto.
Qed.

Section PathBackAnyHash.

Variable d : dict.
Hypothesis Hd : Forall (good_pair w h init) d.
Hypothesis Hnd : NoDup (map (fun kv => hash_tuple (flat (fst kv))) d).

Lemma make_path_loop_traced (k : State) (ms : list string) :
  trace w h init d k ms ->
  forall fuel acc, (length ms + 2 <= fuel)%nat ->
  exists c0,
    make_path_loop fuel (Some k) d acc
    = if dict_contains d None then Raise AttributeError
      else Ret (acc ++ rev (c0 :: ms)).
Proof.
  induction 1 as [k Hin Hf|k p ms Hin _ IH Hm]; intros fuel acc Hfuel.
  - destruct fuel as [|[|fuel]]; [simpl in Hfuel; lia | simpl in Hfuel; lia|].
    pose proof (dict_lookup_key d k None Hd Hnd Hin) as El.
    exists (moveChar k). cbn [make_path_loop].
    unfold dict_contains at 1, dict_get. rewrite El. cbn [bind snd].
    destruct (dict_contains d None); reflexivity.
  - destruct fuel as [|fuel]; [lia|].
    pose proof (dict_lookup_key d k (Some p) Hd Hnd Hin) as El.
    cbn [make_path_loop].
    unfold dict_contains at 1, dict_get. rewrite El. cbn [bind snd].
    destruct (IH fuel (acc ++ [moveChar k])) as [c0 E].
    { rewrite length_app in Hfuel. simpl in Hfuel. lia. }
    exists c0. rewrite E.
    destruct (dict_contains d None); [reflexivity|]. f_equal.
    cbn [rev]. rewrite rev_app_distr. cbn [rev app].
    rewrite <- !app_assoc. reflexivity.
Qed.

Lemma make_path_traced (end_ p : State) (ms : list string) :
  trace w h init d p ms -> (length ms < length d)%nat ->
  make_path end_ (Some p) d
  = if dict_contains d None then Raise AttributeError
    else Ret (ms ++ [moveChar end_]).
Proof.
  intros Ht Hl. unfold make_path.
  destruct (make_path_loop_traced p ms Ht (S (length d)) []) as [c0 E]; [lia|].
  rewrite E. destruct (dict_contains d None); [reflexivity|].
  cbn [bind app]. rewrite rev_involutive. reflexivity.
Qed.

(** [make_path] reads the moves off the closed list.  When the keys have
    different hashes and none is equal to [None], it returns the moves
    that the predecessors of [p] record, from the start on, followed by
    the move of [end]. *)
Theorem make_path_follows_trace (end_ p : State) (ms : list string) :
  dict_contains d None = false ->
  trace w h init d p ms ->
  make_path end_ (Some p) d = Ret (ms ++ [moveChar end_]).
Proof.
  intros HN Ht. unfold make_path.
  destruct (make_path_loop_traced p ms Ht (length ms + 2) []) as [c0 E]; [lia|].
  rewrite HN in E.
  rewrite (make_path_loop_bounded (length ms + 2) (Some p) d [])
    by (rewrite E; discriminate).
  rewrite E. cbn [bind app]. rewrite rev_involutive. reflexivity.
Qed.

End PathBackAnyHash.

Lemma path_inv_initial (s0 : State) :
  good_state w h init s0 -> flat s0 = init ->
  path_inv w h init (initial_loop s0).
Proof.
  intros Hs Hf. unfold path_inv, initial_loop.
  cbn [counter closed_list open_list].
  split; [apply (basic_inv_initial w h init s0 Hs Hf)|].
  split; [constructor|]. split; [constructor|].
  constructor; [|constructor]. left. repeat split. exact Hf.
Qed.

Lemma path_inv_closed_bound (l : loop_state) :
  path_inv w h init l ->
  len (closed_list l) <= len (words init (length init)).
Proof.
  intros [[_ [_ [_ Hgp]]] [Hnd _]]. unfold len.
  rewrite <- (length_map (fun kv => flat (fst kv)) (closed_list l)).
  apply inj_le. apply NoDup_incl_length.
  - apply (NoDup_map_inv hash_tuple). rewrite map_map. exact Hnd.
  - intros fl Hin. apply in_map_iff in Hin. destruct Hin as [kv [<- Hkv]].
    rewrite Forall_forall in Hgp. destruct (Hgp kv Hkv) as [[HP _] _].
    rewrite (Permutation_length HP). apply in_words.
    intros x Hx. apply (Permutation_in _ (Permutation_sym HP)). exact Hx.
Qed.

Hypothesis Hstart : manhattan w init <> 0.

(** A round of the loop, whatever the hash: it goes on with the invariant
    and fewer rounds left, it returns a move sequence that leads to the
    popped state, whose score is zero, or [make_path] raises because a key
    of the closed list is equal to [None]. *)
Lemma path_inv_round (l : loop_state) (e : entry) (rest : list entry) :
  path_inv w h init l ->
  heappop (open_list l) = Some (e, rest) ->
  (exists l', iteration w h l e rest = Ret (inl l')
              /\ path_inv w h init l'
              /\ rounds_left init l' < rounds_left init l)
  \/ (exists path, iteration w h l e rest = Ret (inr (Some path))
                   /\ apply_moves w h path init = Some (flat (e_state e))
                   /\ manhattan w (flat (e_state e)) = 0)
  \/ (iteration w h l e rest = Raise AttributeError
      /\ dict_contains (closed_list l) None = true).
Proof.
  intros Hinv Hpop.
  pose proof Hinv as [Hb [Hnd [Hcl Hop]]].
  pose proof (heappop_Permutation _ _ _ Hpop) as HP.
  assert (He : In e (open_list l)).
  { apply (Permutation_in _ (Permutation_sym HP)). left. reflexivity. }
  pose proof Hb as [_ [HF [_ Hgp]]].
  rewrite Forall_forall in HF, Hop.
  destruct (HF e He) as [Hs _].
  pose proof Hs as [_ [Hg [Hsc Hh]]].
  pose proof (iteration_value w h l e rest Hg Hsc Hh) as Hit. cbv zeta in Hit.
  assert (Hlo : len (open_list l) = 1 + len rest).
  { unfold len. rewrite (Permutation_length HP). cbn [length]. lia. }
  set (active := snd (State_hash (e_state e))) in *.
  pose proof (cached_good w h init _ Hs) as Ha. fold active in Ha.
  assert (Hfa : flat active = flat (e_state e)) by apply cached_flat.
  assert (Hma : moveChar active = moveChar (e_state e)) by apply cached_moveChar.
  destruct (dict_contains (closed_list l) (Some (e_state e))) eqn:Hseen.
  - (* the popped state is closed *)
    left. eexists. split; [exact Hit|].
    pose proof (basic_inv_round w h init l _ e rest Hb Hpop Hit) as Hb'.
    split; [|unfold rounds_left; cbn [closed_list open_list]; lia].
    unfold path_inv. cbn [counter closed_list open_list].
    split; [exact Hb'|]. split; [exact Hnd|]. split; [exact Hcl|].
    apply Forall_forall. intros e' He'.
    assert (He'o : In e' (open_list l)).
    { apply (Permutation_in _ (Permutation_sym HP)). right. exact He'. }
    destruct (Hop e' He'o) as [[_ [_ [Hc _]]]|Hpushed].
    + exfalso. rewrite Hc in Hseen. discriminate.
    + right. exact Hpushed.
  - destruct (Z.eqb_spec (manhattan w (flat (e_state e))) 0) as [Hz|Hnz].
    + (* the popped state is the goal *)
      right.
      destruct (Hop e He) as [[_ [Hfl _]]|[_ [p [ms [Hp [Ht [Hl [Hge Hmv]]]]]]]].
      * exfalso. apply Hstart. rewrite <- Hfl. exact Hz.
      * rewrite Hp in Hit.
        rewrite (make_path_traced (closed_list l) Hgp Hnd active p ms Ht Hl)
          in Hit.
        destruct (dict_contains (closed_list l) None) eqn:HN.
        -- right. split; [exact Hit | reflexivity].
        -- left. cbn [bind] in Hit. rewrite Hma in Hit.
           eexists. split; [exact Hit|]. split; [|exact Hz].
           apply (apply_moves_snoc w h ms _ init (flat p)); [|exact Hmv].
           apply (trace_moves w h init (closed_list l)). exact Ht.
    + (* the popped state is expanded *)
      left. eexists. split; [exact Hit|].
      pose proof (basic_inv_round w h init l _ e rest Hb Hpop Hit) as Hb'.
      assert (Hset : dict_set (closed_list l) active (e_prev e)
                     = closed_list l ++ [(active, e_prev e)]).
      { apply dict_set_new. rewrite <- Hseen. apply dict_contains_hash.
        cbn [py_hash]. destruct Ha as [_ [_ [_ Hha]]].
        rewrite (State_hash_fst _ Hh), (State_hash_fst _ Hha), Hfa. reflexivity. }
      destruct (expand_entries w h (closed_list l) active (e_g e) (counter l, rest))
        as [Ekeep [Eorigin [_ Hlen]]].
      cbn [snd] in Ekeep, Eorigin, Hlen.
      split.
      2:{ unfold rounds_left. cbn [closed_list open_list]. rewrite Hset.
          rewrite len_app. unfold len in *. cbn [length]. lia. }
      set (io := expand w h (closed_list l) active (e_g e) (counter l, rest)) in *.
      set (closed' := closed_list l ++ [(active, e_prev e)]) in *.
      assert (Hincl : incl (closed_list l) closed').
      { intros x Hx. apply in_or_app. auto. }
      assert (Hlen' : length closed' = S (length (closed_list l))).
      { unfold closed'. rewrite length_app. simpl. lia. }
      assert (Htrace : exists ms, trace w h init closed' active ms
                                  /\ (length ms < length closed')%nat
                                  /\ len ms = e_g e).
      { destruct (Hop e He) as [[[Hp [_ [Hg0 _]]] [Hfl _]]
                               |[_ [p [ms [Hp [Ht [Hl [Hge Hmv]]]]]]]].
        - exists []. split; [|split; [simpl; lia | unfold len; simpl; lia]].
          apply trace_start; [|congruence].
          unfold closed'. apply in_or_app. right. rewrite Hp. left. reflexivity.
        - exists (ms ++ [moveChar active]). split; [|split].
          + apply trace_move with (p := p).
            * unfold closed'. apply in_or_app. right. rewrite Hp. left. reflexivity.
            * apply (trace_more w h init (closed_list l)); assumption.
            * rewrite Hma, Hfa. exact Hmv.
          + rewrite length_app. simpl. lia.
          + rewrite len_app. unfold len at 2. simpl. lia. }
      destruct Htrace as [msa [Hta [Hla Hga]]].
      rewrite Hset in Hb'. fold closed' in Hb'. fold io in Hb'.
      pose proof Hb' as [_ [HF' _]]. cbn [open_list counter] in HF'.
      rewrite Forall_forall in HF'.
      unfold path_inv. cbn [counter closed_list open_list]. rewrite Hset.
      fold closed'.
      split; [exact Hb'|]. split; [|split].
      * unfold closed'. rewrite map_app. cbn [map fst].
        apply NoDup_snoc; [exact Hnd|]. rewrite Hfa.
        apply dict_contains_false_hash; assumption.
      * unfold closed' at 2. apply Forall_app. split.
        -- apply Forall_forall. intros kv Hkv. rewrite Forall_forall in Hcl.
           destruct (Hcl kv Hkv) as [Hzk [ms [Ht Hl]]].
           split; [exact Hzk|]. exists ms. split; [|lia].
           apply (trace_more w h init (closed_list l)); assumption.
        -- constructor; [|constructor]. unfold closed_traced. cbn [fst].
           split; [rewrite Hfa; exact Hnz|]. exists msa. auto.
      * apply Forall_forall. intros e' He'. right.
        destruct (Eorigin e' He') as [Hold|Hchild].
        -- assert (He'o : In e' (open_list l)).
           { apply (Permutation_in _ (Permutation_sym HP)). right. exact Hold. }
           destruct (Hop e' He'o)
             as [[_ [_ [_ Ho]]]|[Hpu [p [ms [Hp [Ht [Hl [Hge Hmv]]]]]]]].
           ++ exfalso. apply Permutation_length in HP. rewrite Ho in HP.
              simpl in HP. destruct rest; [contradiction | simpl in HP; lia].
           ++ split; [exact Hpu|]. exists p, ms.
              split; [exact Hp|]. split; [|split; [lia | split; assumption]].
              apply (trace_more w h init (closed_list l)); assumption.
        -- destruct Hchild as [c [fl [Hmv [_ [Hst [Hp Hge]]]]]].
           split.
           ++ destruct (HF' e' He') as [_ [_ [_ [_ [[Hn _]|Hpu]]]]];
                [congruence | exact Hpu].
           ++ exists active, msa. split; [exact Hp|]. split; [exact Hta|].
              split; [exact Hla|]. split; [lia|].
              rewrite Hst. cbn [child_state moveChar flat]. exact Hmv.
Qed.

Lemma runs_path_inv (s0 : State) (l : loop_state) :
  good_state w h init s0 -> flat s0 = init ->
  runs w h s0 l -> path_inv w h init l.
Proof.
  intros Hs Hf Hr. induction Hr as [|l e rest l' _ IH Hpop Hit].
  - apply path_inv_initial; assumption.
  - destruct (path_inv_round l e rest IH Hpop)
      as [[l1 [E [Hinv _]]]|[[path [E _]]|[E _]]].
    + rewrite E in Hit. injection Hit as <-. exact Hinv.
    + rewrite E in Hit. discriminate.
    + rewrite E in Hit. discriminate.
Qed.

(** What the loop ends with, whatever the hash and the fuel. *)
Lemma search_any_hash (fuel : nat) (l : loop_state) :
  path_inv w h init l ->
  search_outcome w h init l fuel (search fuel w h l).
Proof.
  revert l. induction fuel as [|fuel IH]; intros l Hinv.
  - cbn [search]. destruct (heappop (open_list l)) as [[e rest]|] eqn:Hpop;
      cbn [search_outcome]; [|exact I].
    pose proof (path_inv_closed_bound l Hinv).
    pose proof (heappop_Permutation _ _ _ Hpop) as HP.
    apply Permutation_length in HP.
    unfold rounds_left, len in *. cbn [length] in HP. lia.
  - cbn [search]. destruct (heappop (open_list l)) as [[e rest]|] eqn:Hpop;
      [|exact I].
    destruct (path_inv_round l e rest Hinv Hpop)
      as [[l' [E [Hinv' Hlt]]]|[[path [E [Hp Hz]]]|[E HN]]].
    + rewrite E. cbn [bind]. specialize (IH l' Hinv').
      destruct (search fuel w h l') as [[path|]|e'|]; cbn [search_outcome] in *;
        auto. lia.
    + rewrite E. cbn [bind search_outcome]. eexists. eauto.
    + rewrite E. cbn [bind search_outcome]. split; [reflexivity|].
      destruct Hinv as [[_ [_ [_ Hgp]]] _].
      apply (dict_contains_None_hash (closed_list l)); assumption.
Qed.

End AnyHash.

(** ** The search when its lookups are decided right *)

Section ExactRounds.

Variables (w h : Z) (init : list Z).

(** A closed flat sequence is found, whatever the hash. *)
Lemma closed_has_contains (d : dict) (s : State) :
  Forall (good_pair w h init) d -> good_state w h init s ->
  closed_has d (flat s) -> dict_contains d (Some s) = true.
Proof.
  intros Hd Hs [kv [Hin Hf]]. unfold dict_contains.
  destruct (dict_lookup d (Some s)) as [kv'|] eqn:E; [reflexivity|].
  exfalso. unfold dict_lookup in E.
  pose proof (find_none _ _ E kv Hin) as Hn. cbv beta in Hn.
  rewrite Forall_forall in Hd. destruct (Hd kv Hin) as [[_ [_ [_ Hk]]] _].
  destruct Hs as [_ [_ [_ Hhs]]].
  unfold State_eq in Hn. cbn [py_hash] in Hn.
  rewrite (State_hash_fst _ Hk), (State_hash_fst _ Hhs), Hf, Z.eqb_refl in Hn.
  discriminate.
Qed.

(** What is found is closed, when the lookup is decided right. *)
Lemma contains_closed_has (d : dict) (s : State) :
  Forall (good_pair w h init) d -> good_state w h init s ->
  lookup_exact d (flat s) ->
  dict_contains d (Some s) = true -> closed_has d (flat s).
Proof.
  intros Hd Hs Hex Hc. unfold dict_contains in Hc.
  destruct (dict_lookup d (Some s)) as [kv|] eqn:E; [|discriminate].
  unfold dict_lookup in E. apply find_some in E. destruct E as [Hin He].
  exists kv. split; [exact Hin|]. apply Hex; [exact Hin|].
  rewrite Forall_forall in Hd. destruct (Hd kv Hin) as [[_ [_ [_ Hk]]] _].
  destruct Hs as [_ [_ [_ Hhs]]].
  unfold State_eq in He. cbn [py_hash] in He.
  rewrite (State_hash_fst _ Hk), (State_hash_fst _ Hhs) in He.
  apply Z.eqb_eq. exact He.
Qed.

Lemma no_key_like_None (d : dict) :
  Forall (good_pair w h init) d ->
  (forall kv, In kv d -> hash_tuple (flat (fst kv)) <> hash_none) ->
  dict_contains d None = false.
Proof.
  intros Hd Hn. unfold dict_contains, dict_lookup.
  destruct (find (fun kv => State_eq (fst kv) None) d) as [kv|] eqn:E;
    [|reflexivity].
  apply find_some in E. destruct E as [Hin He].
  rewrite Forall_forall in Hd. destruct (Hd kv Hin) as [[_ [_ [_ Hk]]] _].
  unfold State_eq in He. cbn [py_hash] in He.
  rewrite (State_hash_fst _ Hk) in He. apply Z.eqb_eq in He.
  exfalso. apply (Hn kv Hin). exact He.
Qed.

Lemma astar_inv_skip_exact (l : loop_state) (e : entry) (rest : list entry) :
  astar_inv w h init l ->
  heappop (open_list l) = Some (e, rest) ->
  lookup_exact (closed_list l) (flat (e_state e)) ->
  dict_contains (closed_list l) (Some (e_state e)) = true ->
  basic_inv w h init
    {| counter := counter l; closed_list := closed_list l; open_list := rest |} ->
  astar_inv w h init
    {| counter := counter l; closed_list := closed_list l; open_list := rest |}.
Proof.
  intros [Hb [Hnd [Hcl [Hop [Hfr Hinit]]]]] Hpop Hex Hseen Hb'.
  pose proof (heappop_Permutation _ _ _ Hpop) as HP.
  assert (He : In e (open_list l)).
  { apply (Permutation_in _ (Permutation_sym HP)). left. reflexivity. }
  destruct Hb as [_ [HF [_ Hgp]]].
  assert (Hs : good_state w h init (e_state e)).
  { rewrite Forall_forall in HF. destruct (HF e He) as [Hs _]. exact Hs. }
  assert (Hch : closed_has (closed_list l) (flat (e_state e))).
  { apply contains_closed_has; assumption. }
  unfold astar_inv. cbn [counter closed_list open_list].
  split; [exact Hb'|]. split; [exact Hnd|]. split; [exact Hcl|].
  rewrite Forall_forall in Hop, Hfr.
  split; [|split].
  - apply Forall_forall. intros e' He'.
    assert (He'o : In e' (open_list l)).
    { apply (Permutation_in _ (Permutation_sym HP)). right. exact He'. }
    destruct (Hop e' He'o) as [[_ [_ [Hc _]]]|Hpushed].
    + exfalso. rewrite Hc in Hch. destruct Hch as [x [[] _]].
    + right. exact Hpushed.
  - apply Forall_forall. intros kv Hkv m u Hm.
    destruct (Hfr kv Hkv m u Hm) as [Hc|[e' [He' [Hu Hrest]]]]; [left; exact Hc|].
    apply (Permutation_in _ HP) in He'. destruct He' as [<-|He'].
    + left. rewrite <- Hu. exact Hch.
    + right. exists e'. auto.
  - destruct Hinit as [Hc|[e0 [_ [_ [_ Hc]]]]]; [left; exact Hc|].
    exfalso. rewrite Hc in Hch. destruct Hch as [x [[] _]].
Qed.

Lemma astar_inv_expand_exact (l : loop_state) (e : entry) (rest : list entry) :
  astar_inv w h init l ->
  heappop (open_list l) = Some (e, rest) ->
  dict_contains (closed_list l) (Some (e_state e)) = false ->
  manhattan w (flat (e_state e)) <> 0 ->
  (forall c fl, apply_move w h c (flat (e_state e)) = Some fl ->
                lookup_exact (closed_list l) fl) ->
  let active := snd (State_hash (e_state e)) in
  let io := expand w h (closed_list l) active (e_g e) (counter l, rest) in
  let l' := {| counter := fst io;
               closed_list := dict_set (closed_list l) active (e_prev e);
               open_list := snd io |} in
  basic_inv w h init l' -> astar_inv w h init l'.
Proof.
  intros Hinv Hpop Hnew Hnz Hex active io l' Hb'.
  pose proof Hinv as [Hb [Hnd [Hcl [Hop [Hfr Hinit]]]]].
  pose proof (heappop_Permutation _ _ _ Hpop) as HP.
  assert (He : In e (open_list l)).
  { apply (Permutation_in _ (Permutation_sym HP)). left. reflexivity. }
  pose proof Hb as [_ [HF [_ Hgp]]].
  rewrite Forall_forall in HF, Hop, Hfr.
  destruct (HF e He) as [Hs _].
  pose proof (cached_good w h init _ Hs) as Ha. fold active in Ha.
  assert (Hfa : flat active = flat (e_state e)) by apply cached_flat.
  assert (Hma : moveChar active = moveChar (e_state e)) by apply cached_moveChar.
  assert (Hnc : ~ closed_has (closed_list l) (flat (e_state e))).
  { intro Hc. apply (closed_has_contains _ _ Hgp Hs) in Hc. congruence. }
  assert (Hset : dict_set (closed_list l) active (e_prev e)
                 = closed_list l ++ [(active, e_prev e)]).
  { apply dict_set_new. rewrite <- Hnew. apply dict_contains_hash.
    cbn [py_hash]. destruct Hs as [_ [_ [_ Hhs]]]. destruct Ha as [_ [_ [_ Hha]]].
    rewrite (State_hash_fst _ Hhs), (State_hash_fst _ Hha), Hfa. reflexivity. }
  set (closed' := closed_list l ++ [(active, e_prev e)]) in *.
  assert (Hincl : incl (closed_list l) closed').
  { intros x Hx. apply in_or_app. auto. }
  assert (Hlen' : length closed' = S (length (closed_list l))).
  { unfold closed'. rewrite length_app. simpl. lia. }
  pose proof (pop_optimal w h init l e rest Hinv Hpop Hnc) as Hopt.
  assert (Htrace : exists ms, trace w h init closed' active ms
                              /\ (length ms < length closed')%nat
                              /\ len ms = e_g e).
  { destruct (Hop e He) as [[[Hp [_ [Hg0 _]]] [Hfl _]]
                           |[_ [p [ms [Hp [Ht [Hl [Hg Hmv]]]]]]]].
    - exists []. split; [|split; [simpl; lia | unfold len; simpl; lia]].
      apply trace_start; [|congruence].
      unfold closed'. apply in_or_app. right. rewrite Hp. left. reflexivity.
    - exists (ms ++ [moveChar active]). split; [|split].
      + apply trace_move with (p := p).
        * unfold closed'. apply in_or_app. right. rewrite Hp. left. reflexivity.
        * apply (trace_more w h init (closed_list l)); assumption.
        * rewrite Hma, Hfa. exact Hmv.
      + rewrite length_app. simpl. lia.
      + rewrite len_app. unfold len at 2. simpl. lia. }
  destruct Htrace as [msa [Hta [Hla Hga]]].
  destruct (expand_entries w h (closed_list l) active (e_g e) (counter l, rest))
    as [Ekeep [Eorigin [Echild _]]]. fold io in Ekeep, Eorigin, Echild.
  cbn [snd] in Ekeep, Eorigin.
  pose proof Hb' as [_ [HF' _]]. unfold l' in HF'. cbn [open_list counter] in HF'.
  rewrite Forall_forall in HF'.
  assert (Hchild_pushed :
            forall e', In e' (snd io) ->
                       child_entry w h (closed_list l) active (e_g e) e' ->
                       pushed_entry w e').
  { intros e' He' [c [fl [_ [_ [_ [Hp _]]]]]].
    destruct (HF' e' He') as [_ [_ [_ [_ [[Hn _]|Hpu]]]]]; [congruence | exact Hpu]. }
  unfold astar_inv, l'. cbn [counter closed_list open_list]. rewrite Hset.
  split; [unfold l' in Hb'; rewrite Hset in Hb'; exact Hb'|].
  split; [|split; [|split; [|split]]].
  - unfold closed'. rewrite map_app. cbn [map fst].
    apply NoDup_snoc; [exact Hnd|].
    intro Hin. apply in_map_iff in Hin. destruct Hin as [kv [Hf Hkv]].
    apply Hnc. exists kv. split; [exact Hkv | congruence].
  - unfold closed' at 2. apply Forall_app. split.
    + apply Forall_forall. intros kv Hkv. rewrite Forall_forall in Hcl.
      destruct (Hcl kv Hkv) as [Hz [ms [Ht [Hl Ho]]]].
      split; [exact Hz|]. exists ms. split; [|split; [lia | exact Ho]].
      apply (trace_more w h init (closed_list l)); assumption.
    + constructor; [|constructor]. unfold closed_ok. cbn [fst].
      split; [rewrite Hfa; exact Hnz|].
      exists msa. split; [exact Hta|]. split; [exact Hla|].
      rewrite Hga, Hfa. exact Hopt.
  - apply Forall_forall. intros e' He'. right.
    destruct (Eorigin e' He') as [Hold|Hchild].
    + assert (He'o : In e' (open_list l)).
      { apply (Permutation_in _ (Permutation_sym HP)). right. exact Hold. }
      destruct (Hop e' He'o) as [[_ [_ [_ Ho]]]|[Hpu [p [ms [Hp [Ht [Hl [Hg Hmv]]]]]]]].
      * exfalso. apply Permutation_length in HP. rewrite Ho in HP. simpl in HP.
        destruct rest; [contradiction | simpl in HP; lia].
      * split; [exact Hpu|]. exists p, ms.
        split; [exact Hp|]. split; [|split; [lia | split; assumption]].
        apply (trace_more w h init (closed_list l)); assumption.
    + split; [apply Hchild_pushed; assumption|].
      destruct Hchild as [c [fl [Hmv [_ [Hst [Hp Hg]]]]]].
      exists active, msa. split; [exact Hp|]. split; [exact Hta|].
      split; [exact Hla|]. split; [lia|].
      rewrite Hst. cbn [child_state moveChar flat]. exact Hmv.
  - unfold closed' at 2. apply Forall_app. split.
    + apply Forall_forall. intros kv Hkv m u Hm.
      destruct (Hfr kv Hkv m u Hm) as [Hc|[e' [He' [Hu Hrest]]]].
      * left. apply closed_has_more. exact Hc.
      * apply (Permutation_in _ HP) in He'. destruct He' as [<-|He'].
        -- left. exists (active, e_prev e). split.
           ++ apply in_or_app. right. left. reflexivity.
           ++ cbn [fst]. congruence.
        -- right. exists e'. split; [apply Ekeep; exact He' | auto].
    + constructor; [|constructor]. intros m u Hm. cbn [fst] in Hm.
      destruct (Echild m u Hm) as [Hseen|[e' [He' [Hch Hst]]]].
      * left. apply closed_has_more.
        assert (Hgc : good_state w h init (child_state w m u)).
        { destruct Ha as [HPa [Hga' _]].
          apply (child_state_good w h init m (flat active)); assumption. }
        rewrite Hfa in Hm.
        apply (contains_closed_has _ _ Hgp Hgc (Hex m u Hm)) in Hseen.
        exact Hseen.
      * right. exists e'. split; [exact He'|]. split; [rewrite Hst; reflexivity|].
        split; [apply Hchild_pushed; assumption|].
        destruct Hch as [_ [_ [_ [_ [_ [_ Hg]]]]]]. cbn [fst].
        rewrite Hg, Hfa. replace (e_g e + 1 - 1) with (e_g e) by lia. exact Hopt.
  - left. destruct Hinit as [Hc|[e0 [Ho [_ [Hf0 _]]]]].
    + apply closed_has_more. exact Hc.
    + rewrite Ho in He. destruct He as [<-|[]].
      exists (active, e_prev e0). split.
      * apply in_or_app. right. left. reflexivity.
      * cbn [fst]. congruence.
Qed.

Hypothesis Hstart : manhattan w init <> 0.

(** A round of the loop whose lookups are decided right: it goes on with
    the invariant and fewer rounds left, or it returns a shortest move
    sequence to a state of score zero. *)
Lemma round_cases_exact (l : loop_state) (e : entry) (rest : list entry) :
  astar_inv w h init l ->
  path_inv w h init l ->
  round_exact w h l ->
  heappop (open_list l) = Some (e, rest) ->
  (exists l', iteration w h l e rest = Ret (inl l')
              /\ astar_inv w h init l'
              /\ rounds_left init l' < rounds_left init l)
  \/ (exists path, iteration w h l e rest = Ret (inr (Some path))
                   /\ apply_moves w h path init = Some (flat (e_state e))
                   /\ manhattan w (flat (e_state e)) = 0
                   /\ optimal w h init (flat (e_state e)) (len path)).
Proof.
  intros Hinv Hpinv Hexact Hpop.
  destruct (Hexact e rest Hpop) as [Hex Hex'].
  pose proof Hinv as [Hb [Hnd [Hcl [Hop [Hfr Hinit]]]]].
  pose proof Hpinv as [_ [Hndh _]].
  pose proof (heappop_Permutation _ _ _ Hpop) as HP.
  assert (He : In e (open_list l)).
  { apply (Permutation_in _ (Permutation_sym HP)). left. reflexivity. }
  pose proof Hb as [_ [HF [_ Hgp]]].
  rewrite Forall_forall in HF, Hop.
  destruct (HF e He) as [Hs _].
  pose proof Hs as [_ [Hg [Hsc Hh]]].
  pose proof (iteration_value w h l e rest Hg Hsc Hh) as Hit. cbv zeta in Hit.
  assert (Hlo : len (open_list l) = 1 + len rest).
  { unfold len. rewrite (Permutation_length HP). cbn [length]. lia. }
  destruct (dict_contains (closed_list l) (Some (e_state e))) eqn:Hseen.
  - left. eexists. split; [exact Hit|]. split.
    + apply (astar_inv_skip_exact l e rest); auto.
      apply (basic_inv_round w h init l _ e rest Hb Hpop Hit).
    + unfold rounds_left. cbn [closed_list open_list]. lia.
  - destruct (Hex' eq_refl) as [Hnone Hchildren].
    assert (Hnc : ~ closed_has (closed_list l) (flat (e_state e))).
    { intro Hc. apply (closed_has_contains _ _ Hgp Hs) in Hc. congruence. }
    destruct (Z.eqb_spec (manhattan w (flat (e_state e))) 0) as [Hz|Hnz].
    + right.
      destruct (Hop e He) as [[_ [Hfl _]]|[_ [p [ms [Hp [Ht [Hl [Hge Hmv]]]]]]]].
      * exfalso. apply Hstart. rewrite <- Hfl. exact Hz.
      * rewrite Hp in Hit.
        rewrite (make_path_traced w h init (closed_list l) Hgp Hndh _ p ms Ht Hl)
          in Hit.
        rewrite (no_key_like_None (closed_list l) Hgp (Hnone Hz)) in Hit.
        cbn [bind] in Hit. rewrite cached_moveChar in Hit.
        eexists. split; [exact Hit|]. split; [|split; [exact Hz|]].
        -- apply (apply_moves_snoc w h ms _ init (flat p)); [|exact Hmv].
           apply (trace_moves w h init (closed_list l)). exact Ht.
        -- replace (len (ms ++ [moveChar (e_state e)])) with (e_g e).
           ++ apply (pop_optimal w h init l e rest); assumption.
           ++ rewrite len_app, Hge. unfold len. cbn [length]. lia.
    + left. eexists. split; [exact Hit|].
      pose proof (basic_inv_round w h init l _ e rest Hb Hpop Hit) as Hb'.
      split;
        [exact (astar_inv_expand_exact l e rest Hinv Hpop Hseen Hnz
                  (Hchildren Hnz) Hb')|].
      unfold rounds_left. cbn [closed_list open_list].
      rewrite dict_set_new.
      * destruct (expand_entries w h (closed_list l) (snd (State_hash (e_state e)))
                    (e_g e) (counter l, rest)) as [_ [_ [_ Hlen]]].
        cbn [snd] in Hlen. rewrite len_app. unfold len in *. cbn [length]. lia.
      * rewrite <- Hseen. apply dict_contains_hash. cbn [py_hash].
        pose proof (cached_good w h init _ Hs) as [_ [_ [_ Hha]]].
        rewrite (State_hash_fst _ Hh), (State_hash_fst _ Hha), cached_flat.
        reflexivity.
Qed.

Variable s0 : State.
Hypothesis Hs0 : good_state w h init s0.
Hypothesis Hf0 : flat s0 = init.
Hypothesis Hexact : forall l, runs w h s0 l -> round_exact w h l.

Lemma astar_closed_bound (l : loop_state) :
  astar_inv w h init l ->
  len (closed_list l) <= len (words init (length init)).
Proof.
  intros [[_ [_ [_ Hgp]]] [Hnd _]]. unfold len.
  rewrite <- (length_map (fun kv => flat (fst kv)) (closed_list l)).
  apply inj_le. apply NoDup_incl_length; [exact Hnd|].
  intros fl Hin. apply in_map_iff in Hin. destruct Hin as [kv [<- Hkv]].
  rewrite Forall_forall in Hgp. destruct (Hgp kv Hkv) as [[HP _] _].
  rewrite (Permutation_length HP). apply in_words.
  intros x Hx. apply (Permutation_in _ (Permutation_sym HP)). exact Hx.
Qed.

(** With the goal in reach and the lookups of the run decided right, the
    loop returns within the rounds that are left, and what it returns is
    a shortest move sequence to a state of score zero. *)
Lemma search_finds_exact (ms : list string) (goal : list Z) (fuel : nat)
    (l : loop_state) :
  apply_moves w h ms init = Some goal -> manhattan w goal = 0 ->
  runs w h s0 l ->
  astar_inv w h init l ->
  rounds_left init l < Z.of_nat fuel ->
  exists path fl,
    search fuel w h l = Ret (Some path)
    /\ apply_moves w h path init = Some fl
    /\ manhattan w fl = 0
    /\ optimal w h init fl (len path).
Proof.
  intros Hms Hgoal. revert l.
  induction fuel as [|fuel IH]; intros l Hr Hinv Hfuel.
  - pose proof (astar_closed_bound l Hinv). unfold rounds_left, len in *. lia.
  - cbn [search]. destruct (heappop (open_list l)) as [[e rest]|] eqn:Hpop.
    + destruct (round_cases_exact l e rest Hinv
                  (runs_path_inv w h init Hstart s0 l Hs0 Hf0 Hr)
                  (Hexact l Hr) Hpop)
        as [[l' [E [Hinv' Hlt]]]|[path [E [Hp [Hz Ho]]]]].
      * rewrite E. cbn [bind]. apply IH; [|exact Hinv' | lia].
        apply (runs_round w h s0 l e rest l'); assumption.
      * rewrite E. cbn [bind]. exists path, (flat (e_state e)). auto.
    + exfalso. apply heappop_None in Hpop.
      destruct (frontier_entry w h init l ms goal Hinv Hms)
        as [e [_ [_ [He _]]]].
      * intros [kv [Hkv Hf]]. destruct Hinv as [_ [_ [Hcl _]]].
        rewrite Forall_forall in Hcl. destruct (Hcl kv Hkv) as [Hnz _].
        rewrite Hf in Hnz. contradiction.
      * rewrite Hpop in He. contradiction.
Qed.

End ExactRounds.

(** ** [solve] on a configuration with the goal in reach *)

(** A hash that does not collide on the rearrangements of the initial
    sequence decides every lookup of the run right. *)
Lemma collision_free_run_exact (p : list (list Z)) :
  valid_configuration p = true ->
  collision_free (flatten p) -> run_exact p.
Proof.
  intros Hv [Hinj Hnone] l Hin e rest Hpop.
  destruct (in_solve_inv p l Hv Hin) as [[_ [HF [_ Hgp]]] _].
  pose proof (heappop_Permutation _ _ _ Hpop) as HP.
  assert (He : In e (open_list l)).
  { apply (Permutation_in _ (Permutation_sym HP)). left. reflexivity. }
  rewrite Forall_forall in HF, Hgp.
  destruct (HF e He) as [[HPe [Hge _]] _].
  split; [|intros _; split].
  - intros kv Hkv Hh. destruct (Hgp kv Hkv) as [[HPk _] _].
    apply Hinj; assumption.
  - intros _ kv Hkv. destruct (Hgp kv Hkv) as [[HPk _] _].
    apply Hnone. exact HPk.
  - intros _ c fl Hm kv Hkv Hh. destruct (Hgp kv Hkv) as [[HPk _] _].
    destruct (apply_move_grid _ _ _ _ _ Hge Hm) as [HPf _].
    apply Hinj; [exact HPk | exact (Permutation_trans HPe HPf) | exact Hh].
Qed.

(** On a valid configuration from which a move sequence leads to the goal,
    in a run whose lookups the hash decides right, [solve] returns, given
    enough fuel for the loop, a move sequence that leads to the goal and
    that no other one undercuts. *)
Lemma solve_optimal_exact (p : list (list Z)) :
  valid_configuration p = true ->
  (exists ms, apply_moves (len (hd [] p)) (len p) ms (flatten p)
              = Some (goal_configuration (length (flatten p)))) ->
  run_exact p ->
  exists N, forall fuel, (N <= fuel)%nat ->
    exists path,
      solve fuel p = Ret (Some path)
      /\ apply_moves (len (hd [] p)) (len p) path (flatten p)
         = Some (goal_configuration (length (flatten p)))
      /\ optimal (len (hd [] p)) (len p) (flatten p)
           (goal_configuration (length (flatten p))) (len path).
Proof.
  intros Hv [ms Hms] Hexact.
  pose proof (valid_configuration_grid p Hv) as Hg.
  pose proof Hg as [Hw [Hh [Hlen Hc]]].
  pose proof (reachable_goal_is_solvable p ms Hv Hms) as Hsolv.
  pose proof (valid_configuration_Permutation p Hv) as Hperm.
  unfold run_exact in Hexact.
  set (w := len (hd [] p)) in *. set (h := len p) in *.
  set (init := flatten p) in *.
  set (s0 := {| flat := init; moveChar := ""; _hash := 0;
                _score := manhattan w init |}).
  assert (Hn : (0 < length init)%nat).
  { destruct init; [discriminate | simpl; lia]. }
  exists (Z.to_nat (rounds_left init (initial_loop s0)) + 1)%nat.
  intros fuel Hfuel. unfold solve. rewrite Hsolv. cbn [bind negb].
  destruct p as [|row0 rest]; [discriminate|].
  cbn [first_row bind]. fold w h. cbn [hd] in w. fold w.
  rewrite score_make_state by lia. cbn [bind]. fold init. fold s0.
  destruct (Z.eqb_spec (manhattan w init) 0) as [Hz|Hnz].
  - exists []. split; [reflexivity|].
    rewrite <- (manhattan_zero_goal w init Hw Hn Hperm Hz).
    split; [reflexivity|]. intros ms' _. unfold len. simpl. lia.
  - assert (Hruns : forall l, runs w h s0 l -> round_exact w h l).
    { intros l Hr. apply Hexact. exists row0, (manhattan w init), s0.
      split; [exact Hsolv|]. split; [reflexivity|].
      split; [fold w; apply score_make_state; lia|].
      split; [apply Z.eqb_neq; exact Hnz | exact Hr]. }
    destruct (search_finds_exact w h init Hnz s0
                (initial_state_good w h init Hg) eq_refl Hruns
                ms _ fuel (initial_loop s0) Hms)
      as [path [fl [Hs [Hp [Hfz Ho]]]]].
    + apply manhattan_goal. exact Hw.
    + apply runs_start.
    + apply astar_inv_initial; [apply initial_state_good; exact Hg | reflexivity].
    + lia.
    + destruct (apply_moves_grid w h path init fl Hg Hp) as [HP _].
      assert (Hfl : fl = goal_configuration (length init)).
      { rewrite (Permutation_length HP).
        apply (manhattan_zero_goal w fl Hw).
        - rewrite <- (Permutation_length HP). exact Hn.
        - rewrite <- (Permutation_length HP).
          eapply Permutation_trans; eassumption.
        - exact Hfz. }
      subst fl. exists path. auto.
Qed.

(** The same with a hash that does not collide on the rearrangements of
    the initial sequence. *)
Lemma solve_optimal (p : list (list Z)) :
  valid_configuration p = true ->
  collision_free (flatten p) ->
  (exists ms, apply_moves (len (hd [] p)) (len p) ms (flatten p)
              = Some (goal_configuration (length (flatten p)))) ->
  exists N, forall fuel, (N <= fuel)%nat ->
    exists path,
      solve fuel p = Ret (Some path)
      /\ apply_moves (len (hd [] p)) (len p) path (flatten p)
         = Some (goal_configuration (length (flatten p)))
      /\ optimal (len (hd [] p)) (len p) (flatten p)
           (goal_configuration (length (flatten p))) (len path).
Proof.
  intros Hv Hfree Hreach.
  apply solve_optimal_exact; [exact Hv | exact Hreach|].
  apply collision_free_run_exact; assumption.
Qed.




(** ** [solve] with a hash that may collide *)

Lemma in_solve_path_inv (p : list (list Z)) (l : loop_state) :
  valid_configuration p = true -> in_solve p l ->
  path_inv (len (hd [] p)) (len p) (flatten p) l.
Proof.
  intros Hv [row0 [h0 [s0 [Hsolv [Hrow [Hsc [Hh0 Hr]]]]]]].
  pose proof (valid_configuration_grid p Hv) as Hg.
  destruct p as [|r0 rest]; [discriminate|].
  injection Hrow as <-. cbn [hd] in *.
  pose proof Hg as [Hw _].
  rewrite score_make_state in Hsc by lia. injection Hsc as <- <-.
  apply Z.eqb_neq in Hh0.
  eapply runs_path_inv;
    [exact Hh0 | apply initial_state_good; exact Hg | reflexivity | exact Hr].
Qed.

(** What [solve] ends with on a valid configuration, whatever the hash
    and the fuel. *)
Lemma solve_any_hash (p : list (list Z)) (fuel : nat) :
  valid_configuration p = true ->
  match solve fuel p with
  | Ret (Some path) =>
      apply_moves (len (hd [] p)) (len p) path (flatten p)
      = Some (goal_configuration (length (flatten p)))
  | Ret None => True
  | Raise e =>
      e = AttributeError
      /\ exists a, Permutation (flatten p) a /\ hash_tuple a = hash_none
  | OutOfFuel =>
      Z.of_nat fuel
      <= rounds_left (flatten p)
           (initial_loop
              {| flat := flatten p; moveChar := ""; _hash := 0;
                 _score := manhattan (len (hd [] p)) (flatten p) |})
  end.
Proof.
  intro Hv.
  pose proof (valid_configuration_grid p Hv) as Hg.
  pose proof Hg as [Hw [Hh [Hlen Hc]]].
  pose proof (valid_configuration_Permutation p Hv) as Hperm.
  set (w := len (hd [] p)) in *. set (h := len p) in *.
  set (init := flatten p) in *.
  set (s0 := {| flat := init; moveChar := ""; _hash := 0;
                _score := manhattan w init |}).
  assert (Hn : (0 < length init)%nat).
  { destruct init; [discriminate | simpl; lia]. }
  unfold solve. rewrite (is_solvable_flat p Hv). cbn [bind].
  destruct (parity_even (len (hd [] p)) (len p) (flatten p)); cbn [negb];
    [|exact I].
  destruct p as [|row0 rest]; [discriminate|].
  cbn [first_row bind]. fold w h. cbn [hd] in w. fold w.
  rewrite score_make_state by lia. cbn [bind]. fold init. fold s0.
  destruct (Z.eqb_spec (manhattan w init) 0) as [Hz|Hnz].
  - rewrite <- (manhattan_zero_goal w init Hw Hn Hperm Hz). reflexivity.
  - pose proof (search_any_hash w h init Hnz fuel (initial_loop s0)
                  (path_inv_initial w h init s0
                     (initial_state_good w h init Hg) eq_refl)) as Ho.
    destruct (search fuel w h (initial_loop s0)) as [[path|]|e|];
      cbn [search_outcome] in Ho; auto.
    destruct Ho as [fl [Hp Hfz]].
    destruct (apply_moves_grid w h path init fl Hg Hp) as [HP _].
    rewrite Hp. f_equal.
    rewrite (Permutation_length HP).
    apply (manhattan_zero_goal w fl Hw).
    + rewrite <- (Permutation_length HP). exact Hn.
    + rewrite <- (Permutation_length HP).
      eapply Permutation_trans; eassumption.
    + exact Hfz.
Qed.

(** Whatever the hash and whatever the fuel: a move sequence that [solve]
    returns on a valid configuration leads from that configuration to the
    goal.  Collisions of the hash can make [solve] miss a solution or
    return one that is not the shortest, they cannot make it return a
    wrong one; in particular it returns the empty sequence for the solved
    configuration only. *)
Theorem solve_moves_reach_goal (puzzle_data : list (list Z)) (fuel : nat)
    (path : list string) :
  valid_configuration puzzle_data = true ->
  solve fuel puzzle_data = Ret (Some path) ->
  apply_moves (len (hd [] puzzle_data)) (len puzzle_data) path
    (flatten puzzle_data)
  = Some (goal_configuration (length (flatten puzzle_data))).
Proof.
  intros Hv Hs. pose proof (solve_any_hash puzzle_data fuel Hv) as H.
  rewrite Hs in H. exact H.
Qed.

(** Whatever the hash, [solve] ends on every valid configuration: given
    enough rounds it returns, or it raises the [AttributeError] of
    [make_path], and this only when some rearrangement of the cells hashes
    like [None].  No subscript is out of range, no key is missing, no
    division is by zero. *)
Theorem solve_ends (puzzle_data : list (list Z)) :
  valid_configuration puzzle_data = true ->
  exists N, forall fuel, (N <= fuel)%nat ->
    (exists r, solve fuel puzzle_data = Ret r)
    \/ (solve fuel puzzle_data = Raise AttributeError
        /\ exists a, Permutation (flatten puzzle_data) a
                     /\ hash_tuple a = hash_none).
Proof.
  intro Hv.
  exists (Z.to_nat
            (rounds_left (flatten puzzle_data)
               (initial_loop
                  {| flat := flatten puzzle_data; moveChar := ""; _hash := 0;
                     _score := manhattan (len (hd [] puzzle_data))
                                 (flatten puzzle_data) |})) + 1)%nat.
  intros fuel Hfuel. pose proof (solve_any_hash puzzle_data fuel Hv) as H.
  destruct (solve fuel puzzle_data) as [r|e|].
  - left. exists r. reflexivity.
  - right. destruct H as [-> Ha]. auto.
  - exfalso. lia.
Qed.

(** ** The closed list and the open list of a search, whatever the hash *)

(** No configuration is closed twice: the keys of the closed list have
    pairwise different flat sequences, and none of them is the goal. *)
Theorem closed_keys_differ (puzzle_data : list (list Z)) (l : loop_state) :
  valid_configuration puzzle_data = true ->
  in_solve puzzle_data l ->
  NoDup (map (fun kv => flat (fst kv)) (closed_list l))
  /\ Forall (fun kv => flat (fst kv)
                       <> goal_configuration (length (flatten puzzle_data)))
       (closed_list l).
Proof.
  intros Hv Hin.
  pose proof (valid_configuration_grid puzzle_data Hv) as [Hw _].
  destruct (in_solve_path_inv puzzle_data l Hv Hin) as [Hb [Hnd [Hcl _]]].
  split.
  - apply (NoDup_map_inv hash_tuple). rewrite map_map. exact Hnd.
  - rewrite Forall_forall in *. intros kv Hkv E.
    destruct (Hcl kv Hkv) as [Hz _]. apply Hz. rewrite E.
    apply manhattan_goal. exact Hw.
Qed.

(** The closed list maps a state to the state it was reached from.  A key
    has one value.  The value [None] belongs to the initial configuration;
    any other value is itself a key of the closed list, and the move that
    the key records leads from the value's flat sequence to the key's. *)
Theorem closed_list_predecessors (puzzle_data : list (list Z)) (l : loop_state)
    (k : State) (v : option State) :
  valid_configuration puzzle_data = true ->
  in_solve puzzle_data l ->
  In (k, v) (closed_list l) ->
  (forall v', In (k, v') (closed_list l) -> v' = v)
  /\ match v with
     | None => flat k = flatten puzzle_data
     | Some q =>
         (exists v', In (q, v') (closed_list l))
         /\ apply_move (len (hd [] puzzle_data)) (len puzzle_data)
              (moveChar k) (flat q)
            = Some (flat k)
     end.
Proof.
  intros Hv Hin Hk.
  destruct (in_solve_path_inv puzzle_data l Hv Hin) as [Hb [Hnd [Hcl _]]].
  pose proof Hb as [_ [_ [_ Hgp]]].
  assert (Honce : forall v', In (k, v') (closed_list l) -> v' = v).
  { intros v' Hv'. eapply dict_key_once; eassumption. }
  split; [exact Honce|].
  rewrite Forall_forall in Hcl. destruct (Hcl (k, v) Hk) as [_ [ms [Ht _]]].
  cbn [fst] in Ht.
  inversion Ht as [k' Hin' Hf|k' q ms' Hin' Hq Hm]; subst.
  - rewrite <- (Honce None Hin'). exact Hf.
  - rewrite <- (Honce (Some q) Hin'). split; [|exact Hm].
    inversion Hq; subst; eexists; eassumption.
Qed.

Lemma NoDup_map_In {A B : Type} (f : A -> B) (l : list A) (a b : A) :
  NoDup (map f l) -> In a l -> In b l -> f a = f b -> a = b.
Proof.
  induction l as [|x t IH]; [contradiction|]. cbn [map]. intros Hnd Ha Hb E.
  inversion Hnd as [|? ? Hx Hnd']; subst.
  destruct Ha as [->|Ha], Hb as [->|Hb]; auto.
  - exfalso. apply Hx. rewrite E. apply in_map. exact Hb.
  - exfalso. apply Hx. rewrite <- E. apply in_map. exact Ha.
Qed.

(** The sequence numbers decide the order of the heap: two different
    entries of the open list have different sequence numbers, between [0]
    and the counter, so the tuple comparison of [heapq] orders them by
    [(f, g, i)] and never gets to compare two states. *)
Theorem open_entries_are_ordered (puzzle_data : list (list Z)) (l : loop_state)
    (a b : entry) :
  valid_configuration puzzle_data = true ->
  in_solve puzzle_data l ->
  In a (open_list l) -> In b (open_list l) -> a <> b ->
  e_i a <> e_i b
  /\ 0 <= e_i a <= counter l
  /\ entry_ltb a b = negb (entry_ltb b a).
Proof.
  intros Hv Hin Ha Hb Hab.
  destruct (in_solve_inv puzzle_data l Hv Hin) as [[Hc [HF [Hnd _]]] _].
  assert (Hi : e_i a <> e_i b).
  { intro E. apply Hab. apply (NoDup_map_In e_i (open_list l)); assumption. }
  split; [exact Hi|]. split.
  - rewrite Forall_forall in HF.
    destruct (HF a Ha) as [_ [_ [_ [Hle [[_ [_ [_ H0]]]|[_ [_ H0]]]]]]]; lia.
  - unfold entry_ltb.
    destruct (Z.ltb_spec (e_f a) (e_f b)), (Z.eqb_spec (e_f a) (e_f b)),
      (Z.ltb_spec (e_f b) (e_f a)), (Z.eqb_spec (e_f b) (e_f a)),
      (Z.ltb_spec (e_g a) (e_g b)), (Z.eqb_spec (e_g a) (e_g b)),
      (Z.ltb_spec (e_g b) (e_g a)), (Z.eqb_spec (e_g b) (e_g a)),
      (Z.ltb_spec (e_i a) (e_i b)), (Z.ltb_spec (e_i b) (e_i a));
      cbn [orb andb negb]; try reflexivity; lia.
Qed.


(** ** The priority of an entry and of its predecessor *)

Lemma apply_move_manhattan_one (w h : Z) (c : string) (fl fl' : list Z) :
  grid w h fl -> apply_move w h c fl = Some fl' ->
  Z.abs (manhattan w fl' - manhattan w fl) = 1.
Proof.
  intros Hg H.
  destruct (apply_move_legal _ _ _ _ _ Hg H) as [b [dx [dy [Hb [Hl ->]]]]].
  pose proof Hg as [Hw [Hh [Hlen Hc]]].
  pose proof (blank_index_range _ _ Hb) as [Hbr _].
  destruct (blank_coordinates w h b Hw) as [Hx Hy]; [lia|].
  pose proof (move_legal_score w h (mkState fl "" 0 0) b dx dy Hg Hb Hl) as E.
  cbn [flat] in E. cbv zeta in E. rewrite E.
  pose proof (tile_distance_neighbour w h
                (nth (Z.to_nat (index (b mod w + dx) (b / w + dy) w)) fl 0)
                (b mod w) (b / w) dx dy Hw Hx Hl) as Hs.
  rewrite index_from_index in Hs by lia. lia.
Qed.

(** The priority never goes down from a state to its successor: an entry
    that was pushed from the state [q], which is [g - 1] moves from the
    start, has as its [f] the sum of [g - 1] and the score of [q], or two
    more. *)
Theorem child_priority (puzzle_data : list (list Z)) (l : loop_state)
    (e : entry) (q : State) :
  valid_configuration puzzle_data = true ->
  in_solve puzzle_data l ->
  In e (open_list l) -> e_prev e = Some q ->
  e_f e = e_g e - 1 + _score q \/ e_f e = e_g e - 1 + _score q + 2.
Proof.
  intros Hv Hin He Hq.
  destruct (in_solve_path_inv puzzle_data l Hv Hin) as [Hb [_ [_ Hop]]].
  destruct Hb as [_ [HF _]]. rewrite Forall_forall in HF, Hop.
  destruct (HF e He) as [_ [Hgq _]].
  destruct (Hgq q Hq) as [_ [Hg [Hsq _]]].
  destruct (Hop e He) as [[[Hn _] _]|[[_ [Hf _]] [p [ms [Hp [_ [_ [_ Hm]]]]]]]];
    [congruence|].
  assert (p = q) by congruence. subst p.
  pose proof (apply_move_manhattan_one _ _ _ _ _ Hg Hm). lia.
Qed.

(** ** The moves that [solve] returns *)

Lemma apply_moves_chars (w h : Z) (ms : list string) (a b : list Z) :
  apply_moves w h ms a = Some b ->
  Forall (fun c => c = "U" \/ c = "D" \/ c = "L" \/ c = "R") ms.
Proof.
  revert a. induction ms as [|m ms IH]; intros a H; [constructor|].
  cbn [apply_moves] in H.
  destruct (apply_move w h m a) as [a'|] eqn:E; [|discriminate].
  constructor; [apply (apply_move_char _ _ _ _ _ E) | apply (IH a' H)].
Qed.

(** Whatever the hash, a move sequence that [solve] returns on a valid
    configuration is made of the characters [U], [D], [L] and [R], and it
    has at least as many moves as the score of the initial state. *)
Theorem solve_moves_alphabet (puzzle_data : list (list Z)) (fuel : nat)
    (path : list string) :
  valid_configuration puzzle_data = true ->
  solve fuel puzzle_data = Ret (Some path) ->
  Forall (fun c => c = "U" \/ c = "D" \/ c = "L" \/ c = "R") path
  /\ manhattan (len (hd [] puzzle_data)) (flatten puzzle_data) <= len path.
Proof.
  intros Hv Hs. pose proof (solve_any_hash puzzle_data fuel Hv) as H.
  rewrite Hs in H. split; [apply (apply_moves_chars _ _ _ _ _ H)|].
  pose proof (valid_configuration_grid puzzle_data Hv) as Hg.
  pose proof (manhattan_moves _ _ path _ _ Hg H) as Hm.
  rewrite manhattan_goal in Hm by apply Hg. lia.
Qed.

(** With a hash that does not collide, the answer "no solution" is right
    whatever the fuel: when [solve] returns [None] on a valid
    configuration, no move sequence leads from it to the goal. *)
Theorem solve_none_no_moves (puzzle_data : list (list Z)) (fuel : nat)
    (ms : list string) :
  valid_configuration puzzle_data = true ->
  collision_free (flatten puzzle_data) ->
  solve fuel puzzle_data = Ret None ->
  apply_moves (len (hd [] puzzle_data)) (len puzzle_data) ms
    (flatten puzzle_data)
  <> Some (goal_configuration (length (flatten puzzle_data))).
Proof.
  intros Hv Hfree Hs Hms.
  destruct (solve_optimal puzzle_data Hv Hfree (ex_intro _ ms Hms)) as [N HN].
  destruct (HN (Nat.max N fuel) (Nat.le_max_l N fuel)) as [path [E _]].
  rewrite (solve_enough_fuel fuel (Nat.max N fuel) puzzle_data None
             (Nat.le_max_r N fuel) Hs) in E.
  discriminate.
Qed.

(** ** The inversion count of a sorted list *)

Lemma smaller_after_nonneg (x : Z) (l : list Z) : 0 <= smaller_after x l.
Proof.
  induction l as [|y t IH]; cbn [smaller_after]; [lia|].
  destruct (y <? x); lia.
Qed.

Lemma inversions_nonneg (l : list Z) : 0 <= inversions l.
Proof.
  induction l as [|x t IH]; cbn [inversions]; [lia|].
  pose proof (smaller_after_nonneg x t). lia.
Qed.

Lemma smaller_after_zero_iff (x : Z) (l : list Z) :
  smaller_after x l = 0 <-> Forall (Z.le x) l.
Proof.
  induction l as [|y t IH]; cbn [smaller_after].
  - split; [constructor | reflexivity].
  - pose proof (smaller_after_nonneg x t).
    destruct (Z.ltb_spec y x); split; intro H'.
    + lia.
    + inversion H' as [|? ? Hy Ht]; subst. lia.
    + constructor; [lia | apply IH; lia].
    + inversion H' as [|? ? Hy Ht]; subst. apply IH in Ht. lia.
Qed.

(** The two loops of [is_solvable] count no inversion exactly on the lists
    that are sorted in non-decreasing order, and never a negative number. *)
Theorem count_inversions_sorted (l : list Z) :
  0 <= count_inversions l
  /\ (count_inversions l = 0 <-> StronglySorted Z.le l).
Proof.
  rewrite count_inversions_inversions. split; [apply inversions_nonneg|].
  induction l as [|x t IH]; cbn [inversions].
  - split; [constructor | reflexivity].
  - pose proof (smaller_after_nonneg x t). pose proof (inversions_nonneg t).
    split; intro H'.
    + constructor; [apply IH; lia | apply smaller_after_zero_iff; lia].
    + inversion H' as [|? ? Hs Hf]; subst.
      apply IH in Hs. apply smaller_after_zero_iff in Hf. lia.
Qed.


(** ** The row of the blank *)

Lemma find_blank_row_from (p : list (list Z)) (i : Z) :
  (In 0 (concat p) ->
   exists r row,
     find_blank_row p i = i + Z.of_nat r
     /\ nth_error p r = Some row /\ In 0 row
     /\ forall r' row', (r' < r)%nat -> nth_error p r' = Some row' ->
                        ~ In 0 row')
  /\ (~ In 0 (concat p) -> find_blank_row p i = -1).
Proof.
  revert i. induction p as [|row rest IH]; intro i.
  - split; [contradiction | reflexivity].
  - cbn [find_blank_row concat].
    destruct (Z.gtb_spec (list_count row 0) 0) as [Hc|Hc].
    + split.
      * intros _. exists O, row. split; [simpl; lia|].
        split; [reflexivity|]. split; [apply list_count_In; lia|].
        intros r' row' Hr. lia.
      * intro Hn. exfalso. apply Hn. apply in_or_app. left.
        apply list_count_In. lia.
    + assert (Hrow : ~ In 0 row).
      { intro Hin. apply list_count_In in Hin. lia. }
      destruct (IH (i + 1)) as [IHy IHn]. split.
      * intro Hin. apply in_app_or in Hin. destruct Hin as [Hin|Hin];
          [contradiction|].
        destruct (IHy Hin) as [r [row1 [E [Hnth [H0 Hfirst]]]]].
        exists (S r), row1. split; [rewrite E; lia|].
        split; [exact Hnth|]. split; [exact H0|].
        intros [|r'] row' Hr Hnth'; cbn [nth_error] in Hnth'.
        -- injection Hnth' as <-. exact Hrow.
        -- apply (Hfirst r' row'); [lia | exact Hnth'].
      * intro Hn. apply IHn. intro Hin. apply Hn. apply in_or_app. auto.
Qed.

(** The loop of [is_solvable] that looks for the blank finds the first row
    that holds a [0]; its start value [-1] is what is left only when no
    row holds one, which [is_solvable] never reaches: [flat.remove(0)] has
    raised by then. *)
Theorem find_blank_row_first (puzzle_data : list (list Z)) :
  (In 0 (flatten puzzle_data) ->
   exists r row,
     find_blank_row puzzle_data 0 = Z.of_nat r
     /\ nth_error puzzle_data r = Some row /\ In 0 row
     /\ forall r' row', (r' < r)%nat -> nth_error puzzle_data r' = Some row' ->
                        ~ In 0 row')
  /\ (~ In 0 (flatten puzzle_data) -> find_blank_row puzzle_data 0 = -1).
Proof.
  apply (find_blank_row_from puzzle_data 0).
Qed.


(** ** The priorities that the loop pops *)

Lemma entry_ltb_false_f (x e : entry) : entry_ltb x e = false -> e_f e <= e_f x.
Proof.
  unfold entry_ltb. intro H.
  destruct (Z.ltb_spec (e_f x) (e_f e)); [discriminate | lia].
Qed.

(** The priorities that the loop pops never go down: after the round of
    the popped entry [e], every entry of the open list, those of its
    successors included, has an [f] that is at least the [f] of [e]. *)
Theorem popped_priority_is_least (puzzle_data : list (list Z))
    (l l' : loop_state) (e : entry) (rest : list entry) :
  valid_configuration puzzle_data = true ->
  in_solve puzzle_data l ->
  heappop (open_list l) = Some (e, rest) ->
  iteration (len (hd [] puzzle_data)) (len puzzle_data) l e rest = Ret (inl l') ->
  Forall (fun e' => e_f e <= e_f e') (open_list l').
Proof.
  intros Hv Hin Hpop Hit.
  set (w := len (hd [] puzzle_data)) in *. set (h := len puzzle_data) in *.
  destruct (in_solve_inv puzzle_data l Hv Hin) as [Hb _]. fold w h in Hb.
  pose proof (basic_inv_round w h _ l l' e rest Hb Hpop Hit) as Hb'.
  pose proof (heappop_Permutation _ _ _ Hpop) as HP.
  pose proof (heappop_least _ _ _ Hpop) as Hleast.
  assert (He : In e (open_list l)).
  { apply (Permutation_in _ (Permutation_sym HP)). left. reflexivity. }
  assert (Hrest : forall x, In x rest -> e_f e <= e_f x).
  { intros x Hx. apply entry_ltb_false_f. apply Hleast.
    apply (Permutation_in _ (Permutation_sym HP)). right. exact Hx. }
  destruct Hb as [_ [HF _]]. rewrite Forall_forall in HF.
  destruct (HF e He) as [Hs [_ [[ms [Hms _]] [_ Hkind]]]].
  pose proof Hs as [_ [Hg [Hsc Hh]]].
  rewrite (iteration_value w h l e rest Hg Hsc Hh) in Hit. cbv zeta in Hit.
  destruct (dict_contains (closed_list l) (Some (e_state e))).
  - injection Hit as <-. cbn [open_list]. apply Forall_forall. exact Hrest.
  - destruct (manhattan w (flat (e_state e)) =? 0).
    + destruct (make_path (snd (State_hash (e_state e))) (e_prev e) (closed_list l));
        discriminate.
    + injection Hit as <-. cbn [open_list] in *.
      destruct Hb' as [_ [HF' _]]. cbn [open_list counter] in HF'.
      rewrite Forall_forall in HF'.
      destruct (expand_entries w h (closed_list l) (snd (State_hash (e_state e)))
                  (e_g e) (counter l, rest)) as [_ [Eorigin _]].
      cbn [snd] in Eorigin.
      apply Forall_forall. intros e' He'.
      destruct (Eorigin e' He') as [Hold|[c [fl [Hmv [_ [Hst [Hp Hge]]]]]]];
        [apply Hrest; exact Hold|].
      destruct (HF' e' He') as [_ [_ [_ [_ [[Hn _]|[_ [Hf' _]]]]]]];
        [congruence|].
      rewrite Hst in Hf'. cbn [child_state flat] in Hf'.
      rewrite cached_flat in Hmv.
      pose proof (apply_move_manhattan_one _ _ _ _ _ Hg Hmv) as Hone.
      pose proof (manhattan_nonneg w fl).
      destruct Hkind as [[_ [Hf0 [Hg0 _]]]|[_ [Hf _]]]; lia.
Qed.

End Solver.

(** * Examples *)

(** [radix_hash] does not collide on lists of small cells. *)
Lemma radix_hash_cons (v : Z) (t : list Z) :
  radix_hash (v :: t) = v + 1 + 1000 * radix_hash t.
Proof. reflexivity. Qed.

Lemma radix_hash_nonneg (l : list Z) :
  Forall (fun v => 0 <= v < 999) l -> 0 <= radix_hash l.
Proof.
  induction 1 as [|v t Hv _ IH]; [change (radix_hash []) with 0; lia|].
  rewrite radix_hash_cons. lia.
Qed.

Lemma radix_hash_injective (a b : list Z) :
  Forall (fun v => 0 <= v < 999) a -> Forall (fun v => 0 <= v < 999) b ->
  radix_hash a = radix_hash b -> a = b.
Proof.
  intro Ha. revert b. induction Ha as [|v t Hv Ht IH]; intros b Hb H.
  - destruct Hb as [|v' t' Hv' Ht']; [reflexivity|].
    pose proof (radix_hash_nonneg t' Ht').
    rewrite radix_hash_cons in H. change (radix_hash []) with 0 in H. lia.
  - destruct Hb as [|v' t' Hv' Ht'].
    + pose proof (radix_hash_nonneg t Ht).
      rewrite radix_hash_cons in H. change (radix_hash []) with 0 in H. lia.
    + pose proof (radix_hash_nonneg t Ht). pose proof (radix_hash_nonneg t' Ht').
      rewrite !radix_hash_cons in H.
      assert (v = v') by lia. subst v'.
      f_equal. apply IH; [exact Ht' | lia].
Qed.

Lemma radix_hash_collision_free (init : list Z) :
  Forall (fun v => 0 <= v < 999) init ->
  collision_free radix_hash (-1) init.
Proof.
  intro Hi. rewrite Forall_forall in Hi.
  assert (Hb : forall a, Permutation init a -> Forall (fun v => 0 <= v < 999) a).
  { intros a HP. apply Forall_forall. intros x Hx. apply Hi.
    apply (Permutation_in _ (Permutation_sym HP)). exact Hx. }
  split.
  - intros a b Ha Hb' H. apply radix_hash_injective; auto.
  - intros a Ha. pose proof (radix_hash_nonneg a (Hb a Ha)). lia.
Qed.


(** What [solve] returns on some configurations, with [radix_hash]. *)
Example solve_example_puzzle :
  solve radix_hash (-1) 10 example_puzzle = Ret (Some ["L"]).
Proof. vm_compute. reflexivity. Qed.

Example solve_four_moves :
  solve radix_hash (-1) 100 [[0; 1; 3]; [4; 2; 5]; [7; 8; 6]]
  = Ret (Some ["L"; "U"; "L"; "U"]).
Proof. vm_compute. reflexivity. Qed.

Example solve_two_moves :
  solve radix_hash (-1) 100 [[1; 2; 3]; [4; 0; 6]; [7; 5; 8]]
  = Ret (Some ["U"; "L"]).
Proof. vm_compute. reflexivity. Qed.

(** A single row passes the parity test of [is_solvable] although its
    tiles are out of order for good: the search empties the open list. *)
Example solve_single_row :
  valid_configuration single_row_puzzle = true
  /\ is_solvable single_row_puzzle = Ret true
  /\ solve radix_hash (-1) 10 single_row_puzzle = Ret None.
Proof. vm_compute. auto. Qed.


(** The search on [example_puzzle] starts from [example_start], and its
    first round leads to [example_round], whatever the hash is: the closed
    list is empty in that round. *)
Lemma example_in_solve (hash_tuple : list Z -> Z) (hash_none : Z) :
  in_solve hash_tuple hash_none example_puzzle (initial_loop example_start).
Proof.
  exists [1; 2], 1, example_start.
  repeat split; try reflexivity. apply runs_start.
Qed.

Lemma example_round_in_solve (hash_tuple : list Z -> Z) (hash_none : Z) :
  in_solve hash_tuple hash_none example_puzzle (example_round hash_tuple).
Proof.
  exists [1; 2], 1, example_start.
  repeat split; try reflexivity.
  eapply runs_round; [apply runs_start | reflexivity | reflexivity].
Qed.

(** The call [left.move('L', 0, 1, 1, 0, 2)] of the first round. *)
Lemma example_move_call (hash_tuple : list Z -> Z) (hash_none : Z) :
  move_call hash_tuple hash_none 2 2 (initial_loop example_start)
    (example_active hash_tuple) "L" 0 1 1 0.
Proof.
  unfold move_call. do 6 eexists.
  split; [reflexivity|]. split; [reflexivity|]. split; [reflexivity|].
  split; [reflexivity|]. split; [reflexivity|]. split; [reflexivity|].
  split; [reflexivity|]. right. right. left. repeat split.
Qed.

Lemma is_solvable_parity_rule_witness :
  valid_configuration example_puzzle = true
  /\ row_index_of_blank example_puzzle 1
  /\ exists b, is_solvable example_puzzle = Ret b
               /\ (b = true <-> parity_rule example_puzzle 1).
Proof.
  assert (Hv : valid_configuration example_puzzle = true) by reflexivity.
  assert (Hr : row_index_of_blank example_puzzle 1).
  { exists [0; 3]. split; [reflexivity | left; reflexivity]. }
  split; [exact Hv|]. split; [exact Hr|].
  exact (is_solvable_parity_rule example_puzzle 1 Hv Hr).
Defined.

Lemma move_score_is_recomputation_witness :
  valid_configuration example_puzzle = true
  /\ in_solve radix_hash (-1) example_puzzle (initial_loop example_start)
  /\ move_call radix_hash (-1) 2 2 (initial_loop example_start)
       (example_active radix_hash) "L" 0 1 1 0
  /\ exists s',
       move (example_active radix_hash) "L" 0 1 1 0 2 = Ret s'
       /\ score_loop 2 (flat s') 0 0 = Ret (_score s')
       /\ score {| flat := flat s'; moveChar := moveChar s'; _hash := _hash s';
                   _score := -1 |} 2
          = Ret (_score s', s')
       /\ _score s' = manhattan 2 (flat s').
Proof.
  split; [reflexivity|].
  split; [apply example_in_solve|].
  split; [apply example_move_call|].
  exact (move_score_is_recomputation radix_hash (-1) example_puzzle
           (initial_loop example_start) (example_active radix_hash)
           "L" 0 1 1 0 eq_refl (example_in_solve radix_hash (-1))
           (example_move_call radix_hash (-1))).
Defined.

Lemma move_never_sees_uncached_score_witness :
  valid_configuration example_puzzle = true
  /\ in_solve radix_hash (-1) example_puzzle (initial_loop example_start)
  /\ move_call radix_hash (-1) 2 2 (initial_loop example_start)
       (example_active radix_hash) "L" 0 1 1 0
  /\ _score (example_active radix_hash) <> -1
  /\ _score (example_active radix_hash)
     = manhattan 2 (flat (example_active radix_hash)).
Proof.
  split; [reflexivity|].
  split; [apply example_in_solve|].
  split; [apply example_move_call|].
  exact (move_never_sees_uncached_score radix_hash (-1) example_puzzle
           (initial_loop example_start) (example_active radix_hash)
           "L" 0 1 1 0 eq_refl (example_in_solve radix_hash (-1))
           (example_move_call radix_hash (-1))).
Defined.

Lemma states_keep_the_tiles_witness :
  valid_configuration example_puzzle = true
  /\ (list_count (flat (make_state example_puzzle)) 0 = 1
      /\ Permutation (flatten example_puzzle) (flat (make_state example_puzzle)))
  /\ forall l,
      in_solve radix_hash (-1) example_puzzle l ->
      (forall s, In s (states_of l) ->
                 list_count (flat s) 0 = 1
                 /\ Permutation (flatten example_puzzle) (flat s))
      /\ (forall s c x y dx dy,
             move_call radix_hash (-1) 2 2 l s c x y dx dy ->
             exists s', move s c x y dx dy 2 = Ret s'
                        /\ list_count (flat s') 0 = 1
                        /\ Permutation (flatten example_puzzle) (flat s')).
Proof.
  split; [reflexivity|].
  exact (states_keep_the_tiles radix_hash (-1) example_puzzle eq_refl).
Defined.

Lemma open_entries_f_g_h_witness :
  valid_configuration example_puzzle = true
  /\ in_solve radix_hash (-1) example_puzzle (example_round radix_hash)
  /\ In {| e_f := 1; e_g := 1; e_i := 2; e_state := example_left radix_hash;
           e_prev := Some (example_active radix_hash) |}
        (open_list (example_round radix_hash))
  /\ _score (example_left radix_hash) = manhattan 2 [1; 2; 3; 0]
  /\ (exists ms, len ms = 1
                 /\ apply_moves 2 2 ms [1; 2; 0; 3] = Some [1; 2; 3; 0])
  /\ ((Some (example_active radix_hash) <> None /\ 1 = 1 + 0)
      \/ (Some (example_active radix_hash) = None /\ 1 = 0 /\ 1 = 0 /\ 2 = 0
          /\ [1; 2; 3; 0] = [1; 2; 0; 3])).
Proof.
  split; [reflexivity|].
  split; [apply example_round_in_solve|].
  split; [left; reflexivity|].
  exact (open_entries_f_g_h radix_hash (-1) example_puzzle
           (example_round radix_hash) _ eq_refl
           (example_round_in_solve radix_hash (-1)) (or_introl eq_refl)).
Defined.

(** C7 as stated fails on the first entry of the open list: on
    [example_puzzle] it is [(0, 0, 0, example_start, None)] and the score
    of [example_start] is [1]. *)
Lemma first_entry_f_is_not_g_plus_h :
  in_solve radix_hash (-1) example_puzzle (initial_loop example_start)
  /\ exists e, In e (open_list (initial_loop example_start))
               /\ score (e_state e) 2 = Ret (1, e_state e)
               /\ e_g e = 0
               /\ e_f e <> e_g e + 1.
Proof.
  split; [apply example_in_solve|].
  eexists. split; [left; reflexivity|].
  split; [reflexivity|]. split; [reflexivity|]. discriminate.
Qed.


Lemma solve_solved_configuration_witness :
  valid_configuration solved_puzzle = true
  /\ score (make_state solved_puzzle) 2
     = Ret (0, {| flat := [1; 2; 3; 0]; moveChar := ""; _hash := 0; _score := 0 |})
  /\ solve radix_hash (-1) 7 solved_puzzle = Ret (Some [])
  /\ solve radix_hash (-1) 0 solved_puzzle = Ret (Some []).
Proof.
  split; [reflexivity|]. split; [reflexivity|].
  exact (solve_solved_configuration radix_hash (-1) solved_puzzle _ 7%nat
           eq_refl eq_refl).
Defined.









Lemma single_row_collision_free :
  collision_free radix_hash (-1) (flatten single_row_puzzle).
Proof.
  apply radix_hash_collision_free.
  repeat constructor; simpl; lia.
Qed.





(** What a colliding hash does to the search: with [sum_hash], under
    which all rearrangements are equal, [solve] returns [None] on
    [example_puzzle], which one move solves. *)
Lemma example_sum_hash_no_solution (fuel : nat) :
  (3 <= fuel)%nat -> solve sum_hash (-1) fuel example_puzzle = Ret None.
Proof.
  intro H. apply (solve_enough_fuel sum_hash (-1) 3 fuel); [exact H|].
  vm_compute. reflexivity.
Qed.

(** * Examples for the further properties *)

Lemma solve_needs_a_blank_witness :
  ~ In 0 (flatten [[1; 2]; [3; 4]])
  /\ solve radix_hash (-1) 10 [[1; 2]; [3; 4]] = Raise ValueError.
Proof.
  assert (H : ~ In 0 (flatten [[1; 2]; [3; 4]])) by (simpl; lia).
  split; [exact H|].
  exact (solve_needs_a_blank radix_hash (-1) [[1; 2]; [3; 4]] 10%nat H).
Defined.

Lemma is_solvable_along_moves_witness :
  valid_configuration example_puzzle = true
  /\ valid_configuration solved_puzzle = true
  /\ apply_moves 2 2 ["L"] (flatten example_puzzle) = Some (flatten solved_puzzle)
  /\ is_solvable solved_puzzle = is_solvable example_puzzle.
Proof.
  split; [reflexivity|]. split; [reflexivity|]. split; [reflexivity|].
  exact (is_solvable_along_moves example_puzzle solved_puzzle ["L"]
           eq_refl eq_refl eq_refl eq_refl eq_refl).
Defined.

Lemma is_solvable_false_no_moves_witness :
  valid_configuration swapped_puzzle = true
  /\ is_solvable swapped_puzzle = Ret false
  /\ apply_moves 2 2 ["D"; "R"; "U"; "L"] (flatten swapped_puzzle)
     <> Some (goal_configuration 4).
Proof.
  split; [reflexivity|]. split; [reflexivity|].
  exact (is_solvable_false_no_moves swapped_puzzle ["D"; "R"; "U"; "L"]
           eq_refl eq_refl).
Defined.

Lemma index_round_trip_witness :
  0 < 4
  /\ (forall idx, exists x y, from_index idx 4 = Ret (x, y)
                              /\ 0 <= x < 4 /\ index x y 4 = idx)
  /\ (forall x y, 0 <= x < 4 -> from_index (index x y 4) 4 = Ret (x, y)).
Proof.
  split; [reflexivity|].
  exact (index_round_trip 4 eq_refl).
Defined.

Lemma score_is_cached_witness :
  score (make_state example_puzzle) 2 = Ret (1, example_start)
  /\ flat example_start = flat (make_state example_puzzle)
  /\ _score example_start = 1
  /\ forall width', score example_start width' = Ret (1, example_start).
Proof.
  split; [reflexivity|].
  exact (score_is_cached (make_state example_puzzle) example_start 2 1 eq_refl).
Defined.

Lemma score_uncached_witness :
  _score (make_state example_puzzle) = -1
  /\ (2 <> 0 \/ Forall (fun v => v = 0) (flat (make_state example_puzzle)) ->
      score (make_state example_puzzle) 2
      = Ret (manhattan 2 (flat (make_state example_puzzle)),
             {| flat := flat (make_state example_puzzle);
                moveChar := moveChar (make_state example_puzzle);
                _hash := _hash (make_state example_puzzle);
                _score := manhattan 2 (flat (make_state example_puzzle)) |}))
  /\ (2 = 0 -> Exists (fun v => v <> 0) (flat (make_state example_puzzle)) ->
      score (make_state example_puzzle) 2 = Raise ZeroDivisionError).
Proof.
  split; [reflexivity|].
  exact (score_uncached (make_state example_puzzle) 2 eq_refl).
Defined.

Lemma score_zero_iff_goal_witness :
  valid_configuration solved_puzzle = true
  /\ exists v s,
       score (make_state solved_puzzle) 2 = Ret (v, s)
       /\ (v = 0 <-> flatten solved_puzzle = goal_configuration 4).
Proof.
  split; [reflexivity|].
  exact (score_zero_iff_goal solved_puzzle eq_refl).
Defined.

Lemma score_admissible_witness :
  valid_configuration example_puzzle = true
  /\ apply_moves 2 2 ["L"] (flatten example_puzzle) = Some (goal_configuration 4)
  /\ exists v s,
       score (make_state example_puzzle) 2 = Ret (v, s) /\ v <= len ["L"].
Proof.
  split; [reflexivity|]. split; [reflexivity|].
  exact (score_admissible example_puzzle ["L"] eq_refl eq_refl).
Defined.

Lemma example_start_grid : grid 2 2 (flat example_start).
Proof. repeat split; reflexivity. Qed.

Lemma example_start_left : legal 2 2 (2 mod 2) (2 / 2) 1 0.
Proof. change (legal 2 2 0 1 1 0). unfold legal. lia. Qed.

Lemma move_changes_score_by_one_witness :
  grid 2 2 (flat example_start)
  /\ blank_index (flat example_start) = Some 2
  /\ legal 2 2 0 1 1 0
  /\ exists s', move example_start "L" 0 1 1 0 2 = Ret s'
                /\ Z.abs (_score s' - _score example_start) = 1.
Proof.
  split; [exact example_start_grid|]. split; [reflexivity|].
  split; [exact example_start_left|].
  exact (move_changes_score_by_one 2 2 example_start "L" 2 1 0
           example_start_grid eq_refl example_start_left).
Defined.

Lemma move_and_back_witness :
  grid 2 2 (flat example_start)
  /\ blank_index (flat example_start) = Some 2
  /\ legal 2 2 0 1 1 0
  /\ move example_start "L" 0 1 1 0 2
     = Ret {| flat := [1; 2; 3; 0]; moveChar := "L"; _hash := 0; _score := 0 |}
  /\ exists s2,
       move {| flat := [1; 2; 3; 0]; moveChar := "L"; _hash := 0; _score := 0 |}
         "R" 1 1 (-1) 0 2 = Ret s2
       /\ flat s2 = flat example_start /\ _score s2 = _score example_start.
Proof.
  split; [exact example_start_grid|]. split; [reflexivity|].
  split; [exact example_start_left|]. split; [reflexivity|].
  exact (move_and_back 2 2 example_start _ "L" "R" 2 1 0
           example_start_grid eq_refl example_start_left eq_refl).
Defined.

Lemma move_off_the_top_wraps_witness :
  grid 2 2 (flat (make_state [[0; 2]; [1; 3]]))
  /\ blank_index (flat (make_state [[0; 2]; [1; 3]])) = Some 0
  /\ exists s',
       move (make_state [[0; 2]; [1; 3]]) "D" 0 0 0 (-1) 2 = Ret s'
       /\ flat s' = [1; 2; 0; 3].
Proof.
  assert (Hg : grid 2 2 (flat (make_state [[0; 2]; [1; 3]])))
    by (repeat split; reflexivity).
  split; [exact Hg|]. split; [reflexivity|].
  exact (move_off_the_top_wraps 2 2 (make_state [[0; 2]; [1; 3]]) 0
           Hg ltac:(lia) eq_refl eq_refl).
Defined.

Lemma make_path_unknown_prev_witness :
  dict_contains radix_hash (-1) (closed_list (example_round radix_hash))
    (Some (example_left radix_hash)) = false
  /\ make_path radix_hash (-1) (example_left radix_hash)
       (Some (example_left radix_hash))
       (closed_list (example_round radix_hash)) = Ret [].
Proof.
  split; [reflexivity|].
  exact (make_path_unknown_prev radix_hash (-1) (example_left radix_hash)
           (Some (example_left radix_hash))
           (closed_list (example_round radix_hash)) eq_refl).
Defined.

Lemma make_path_loop_ends_early_witness :
  make_path_loop radix_hash (-1) 7 (Some (example_active radix_hash))
    (closed_list (example_round radix_hash)) [] <> OutOfFuel
  /\ make_path_loop radix_hash (-1) 2 (Some (example_active radix_hash))
       (closed_list (example_round radix_hash)) []
     = make_path_loop radix_hash (-1) 7 (Some (example_active radix_hash))
         (closed_list (example_round radix_hash)) [].
Proof.
  assert (H : make_path_loop radix_hash (-1) 7 (Some (example_active radix_hash))
                (closed_list (example_round radix_hash)) [] <> OutOfFuel)
    by (vm_compute; discriminate).
  split; [exact H|].
  exact (make_path_loop_ends_early radix_hash (-1) 7
           (Some (example_active radix_hash))
           (closed_list (example_round radix_hash)) [] H).
Defined.

Lemma solve_moves_reach_goal_witness :
  valid_configuration example_puzzle = true
  /\ solve radix_hash (-1) 10 example_puzzle = Ret (Some ["L"])
  /\ apply_moves 2 2 ["L"] (flatten example_puzzle) = Some (goal_configuration 4).
Proof.
  split; [reflexivity|]. split; [reflexivity|].
  exact (solve_moves_reach_goal radix_hash (-1) example_puzzle 10 ["L"]
           eq_refl eq_refl).
Defined.

Lemma solve_ends_witness :
  valid_configuration single_row_puzzle = true
  /\ exists N, forall fuel, (N <= fuel)%nat ->
       (exists r, solve sum_hash (-1) fuel single_row_puzzle = Ret r)
       \/ (solve sum_hash (-1) fuel single_row_puzzle = Raise AttributeError
           /\ exists a, Permutation (flatten single_row_puzzle) a
                        /\ sum_hash a = -1).
Proof.
  split; [reflexivity|].
  exact (solve_ends sum_hash (-1) single_row_puzzle eq_refl).
Defined.

Lemma closed_keys_differ_witness :
  valid_configuration example_puzzle = true
  /\ in_solve radix_hash (-1) example_puzzle (example_round radix_hash)
  /\ NoDup (map (fun kv => flat (fst kv))
              (closed_list (example_round radix_hash)))
  /\ Forall (fun kv => flat (fst kv) <> goal_configuration 4)
       (closed_list (example_round radix_hash)).
Proof.
  split; [reflexivity|]. split; [apply example_round_in_solve|].
  exact (closed_keys_differ radix_hash (-1) example_puzzle
           (example_round radix_hash) eq_refl
           (example_round_in_solve radix_hash (-1))).
Defined.

Lemma closed_list_predecessors_witness :
  valid_configuration example_puzzle = true
  /\ in_solve radix_hash (-1) example_puzzle (example_round radix_hash)
  /\ In (example_active radix_hash, None)
        (closed_list (example_round radix_hash))
  /\ (forall v', In (example_active radix_hash, v')
                    (closed_list (example_round radix_hash)) -> v' = None)
  /\ flat (example_active radix_hash) = flatten example_puzzle.
Proof.
  split; [reflexivity|]. split; [apply example_round_in_solve|].
  split; [left; reflexivity|].
  exact (closed_list_predecessors radix_hash (-1) example_puzzle
           (example_round radix_hash) (example_active radix_hash) None eq_refl
           (example_round_in_solve radix_hash (-1)) (or_introl eq_refl)).
Defined.

Lemma example_entries_differ :
  {| e_f := 1; e_g := 1; e_i := 2; e_state := example_left radix_hash;
     e_prev := Some (example_active radix_hash) |}
  <> {| e_f := 3; e_g := 1; e_i := 1; e_state := example_down radix_hash;
        e_prev := Some (example_active radix_hash) |}.
Proof. discriminate. Qed.

Lemma open_entries_are_ordered_witness :
  valid_configuration example_puzzle = true
  /\ in_solve radix_hash (-1) example_puzzle (example_round radix_hash)
  /\ (2 <> 1 /\ 0 <= 2 <= counter (example_round radix_hash)
      /\ entry_ltb
           {| e_f := 1; e_g := 1; e_i := 2; e_state := example_left radix_hash;
              e_prev := Some (example_active radix_hash) |}
           {| e_f := 3; e_g := 1; e_i := 1; e_state := example_down radix_hash;
              e_prev := Some (example_active radix_hash) |}
         = negb (entry_ltb
                   {| e_f := 3; e_g := 1; e_i := 1;
                      e_state := example_down radix_hash;
                      e_prev := Some (example_active radix_hash) |}
                   {| e_f := 1; e_g := 1; e_i := 2;
                      e_state := example_left radix_hash;
                      e_prev := Some (example_active radix_hash) |})).
Proof.
  split; [reflexivity|]. split; [apply example_round_in_solve|].
  exact (open_entries_are_ordered radix_hash (-1) example_puzzle
           (example_round radix_hash) _ _ eq_refl
           (example_round_in_solve radix_hash (-1))
           (or_introl eq_refl) (or_intror (or_introl eq_refl))
           example_entries_differ).
Defined.

Lemma child_priority_witness :
  valid_configuration example_puzzle = true
  /\ in_solve radix_hash (-1) example_puzzle (example_round radix_hash)
  /\ (3 = 1 - 1 + _score (example_active radix_hash)
      \/ 3 = 1 - 1 + _score (example_active radix_hash) + 2).
Proof.
  split; [reflexivity|]. split; [apply example_round_in_solve|].
  exact (child_priority radix_hash (-1) example_puzzle
           (example_round radix_hash)
           {| e_f := 3; e_g := 1; e_i := 1; e_state := example_down radix_hash;
              e_prev := Some (example_active radix_hash) |}
           (example_active radix_hash) eq_refl
           (example_round_in_solve radix_hash (-1))
           (or_intror (or_introl eq_refl)) eq_refl).
Defined.

Lemma solve_moves_alphabet_witness :
  valid_configuration example_puzzle = true
  /\ solve radix_hash (-1) 10 example_puzzle = Ret (Some ["L"])
  /\ Forall (fun c => c = "U" \/ c = "D" \/ c = "L" \/ c = "R") ["L"]
  /\ manhattan 2 (flatten example_puzzle) <= len ["L"].
Proof.
  split; [reflexivity|]. split; [reflexivity|].
  exact (solve_moves_alphabet radix_hash (-1) example_puzzle 10 ["L"]
           eq_refl eq_refl).
Defined.

Lemma solve_none_no_moves_witness :
  valid_configuration single_row_puzzle = true
  /\ collision_free radix_hash (-1) (flatten single_row_puzzle)
  /\ solve radix_hash (-1) 10 single_row_puzzle = Ret None
  /\ apply_moves 4 1 ["R"; "R"; "R"] (flatten single_row_puzzle)
     <> Some (goal_configuration 4).
Proof.
  split; [reflexivity|]. split; [exact single_row_collision_free|].
  split; [reflexivity|].
  exact (solve_none_no_moves radix_hash (-1) single_row_puzzle 10
           ["R"; "R"; "R"] eq_refl single_row_collision_free eq_refl).
Defined.

Lemma popped_priority_is_least_witness :
  valid_configuration example_puzzle = true
  /\ in_solve radix_hash (-1) example_puzzle (initial_loop example_start)
  /\ heappop (open_list (initial_loop example_start))
     = Some ({| e_f := 0; e_g := 0; e_i := 0; e_state := example_start;
                e_prev := None |}, [])
  /\ iteration radix_hash (-1) 2 2 (initial_loop example_start)
       {| e_f := 0; e_g := 0; e_i := 0; e_state := example_start;
          e_prev := None |} []
     = Ret (inl (example_round radix_hash))
  /\ Forall (fun e' => 0 <= e_f e') (open_list (example_round radix_hash)).
Proof.
  split; [reflexivity|]. split; [apply example_in_solve|].
  split; [reflexivity|]. split; [reflexivity|].
  exact (popped_priority_is_least radix_hash (-1) example_puzzle
           (initial_loop example_start) (example_round radix_hash)
           {| e_f := 0; e_g := 0; e_i := 0; e_state := example_start;
              e_prev := None |} []
           eq_refl (example_in_solve radix_hash (-1)) eq_refl eq_refl).
Defined.

Lemma example_round_closed_good :
  Forall (good_pair radix_hash 2 2 (flatten example_puzzle))
    (closed_list (example_round radix_hash)).
Proof.
  constructor; [|constructor]. split; [|intros p H; discriminate].
  split; [apply Permutation_refl|]. split; [repeat split; reflexivity|].
  split; [reflexivity | right; reflexivity].
Qed.

Lemma example_round_closed_hashes :
  NoDup (map (fun kv => radix_hash (flat (fst kv)))
           (closed_list (example_round radix_hash))).
Proof. constructor; [intros [] | constructor]. Qed.

Lemma example_round_trace :
  trace 2 2 (flatten example_puzzle) (closed_list (example_round radix_hash))
    (example_active radix_hash) [].
Proof. apply trace_start; [left; reflexivity | reflexivity]. Qed.

Lemma make_path_follows_trace_witness :
  Forall (good_pair radix_hash 2 2 (flatten example_puzzle))
    (closed_list (example_round radix_hash))
  /\ NoDup (map (fun kv => radix_hash (flat (fst kv)))
              (closed_list (example_round radix_hash)))
  /\ dict_contains radix_hash (-1) (closed_list (example_round radix_hash)) None
     = false
  /\ trace 2 2 (flatten example_puzzle) (closed_list (example_round radix_hash))
       (example_active radix_hash) []
  /\ make_path radix_hash (-1) (example_left radix_hash)
       (Some (example_active radix_hash))
       (closed_list (example_round radix_hash))
     = Ret ([] ++ ["L"]).
Proof.
  split; [exact example_round_closed_good|].
  split; [exact example_round_closed_hashes|].
  split; [reflexivity|]. split; [exact example_round_trace|].
  exact (make_path_follows_trace radix_hash (-1) 2 2 (flatten example_puzzle)
           (closed_list (example_round radix_hash))
           example_round_closed_good example_round_closed_hashes
           (example_left radix_hash) (example_active radix_hash) []
           eq_refl example_round_trace).
Defined.

Lemma example_active_proper : proper_hash radix_hash (example_active radix_hash).
Proof.
  unfold proper_hash. vm_compute. split; [discriminate|].
  split; [discriminate | reflexivity].
Qed.

Lemma example_left_proper : proper_hash radix_hash (example_left radix_hash).
Proof.
  unfold proper_hash. vm_compute. split; [discriminate|].
  split; [discriminate | reflexivity].
Qed.

Lemma example_round_closed_proper :
  Forall (fun kv => proper_hash radix_hash (fst kv))
    (closed_list (example_round radix_hash)).
Proof. constructor; [exact example_active_proper | constructor]. Qed.

Lemma example_left_other_proper (o : State) :
  Some (example_left radix_hash) = Some o -> proper_hash radix_hash o.
Proof. intro H. injection H as <-. exact example_left_proper. Qed.

Lemma dict_set_then_get_witness :
  Forall (fun kv => proper_hash radix_hash (fst kv))
    (closed_list (example_round radix_hash))
  /\ proper_hash radix_hash (example_left radix_hash)
  /\ (forall o, Some (example_left radix_hash) = Some o ->
                proper_hash radix_hash o)
  /\ dict_get radix_hash (-1)
       (dict_set radix_hash (-1) (closed_list (example_round radix_hash))
          (example_left radix_hash) (Some (example_active radix_hash)))
       (Some (example_left radix_hash))
     = (if State_eq radix_hash (-1) (example_left radix_hash)
             (Some (example_left radix_hash))
        then Ret (Some (example_active radix_hash))
        else dict_get radix_hash (-1) (closed_list (example_round radix_hash))
               (Some (example_left radix_hash)))
  /\ dict_contains radix_hash (-1)
       (dict_set radix_hash (-1) (closed_list (example_round radix_hash))
          (example_left radix_hash) (Some (example_active radix_hash)))
       (Some (example_left radix_hash))
     = (State_eq radix_hash (-1) (example_left radix_hash)
          (Some (example_left radix_hash))
        || dict_contains radix_hash (-1)
             (closed_list (example_round radix_hash))
             (Some (example_left radix_hash)))
  /\ length
       (dict_set radix_hash (-1) (closed_list (example_round radix_hash))
          (example_left radix_hash) (Some (example_active radix_hash)))
     = (if dict_contains radix_hash (-1)
             (closed_list (example_round radix_hash))
             (Some (example_left radix_hash))
        then length (closed_list (example_round radix_hash))
        else S (length (closed_list (example_round radix_hash)))).
Proof.
  split; [exact example_round_closed_proper|].
  split; [exact example_left_proper|].
  split; [exact example_left_other_proper|].
  exact (dict_set_then_get radix_hash (-1)
           (closed_list (example_round radix_hash))
           (example_left radix_hash) (Some (example_active radix_hash))
           (Some (example_left radix_hash))
           example_round_closed_proper example_left_proper
           example_left_other_proper).
Defined.
